(** * Litematic skin downloader: the NBT reader and the skin extractor

    A shallow embedding of [nbt-reader.js] (class [NBTReader],
    [parseLitematic], [extractSkinsFromNBT], [extractSkinFromEntity],
    [parseProfile], [intArrayToUUID], [decodeTextureValue]), of
    [skin-extractor.js] ([extractSkinsFromLitematic], [getSkinImageUrl],
    [getSkinDownloadUrl]) and of [getDisplayName] of [main.js], with the
    properties the specification states and further ones read off the
    code.

    Layout: JavaScript values and the built-in operations the reader and
    the extractor use; the reader, a state-and-error monad over the cursor;
    the extractor; the reference encoder of the specification; the
    functions of the page; then the theorems, by subject. What the page
    does to the document it is shown in (panels, cards, the clipboard)
    is not modelled. *)

From Stdlib Require Import ZArith NArith List Lia Bool String Ascii PeanoNat.
From coqutil Require Import Byte.
Import ListNotations.
Local Open Scope Z_scope.
Set Warnings "-register-all".

(* ===================================================================== *)
(** ** Outcomes *)

(** What a JavaScript call can end with: a value, or a thrown error. The
    third outcome belongs to the model only: the recursion of [readTag] is
    bounded by a fuel, and [OutOfFuel] says the bound was hit
    ([NBT.readTag_total] shows it never is for the fuel [parse] gives). *)
Inductive error : Type :=
| RangeError                 (* DataView / typed array bounds *)
| TypeError                  (* property of null, not iterable, ... *)
| UnknownTagType (t : Z)     (* Error(`Unknown tag type: ${t}`) *)
| BadRootType (t : Z).       (* Error(`Expected root tag to be COMPOUND, got ${t}`) *)

Inductive result (A : Type) : Type :=
| Ok (a : A)
| Throw (e : error)
| OutOfFuel.
Arguments Ok {A} a.
Arguments Throw {A} e.
Arguments OutOfFuel {A}.

Definition is_throw {A} (r : result A) : bool :=
  match r with Throw _ => true | _ => false end.

(* ===================================================================== *)
(** ** JavaScript numbers, strings and values *)

Module JS.

(** A Number is an IEEE binary64. Every double has exactly one
    representation here: the integers (with [+0]); [-0]; the finite
    non-integers [± m / 2^e] with [m] odd; the infinities; NaN. *)
Inductive number : Type :=
| NInt (z : Z)
| NNegZero
| NFrac (neg : bool) (m e : positive)
| NInf (neg : bool)
| NNaN.

(** Strips up to [k] factors two from [m]. *)
Fixpoint strip_twos (m : positive) (k : nat) : positive * nat :=
  match k, m with
  | S k', xO m' => strip_twos m' k'
  | _, _ => (m, k)
  end.

(** The double [(-1)^s * m * 2^e]. *)
Definition scaled (s : bool) (m e : Z) : number :=
  match m with
  | Zpos p =>
      if 0 <=? e then NInt (if s then - (m * 2 ^ e) else m * 2 ^ e)
      else
        let '(p', k) := strip_twos p (Z.to_nat (- e)) in
        match k with
        | O => NInt (if s then Zneg p' else Zpos p')
        | S _ => NFrac s p' (Pos.of_nat k)
        end
  | _ => if s then NNegZero else NInt 0
  end.

(** The value of an IEEE 754 bit pattern with [ebits] exponent bits and
    [mbits] fraction bits (a binary32 value is a double as it is). *)
Definition ieee (ebits mbits bits : Z) : number :=
  let s := Z.testbit bits (ebits + mbits) in
  let E := (bits / 2 ^ mbits) mod 2 ^ ebits in
  let F := bits mod 2 ^ mbits in
  let bias := 2 ^ (ebits - 1) - 1 in
  if E =? 2 ^ ebits - 1 then (if F =? 0 then NInf s else NNaN)
  else if E =? 0 then scaled s F (1 - bias - mbits)
  else scaled s (2 ^ mbits + F) (E - bias - mbits).

Definition float32 : Z -> number := ieee 8 23.
Definition float64 : Z -> number := ieee 11 52.

(** A String is a sequence of UTF-16 code units. *)
Definition jstring : Type := list Z.

(** The String of an ASCII literal. *)
Definition js (s : string) : jstring :=
  map (fun c => Z.of_N (N_of_ascii c)) (list_ascii_of_string s).

Definition str_eqb (a b : jstring) : bool :=
  if list_eq_dec Z.eq_dec a b then true else false.

(** A property key that is an array index (a canonical decimal below
    [2^32 - 1]) is kept as the number, any other as the string: the two
    kinds are ordered differently when an object is enumerated. *)
Inductive key : Type :=
| Index (i : N)
| Name (s : jstring).

(** The values the reader builds, and [undefined], which only property
    lookups produce. [VArr] is an Array (a list tag or a long array),
    [VI8] an Int8Array, [VI32] an Int32Array, [VObj] a plain object whose
    own properties are listed in the order JavaScript enumerates them. *)
Inductive value : Type :=
| VUndef
| VNull
| VNum (n : number)
| VBig (z : Z)
| VStr (s : jstring)
| VArr (l : list value)
| VI8 (l : list Z)
| VI32 (l : list Z)
| VObj (props : list (key * value)).

Definition VInt (z : Z) : value := VNum (NInt z).

(** *** Property keys *)

Definition digit (c : Z) : option Z :=
  if (48 <=? c) && (c <=? 57) then Some (c - 48) else None.

Fixpoint decimal (s : jstring) (acc : Z) : option Z :=
  match s with
  | [] => Some acc
  | c :: rest =>
      match digit c with
      | Some d => decimal rest (acc * 10 + d)
      | None => None
      end
  end.

Definition array_index (s : jstring) : option N :=
  match s with
  | [] => None
  | [48] => Some 0%N
  | 48 :: _ => None
  | _ =>
      match decimal s 0 with
      | Some i => if i <=? 2 ^ 32 - 2 then Some (Z.to_N i) else None
      | None => None
      end
  end.

(** ToPropertyKey of a string. *)
Definition key_of (s : jstring) : key :=
  match array_index s with
  | Some i => Index i
  | None => Name s
  end.

Definition key_eqb (a b : key) : bool :=
  match a, b with
  | Index i, Index j => (i =? j)%N
  | Name s, Name t => str_eqb s t
  | _, _ => false
  end.

(** *** Plain objects *)

Definition props : Type := list (key * value).

Fixpoint lookup (o : props) (k : key) : option value :=
  match o with
  | [] => None
  | (k', v) :: rest => if key_eqb k k' then Some v else lookup rest k
  end.

(** Writes an own property that exists, in place. *)
Fixpoint overwrite (o : props) (k : key) (v : value) : props :=
  match o with
  | [] => []
  | (k', v') :: rest =>
      if key_eqb k k' then (k', v) :: rest else (k', v') :: overwrite rest k v
  end.

(** Creates an own property: an array index goes among the array indices,
    in ascending order and before every string key; a string key goes
    last. *)
Fixpoint create (o : props) (k : key) (v : value) : props :=
  match o with
  | [] => [(k, v)]
  | (k', v') :: rest =>
      match k, k' with
      | Index i, Index j =>
          if (j <? i)%N then (k', v') :: create rest k v else (k, v) :: o
      | Index _, Name _ => (k, v) :: o
      | Name _, _ => (k', v') :: create rest k v
      end
  end.

(** [o[name] = v] on an object made by [{}]. The name [__proto__] reaches
    the setter inherited from Object.prototype and creates no own
    property. When [v] is a primitive (a Number, a BigInt, a String) the
    setter does nothing else, and the model is exact. When [v] is an
    object (an Array, a typed array, a compound) the setter moreover
    makes it the prototype of [o]: reads and [for ... in] then see the
    members [o] inherits, a later write under an array index a typed
    array does not hold is dropped, and a later write of [length],
    [byteLength], [byteOffset] or [buffer] under a typed array throws a
    TypeError. The model of objects records no prototype: it follows the
    source on the documents in which every member named [__proto__]
    holds a primitive, and the theorems about decoded documents are
    stated for those where the difference shows. *)
Definition obj_set (o : props) (name : jstring) (v : value) : props :=
  if str_eqb name (js "__proto__") then o
  else
    let k := key_of name in
    match lookup o k with
    | Some _ => overwrite o k v
    | None => create o k v
    end.

(** *** Operators *)

(** ToBoolean *)
Definition truthy (v : value) : bool :=
  match v with
  | VUndef | VNull => false
  | VNum (NInt 0) | VNum NNegZero | VNum NNaN => false
  | VNum _ => true
  | VBig z => negb (z =? 0)
  | VStr [] => false
  | _ => true
  end.

(** [v[k]] and [v.k] for a key [k] that names no built-in property (none
    of the keys the extractor reads does, [length] apart, which it reads
    only on arrays): a TypeError on [null] and [undefined], an element of
    an array, a typed array or a string, an own property of an object,
    [undefined] otherwise. *)
Definition get (v : value) (k : key) : result value :=
  match v with
  | VUndef | VNull => Throw TypeError
  | VNum _ | VBig _ => Ok VUndef
  | VStr s =>
      match k with
      | Index i => Ok (match nth_error s (N.to_nat i) with
                       | Some c => VStr [c] | None => VUndef end)
      | Name _ => Ok VUndef
      end
  | VArr l =>
      match k with
      | Index i => Ok (match nth_error l (N.to_nat i) with
                       | Some x => x | None => VUndef end)
      | Name _ => Ok VUndef
      end
  | VI8 l | VI32 l =>
      match k with
      | Index i => Ok (match nth_error l (N.to_nat i) with
                       | Some x => VInt x | None => VUndef end)
      | Name _ => Ok VUndef
      end
  | VObj o =>
      Ok (match lookup o k with Some x => x | None => VUndef end)
  end.

Definition indices {A} (l : list A) : list key :=
  map (fun i => Index (N.of_nat i)) (seq 0 (List.length l)).

(** The keys [for (k in v)] visits: the enumerable properties, in order. *)
Definition for_in (v : value) : list key :=
  match v with
  | VStr s => indices s
  | VArr l => indices l
  | VI8 l | VI32 l => indices l
  | VObj o => map fst o
  | _ => []
  end.

Definition is_high (c : Z) : bool := (0xD800 <=? c) && (c <=? 0xDBFF).
Definition is_low (c : Z) : bool := (0xDC00 <=? c) && (c <=? 0xDFFF).

(** The strings the iterator of a string yields: one per code point. *)
Fixpoint code_points (s : jstring) : list jstring :=
  match s with
  | [] => []
  | a :: rest =>
      match rest with
      | b :: rest' =>
          if is_high a && is_low b then [a; b] :: code_points rest'
          else [a] :: code_points rest
      | [] => [[a]]
      end
  end.

(** The values [for (x of v)] visits; a TypeError when [v] is not
    iterable. *)
Definition for_of (v : value) : result (list value) :=
  match v with
  | VArr l => Ok l
  | VI8 l | VI32 l => Ok (map VInt l)
  | VStr s => Ok (map VStr (code_points s))
  | _ => Throw TypeError
  end.

Definition is_array (v : value) : bool :=
  match v with VArr _ => true | _ => false end.

Definition is_string (v : value) : bool :=
  match v with VStr _ => true | _ => false end.

(** [typeof v === 'object' && v !== null] *)
Definition is_object (v : value) : bool :=
  match v with VArr _ | VI8 _ | VI32 _ | VObj _ => true | _ => false end.

(** [v === s] for a string [s] *)
Definition is_str (v : value) (s : jstring) : bool :=
  match v with VStr t => str_eqb t s | _ => false end.

Definition is_undefined (v : value) : bool :=
  match v with VUndef => true | _ => false end.

End JS.
Import JS.

(* ===================================================================== *)
(** ** TextDecoder('utf-8') *)

Module Utf8.

(** The state a lead byte [x] puts the decoder in: the code point emitted
    at once (if any), then the bits collected, the number of continuation
    bytes still needed and the bounds of the next one. *)
Definition lead (x : Z) : option Z * (Z * nat * Z * Z) :=
  if x <=? 0x7F then (Some x, (0, O, 0x80, 0xBF))
  else if (0xC2 <=? x) && (x <=? 0xDF) then (None, (x - 0xC0, 1%nat, 0x80, 0xBF))
  else if (0xE0 <=? x) && (x <=? 0xEF) then
    (None, (x - 0xE0, 2%nat, (if x =? 0xE0 then 0xA0 else 0x80),
                             (if x =? 0xED then 0x9F else 0xBF)))
  else if (0xF0 <=? x) && (x <=? 0xF4) then
    (None, (x - 0xF0, 3%nat, (if x =? 0xF0 then 0x90 else 0x80),
                             (if x =? 0xF4 then 0x8F else 0xBF)))
  else (Some 0xFFFD, (0, O, 0x80, 0xBF)).

Definition emit (o : option Z) (l : list Z) : list Z :=
  match o with Some c => c :: l | None => l end.

(** The UTF-8 decoder of the Encoding standard, errors replaced by U+FFFD:
    a byte that cannot continue a sequence ends it with U+FFFD and is read
    again as a lead byte; input ending inside a sequence gives U+FFFD. *)
Fixpoint run (bs : list byte) (cp : Z) (need : nat) (lo hi : Z) : list Z :=
  match bs with
  | [] => match need with O => [] | S _ => [0xFFFD] end
  | b :: rest =>
      let x := byte.unsigned b in
      match need with
      | O =>
          let '(out, (cp', need', lo', hi')) := lead x in
          emit out (run rest cp' need' lo' hi')
      | S n =>
          if (lo <=? x) && (x <=? hi) then
            let cp' := cp * 64 + (x - 0x80) in
            match n with
            | O => cp' :: run rest 0 O 0x80 0xBF
            | S _ => run rest cp' n 0x80 0xBF
            end
          else
            let '(out, (cp', need', lo', hi')) := lead x in
            0xFFFD :: emit out (run rest cp' need' lo' hi')
      end
  end.

(** The code units of a code point. *)
Definition units (c : Z) : list Z :=
  if c <? 0x10000 then [c]
  else [0xD800 + (c - 0x10000) / 0x400; 0xDC00 + (c - 0x10000) mod 0x400].

(** [new TextDecoder('utf-8').decode(bytes)]: a leading U+FEFF (the byte
    order mark) is dropped, [ignoreBOM] being false by default. *)
Definition decode (bs : list byte) : jstring :=
  let cps := run bs 0 O 0x80 0xBF in
  flat_map units
    (match cps with
     | c :: rest => if c =? 0xFEFF then rest else cps
     | [] => []
     end).

End Utf8.

(* ===================================================================== *)
(** ** The reader: class NBTReader *)

Module NBT.

Definition TAG_END : Z := 0.
Definition TAG_BYTE : Z := 1.
Definition TAG_SHORT : Z := 2.
Definition TAG_INT : Z := 3.
Definition TAG_LONG : Z := 4.
Definition TAG_FLOAT : Z := 5.
Definition TAG_DOUBLE : Z := 6.
Definition TAG_BYTE_ARRAY : Z := 7.
Definition TAG_STRING : Z := 8.
Definition TAG_LIST : Z := 9.
Definition TAG_COMPOUND : Z := 10.
Definition TAG_INT_ARRAY : Z := 11.
Definition TAG_LONG_ARRAY : Z := 12.

(** *** DataView over the whole buffer *)

(** The [n] bytes at [off], when the buffer has them. *)
Definition slice (buf : list byte) (off n : nat) : option (list byte) :=
  if (off + n <=? List.length buf)%nat then Some (firstn n (skipn off buf)) else None.

(** Big-endian value of a run of bytes, unsigned and two's complement. *)
Definition unsigned_be (bs : list byte) : Z :=
  fold_left (fun acc b => acc * 256 + byte.unsigned b) bs 0.

Definition signed_be (bs : list byte) : Z :=
  let u := unsigned_be bs in
  let w := 8 * Z.of_nat (List.length bs) in
  if u <? 2 ^ (w - 1) then u else u - 2 ^ w.

(** *** The cursor monad

    [this.buffer] never changes and [this.offset] is the only state: a
    method is a function of the buffer and the offset that ends with a
    value and the new offset, or throws. *)
Definition reader (A : Type) : Type := list byte -> nat -> result (A * nat).

Definition ret {A} (a : A) : reader A := fun _ off => Ok (a, off).

Definition throw {A} (e : error) : reader A := fun _ _ => Throw e.

Definition bind {A B} (m : reader A) (f : A -> reader B) : reader B :=
  fun buf off =>
    match m buf off with
    | Ok (a, off') => f a buf off'
    | Throw e => Throw e
    | OutOfFuel => OutOfFuel
    end.

Notation "x <- m ;; k" := (bind m (fun x => k))
  (at level 61, m at next level, right associativity).
Notation "m ;;; k" := (bind m (fun _ => k))
  (at level 61, right associativity).

(** [this.buffer.getXxx(this.offset + d)] for a getter that reads [n]
    bytes: a RangeError when they are not all inside the buffer. *)
Definition getter {A} (n d : nat) (conv : list byte -> A) : reader A :=
  fun buf off =>
    match slice buf (off + d) n with
    | Some bs => Ok (conv bs, off)
    | None => Throw RangeError
    end.

Definition getInt8 : reader Z := getter 1 0 signed_be.
Definition getUint8 : reader Z := getter 1 0 unsigned_be.
Definition getInt16 : reader Z := getter 2 0 signed_be.
Definition getInt32 (d : nat) : reader Z := getter 4 d signed_be.
Definition getUint32 (d : nat) : reader Z := getter 4 d unsigned_be.
Definition getFloat32 : reader number := getter 4 0 (fun bs => float32 (unsigned_be bs)).
Definition getFloat64 : reader number := getter 8 0 (fun bs => float64 (unsigned_be bs)).

(** [this.offset += n] *)
Definition advance (n : nat) : reader unit := fun _ off => Ok (tt, (off + n)%nat).

(** *** The scalar readers *)

Definition readByte : reader Z :=
  value <- getInt8 ;; advance 1 ;;; ret value.

Definition readUByte : reader Z :=
  value <- getUint8 ;; advance 1 ;;; ret value.

Definition readShort : reader Z :=
  value <- getInt16 ;; advance 2 ;;; ret value.

Definition readInt : reader Z :=
  value <- getInt32 0 ;; advance 4 ;;; ret value.

(** [(BigInt(high) << 32n) | BigInt(low)] *)
Definition readLong : reader Z :=
  high <- getInt32 0 ;;
  low <- getUint32 4 ;;
  advance 8 ;;;
  ret (Z.lor (Z.shiftl high 32) low).

Definition readFloat : reader number :=
  value <- getFloat32 ;; advance 4 ;;; ret value.

Definition readDouble : reader number :=
  value <- getFloat64 ;; advance 8 ;;; ret value.

(** [new Uint8Array(this.buffer.buffer, this.offset, length)]: a
    RangeError when the view would pass the end of the buffer. *)
Definition uint8Array (length : nat) : reader (list byte) :=
  getter length 0 (fun bs => bs).

Definition readString : reader jstring :=
  length <- readShort ;;
  if length <=? 0 then ret [] else
  bytes <- uint8Array (Z.to_nat length) ;;
  advance (Z.to_nat length) ;;;
  ret (Utf8.decode bytes).

(** *** The arrays *)

(** [for (let i = 0; i < n; i++) ... m ...], the results in order. *)
Fixpoint times {A} (n : nat) (m : reader A) : reader (list A) :=
  match n with
  | O => ret []
  | S n' => x <- m ;; xs <- times n' m ;; ret (x :: xs)
  end.

(** [new Int8Array(length)] and [new Int32Array(length)] throw a
    RangeError on a negative length (memory is taken to be enough for a
    length that is not negative). *)
Definition typedArray (length : Z) : reader unit :=
  if length <? 0 then throw RangeError else ret tt.

Definition readByteArray : reader value :=
  length <- readInt ;;
  typedArray length ;;;
  array <- times (Z.to_nat length) readByte ;;
  ret (VI8 array).

Definition readIntArray : reader value :=
  length <- readInt ;;
  typedArray length ;;;
  array <- times (Z.to_nat length) readInt ;;
  ret (VI32 array).

Definition readLongArray : reader value :=
  length <- readInt ;;
  array <- times (Z.to_nat length) readLong ;;
  ret (VArr (map VBig array)).

(** *** The recursive readers

    [readTag], [readList] and [readCompound] call one another. Each is
    written over the [readTag] it calls; [readTag] then recurses on a fuel
    that bounds the nesting, and the loop of [readCompound] on a count of
    its own. The source recurses on the call stack of the engine and
    guards no depth: a document nested deeper than that stack allows
    ends in the RangeError of the engine. The model has no such limit
    (the fuel [parse] gives is always enough): it follows the source on
    the documents the call stack holds. *)
Section Recursive.

Variable readTag : Z -> reader value.

Definition readList_with : reader value :=
  itemType <- readUByte ;;
  length <- readInt ;;
  list <- times (Z.to_nat length) (readTag itemType) ;;
  ret (VArr list).

(** [while (true) { ... }] with [compound] built so far. *)
Fixpoint readCompound_loop (k : nat) (compound : props) : reader value :=
  match k with
  | O => fun _ _ => OutOfFuel
  | S k' =>
      tagType <- readUByte ;;
      if tagType =? TAG_END then ret (VObj compound) else
      name <- readString ;;
      value <- readTag tagType ;;
      readCompound_loop k' (obj_set compound name value)
  end.

Definition readTag_with (readCompound : reader value) (tagType : Z) : reader value :=
  if tagType =? TAG_END then ret VNull
  else if tagType =? TAG_BYTE then v <- readByte ;; ret (VInt v)
  else if tagType =? TAG_SHORT then v <- readShort ;; ret (VInt v)
  else if tagType =? TAG_INT then v <- readInt ;; ret (VInt v)
  else if tagType =? TAG_LONG then v <- readLong ;; ret (VBig v)
  else if tagType =? TAG_FLOAT then v <- readFloat ;; ret (VNum v)
  else if tagType =? TAG_DOUBLE then v <- readDouble ;; ret (VNum v)
  else if tagType =? TAG_BYTE_ARRAY then readByteArray
  else if tagType =? TAG_STRING then v <- readString ;; ret (VStr v)
  else if tagType =? TAG_LIST then readList_with
  else if tagType =? TAG_COMPOUND then readCompound
  else if tagType =? TAG_INT_ARRAY then readIntArray
  else if tagType =? TAG_LONG_ARRAY then readLongArray
  else throw (UnknownTagType tagType).

End Recursive.

Fixpoint readTag (fuel : nat) (tagType : Z) : reader value :=
  match fuel with
  | O => fun _ _ => OutOfFuel
  | S fuel' =>
      readTag_with (readTag fuel')
        (readCompound_loop (readTag fuel') fuel []) tagType
  end.

Definition readList (fuel : nat) : reader value := readList_with (readTag fuel).

Definition readCompound (fuel : nat) : reader value :=
  readCompound_loop (readTag fuel) (S fuel) [].

(** The object [parse] returns: [{ name: rootName, value: root }]. *)
Record document : Type := { name : jstring; value : JS.value }.

Definition parse_from (fuel : nat) : reader document :=
  rootType <- readUByte ;;
  if negb (rootType =? TAG_COMPOUND) then throw (BadRootType rootType) else
  rootName <- readString ;;
  root <- readCompound fuel ;;
  ret {| name := rootName; value := root |}.

(** [reader = new NBTReader(buffer); reader.parse()]: the cursor starts at
    0 and the buffer's length is fuel enough ([parse_total]). The result
    comes with [reader.offset], where the cursor stopped. *)
Definition parse_run (buffer : list byte) : result (document * nat) :=
  parse_from (List.length buffer) buffer 0%nat.

Definition parse (buffer : list byte) : result document :=
  match parse_run buffer with
  | Ok (doc, _) => Ok doc
  | Throw e => Throw e
  | OutOfFuel => OutOfFuel
  end.

(** A buffer written as numbers. *)
Definition bytes (l : list Z) : list byte := map byte.of_Z l.

End NBT.

(* ===================================================================== *)
(** ** The extractor *)

Module Extract.

(** *** Sequencing calls that may throw *)

Definition bind {A B} (m : result A) (f : A -> result B) : result B :=
  match m with
  | Ok a => f a
  | Throw e => Throw e
  | OutOfFuel => OutOfFuel
  end.

Notation "x <- m ;; k" := (bind m (fun x => k))
  (at level 61, m at next level, right associativity).

(** [a || b]: [b] is looked at only when [a] is falsy. *)
Definition orelse (a b : result value) : result value :=
  x <- a ;; if truthy x then Ok x else b.

Infix "|||" := orelse (at level 50, left associativity).

Fixpoint mapM {A B} (f : A -> result B) (l : list A) : result (list B) :=
  match l with
  | [] => Ok []
  | a :: rest => b <- f a ;; bs <- mapM f rest ;; Ok (b :: bs)
  end.

Fixpoint foldM {A S} (f : S -> A -> result S) (l : list A) (s : S) : result S :=
  match l with
  | [] => Ok s
  | a :: rest => s' <- f s a ;; foldM f rest s'
  end.

(** [array.find(pred)] *)
Fixpoint find (pred : value -> result bool) (l : list value) : result value :=
  match l with
  | [] => Ok VUndef
  | p :: rest => b <- pred p ;; if b then Ok p else find pred rest
  end.

(** *** Numbers and strings *)

(** What the engine is left to decide, or is too long to model here:
    StringToNumber; the Number an object converts to when its conversion
    to a primitive succeeds (the join of an array, [[object Object]]);
    the digits [toString(16)] prints for a Number that is not an integer
    (implementation-approximated in ECMAScript). The extractor is defined
    over any such engine. *)
Record runtime : Type := {
  string_to_number : jstring -> number;
  object_to_number : value -> number;
  fraction_to_hex : bool -> positive -> positive -> jstring
}.

(** Whether converting [v] to a primitive throws: an own property
    [toString] of a decoded object is never callable and hides the one of
    Object.prototype; joining an array converts its elements. *)
Fixpoint unprintable (v : value) : bool :=
  match v with
  | VObj o => existsb (fun kv => key_eqb (fst kv) (Name (js "toString"))) o
  | VArr l => existsb unprintable l
  | _ => false
  end.

(** [Number(z)] for a BigInt: the nearest double, ties to even. *)
Definition nearest_double (a : Z) : Z :=
  let k := Z.log2 a - 52 in
  if k <=? 0 then a
  else
    let q := Z.shiftr a k in
    let r := a mod 2 ^ k in
    let half := 2 ^ (k - 1) in
    (if (half <? r) || ((r =? half) && Z.odd q) then q + 1 else q) * 2 ^ k.

Definition number_of_bigint (z : Z) : number :=
  let a := nearest_double (Z.abs z) in
  if 2 ^ 1024 <=? a then NInf (z <? 0)
  else NInt (if z <? 0 then - a else a).

Definition ToUint32 (n : number) : Z :=
  match n with
  | NInt z => z mod 2 ^ 32
  | NFrac neg m e =>
      let t := Zpos m / 2 ^ Zpos e in
      (if neg then - t else t) mod 2 ^ 32
  | _ => 0
  end.

Definition hex_digit (d : Z) : Z := if d <? 10 then 48 + d else 87 + d.

Fixpoint hex_digits (fuel : nat) (n : Z) (acc : jstring) : jstring :=
  match fuel with
  | O => acc
  | S f =>
      let acc' := hex_digit (n mod 16) :: acc in
      if n <? 16 then acc' else hex_digits f (n / 16) acc'
  end.

(** [n.toString(16)] for an integer [n >= 0]. *)
Definition to_hex (n : Z) : jstring :=
  hex_digits (S (Z.to_nat (Z.log2 n))) n [].

Definition signed_hex (z : Z) : jstring :=
  if z <? 0 then js "-" ++ to_hex (- z) else to_hex z.

(** [s.padStart(n, c)] for a one-character [c]. *)
Definition padStart (n : nat) (c : Z) (s : jstring) : jstring :=
  repeat c (n - List.length s) ++ s.

(** [s.slice(a, b)] for [0 <= a <= b]. *)
Definition slice (a b : nat) (s : jstring) : jstring :=
  firstn (b - a) (skipn a s).

(** *** Set

    SameValueZero. Two objects are the same only when they are one
    object; the values compared here come from two block entities, that
    is from two places of the decoded tree, and the reader allocates each
    array and object afresh: they never are. *)
Definition number_eqb (a b : number) : bool :=
  match a, b with
  | NInt x, NInt y => x =? y
  | NInt 0, NNegZero | NNegZero, NInt 0 | NNegZero, NNegZero => true
  | NFrac s m e, NFrac s' m' e' => Bool.eqb s s' && (m =? m')%positive && (e =? e')%positive
  | NInf s, NInf s' => Bool.eqb s s'
  | NNaN, NNaN => true
  | _, _ => false
  end.

Definition same_value_zero (a b : value) : bool :=
  match a, b with
  | VUndef, VUndef | VNull, VNull => true
  | VNum x, VNum y => number_eqb x y
  | VBig x, VBig y => x =? y
  | VStr s, VStr t => str_eqb s t
  | _, _ => false
  end.

(** [seen.has(key)], [seen] listing what was added. *)
Definition has (seen : list value) (key : value) : bool :=
  existsb (same_value_zero key) seen.

Section WithRuntime.

Variable rt : runtime.

Definition ToNumber (v : value) : result number :=
  match v with
  | VUndef => Ok NNaN
  | VNull => Ok (NInt 0)
  | VNum n => Ok n
  | VBig _ => Throw TypeError
  | VStr s => Ok (string_to_number rt s)
  | _ => if unprintable v then Throw TypeError else Ok (object_to_number rt v)
  end.

(** [n.toString(16)] for a Number *)
Definition number_toString16 (n : number) : jstring :=
  match n with
  | NInt z => signed_hex z
  | NNegZero => js "0"
  | NFrac neg m e => fraction_to_hex rt neg m e
  | NInf neg => if neg then js "-Infinity" else js "Infinity"
  | NNaN => js "NaN"
  end.

(** The callback of [intArray.map] *)
Definition uuid_part (n : value) : result jstring :=
  let value := match n with VBig z => VNum (number_of_bigint z) | _ => n end in
  x <- ToNumber value ;;
  let unsigned := ToUint32 x in
  Ok (padStart 8 48 (to_hex unsigned)).

Definition intArrayToUUID (intArray : value) : result value :=
  match intArray with
  | VArr l =>
      if negb (List.length l =? 4)%nat then Ok VNull else
      parts <- mapM uuid_part l ;;
      let hex := List.concat parts in
      Ok (VStr (slice 0 8 hex ++ js "-" ++ slice 8 12 hex ++ js "-" ++
                slice 12 16 hex ++ js "-" ++ slice 16 20 hex ++ js "-" ++
                slice 20 32 hex))
  | _ => Ok VNull
  end.

(** *** Profiles *)

Record skin : Type := {
  name : value;
  customName : value;
  uuid : value;
  textureValue : value;
  textureSignature : value
}.

Definition prop (s : string) : key := key_of (js s).

(** The [if (id) { ... }] of [parseProfile]: the value [uuid] ends
    with. *)
Definition uuid_of (id : value) : result value :=
  if negb (truthy id) then Ok VNull
  else if is_array id then intArrayToUUID id
  else if is_object id then
    a <- get id (prop "0") ||| get id (Index 0) ;;
    b <- get id (prop "1") ||| get id (Index 1) ;;
    c <- get id (prop "2") ||| get id (Index 2) ;;
    d <- get id (prop "3") ||| get id (Index 3) ;;
    let idArray := [a; b; c; d] in
    if forallb (fun v => negb (is_undefined v)) idArray
    then intArrayToUUID (VArr idArray)
    else Ok VNull
  else match id with
       | VStr _ => Ok id
       | VBig z => Ok (VStr (signed_hex z))
       | VNum n => Ok (VStr (number_toString16 n))
       | _ => Ok VNull
       end.

(** The [if (properties) { ... }] of [parseProfile]: the values
    [textureValue] and [textureSignature] end with. *)
Definition textures_of (properties : value) : result (value * value) :=
  if negb (truthy properties) then Ok (VNull, VNull)
  else match properties with
  | VArr l =>
      textureProperty <-
        find (fun p =>
                n <- get p (prop "name") ;;
                if is_str n (js "textures") then Ok true else
                n' <- get p (prop "Name") ;;
                Ok (is_str n' (js "textures"))) l ;;
      if truthy textureProperty then
        v <- get textureProperty (prop "Value") ||| get textureProperty (prop "value") ;;
        s <- get textureProperty (prop "Signature") ||| get textureProperty (prop "signature") ;;
        Ok (v, s)
      else Ok (VNull, VNull)
  | _ =>
      textures <- get properties (prop "textures") |||
                  get properties (prop "Textures") ||| Ok (VArr []) ;;
      match textures with
      | VArr (texture :: _) =>
          v <- get texture (prop "Value") ||| get texture (prop "value") ;;
          s <- get texture (prop "Signature") ||| get texture (prop "signature") ;;
          Ok (v, s)
      | _ => Ok (VNull, VNull)
      end
  end.

(** [null] is [None]. *)
Definition parseProfile (profile customName : value) : result (option skin) :=
  if is_string profile then
    Ok (Some {| name := profile; customName := customName; uuid := VNull;
                textureValue := VNull; textureSignature := VNull |})
  else
    name <- get profile (prop "Name") ||| get profile (prop "name") ||| Ok VNull ;;
    id <- get profile (prop "Id") ||| get profile (prop "id") |||
          get profile (prop "UUID") ||| get profile (prop "uuid") ;;
    uuid <- uuid_of id ;;
    properties <- get profile (prop "Properties") ||| get profile (prop "properties") ;;
    texture <- textures_of properties ;;
    let '(textureValue, textureSignature) := texture in
    if negb (truthy name) && negb (truthy uuid) && negb (truthy textureValue)
    then Ok None
    else Ok (Some {| name := name; customName := customName; uuid := uuid;
                     textureValue := textureValue;
                     textureSignature := textureSignature |}).

Definition extractSkinFromEntity (entity : value) : result (option skin) :=
  id <- get entity (prop "id") ||| get entity (prop "Id") ||| Ok (VStr []) ;;
  profile <- get entity (prop "profile") ||| get entity (prop "SkullOwner") |||
             get entity (prop "Owner") ;;
  if negb (truthy profile) then Ok None else
  customName <- get entity (prop "custom_name") ||| get entity (prop "CustomName") |||
                Ok VNull ;;
  parseProfile profile customName.

(** *** The walk *)

(** [skins] and [seenTextures] *)
Record state : Type := {
  skins : list skin;
  seenTextures : list value
}.

(** [a || b] on values at hand *)
Definition or_value (a b : value) : value := if truthy a then a else b.

Definition dedup_key (skinData : skin) : value :=
  or_value (or_value (textureValue skinData) (uuid skinData)) (name skinData).

(** The body of [for (const entity of blockEntities)] *)
Definition visit_entity (st : state) (entity : value) : result state :=
  skinData <- extractSkinFromEntity entity ;;
  match skinData with
  | None => Ok st
  | Some skinData =>
      let key := dedup_key skinData in
      if truthy key && negb (has (seenTextures st) key)
      then Ok {| skins := skins st ++ [skinData];
                 seenTextures := seenTextures st ++ [key] |}
      else Ok st
  end.

(** The body of [for (const regionName in regions)]. The two
    [console.log] calls are left out: they read [blockEntities.length]
    and print, which changes no outcome. *)
Definition visit_region (regions : value) (st : state) (regionName : key)
  : result state :=
  region <- get regions regionName ;;
  blockEntities <- get region (prop "BlockEntities") |||
                   get region (prop "TileEntities") ||| Ok (VArr []) ;;
  entities <- for_of blockEntities ;;
  foldM visit_entity entities st.

Definition extractSkinsFromNBT (nbtData : NBT.document) : result (list skin) :=
  let root := NBT.value nbtData in
  regions <- get root (prop "Regions") ||| get root (prop "regions") |||
             Ok (VObj []) ;;
  st <- foldM (visit_region regions) (for_in regions)
              {| skins := []; seenTextures := [] |} ;;
  Ok (skins st).

End WithRuntime.

End Extract.

(* ===================================================================== *)
(** ** What the specification compares the code with *)

Module Spec.

(** Two's complement reading of a [w]-bit pattern [u]. *)
Definition twos_complement (w u : Z) : Z :=
  if u <? 2 ^ (w - 1) then u else u - 2 ^ w.

(** *** UUIDs, in the specification's words *)

(** The lowercase hexadecimal digit of [d]. *)
Definition hex_char (d : Z) : Z := nth (Z.to_nat d) (js "0123456789abcdef") 0.

(** [u] in [k] lowercase hexadecimal digits. *)
Fixpoint hex_fixed (k : nat) (u : Z) : jstring :=
  match k with
  | O => []
  | S k' => hex_fixed k' (u / 16) ++ [hex_char (u mod 16)]
  end.

(** The unsigned 32-bit representation of a signed integer. *)
Definition unsigned32 (z : Z) : Z := z mod 2 ^ 32.

(** The 8-4-4-4-12 grouping of 32 digits. *)
Definition hyphenate (hex : jstring) : jstring :=
  firstn 8 hex ++ js "-" ++ firstn 4 (skipn 8 hex) ++ js "-" ++
  firstn 4 (skipn 12 hex) ++ js "-" ++ firstn 4 (skipn 16 hex) ++ js "-" ++
  firstn 12 (skipn 20 hex).

Definition canonical_uuid (a b c d : Z) : jstring :=
  hyphenate (hex_fixed 8 (unsigned32 a) ++ hex_fixed 8 (unsigned32 b) ++
             hex_fixed 8 (unsigned32 c) ++ hex_fixed 8 (unsigned32 d)).

(** The compound keyed "0".."3" a decoder builds from four members. *)
Definition keyed_uuid (a b c d : value) : value :=
  VObj (obj_set (obj_set (obj_set (obj_set [] (js "0") a) (js "1") b) (js "2") c)
          (js "3") d).

(** *** Tag trees and the reference encoder

    The repository only decodes. The tree type and the encoder below
    follow sections 3 and 4.2 of the specification. *)

(** Modelled from the spec: the tag value of the data model, "a
    discriminated union" with one variant per tag kind. Integers are kept
    as integers, floats as their IEEE bit patterns, strings as sequences
    of code points; a list keeps its declared element type. *)
Inductive tag : Type :=
| TEnd
| TByte (z : Z)
| TShort (z : Z)
| TInt (z : Z)
| TLong (z : Z)
| TFloat (bits : Z)
| TDouble (bits : Z)
| TByteArray (l : list Z)
| TString (s : list Z)
| TList (elt : Z) (l : list tag)
| TCompound (l : list (list Z * tag))
| TIntArray (l : list Z)
| TLongArray (l : list Z).

Definition tag_type (t : tag) : Z :=
  match t with
  | TEnd => 0 | TByte _ => 1 | TShort _ => 2 | TInt _ => 3 | TLong _ => 4
  | TFloat _ => 5 | TDouble _ => 6 | TByteArray _ => 7 | TString _ => 8
  | TList _ _ => 9 | TCompound _ => 10 | TIntArray _ => 11 | TLongArray _ => 12
  end.

(** The [n] low bytes of [z], most significant first. *)
Fixpoint big_endian (n : nat) (z : Z) : list byte :=
  match n with
  | O => []
  | S n' => big_endian n' (z / 256) ++ [byte.of_Z z]
  end.

(** UTF-8 of one code point. *)
Definition utf8_cp (c : Z) : list Z :=
  if c <? 0x80 then [c]
  else if c <? 0x800 then [0xC0 + c / 64; 0x80 + c mod 64]
  else if c <? 0x10000 then [0xE0 + c / 4096; 0x80 + (c / 64) mod 64; 0x80 + c mod 64]
  else [0xF0 + c / 262144; 0x80 + (c / 4096) mod 64; 0x80 + (c / 64) mod 64;
        0x80 + c mod 64].

Definition utf8 (s : list Z) : list byte := map byte.of_Z (flat_map utf8_cp s).

(** Modelled from the spec: "a 16-bit unsigned length prefix, then that
    many bytes", UTF-8. *)
Definition encode_string (s : list Z) : list byte :=
  big_endian 2 (Z.of_nat (List.length (utf8 s))) ++ utf8 s.

(** Modelled from the spec: the payload of a tag, case by case as
    section 4.2 reads it back. *)
Fixpoint encode_payload (t : tag) : list byte :=
  match t with
  | TEnd => []
  | TByte z => big_endian 1 z
  | TShort z => big_endian 2 z
  | TInt z => big_endian 4 z
  | TLong z => big_endian 8 z
  | TFloat bits => big_endian 4 bits
  | TDouble bits => big_endian 8 bits
  | TByteArray l => big_endian 4 (Z.of_nat (List.length l)) ++ flat_map (big_endian 1) l
  | TString s => encode_string s
  | TList elt l =>
      big_endian 1 elt ++ big_endian 4 (Z.of_nat (List.length l)) ++
      flat_map encode_payload l
  | TCompound l =>
      flat_map (fun m => big_endian 1 (tag_type (snd m)) ++ encode_string (fst m) ++
                         encode_payload (snd m)) l ++
      big_endian 1 0
  | TIntArray l => big_endian 4 (Z.of_nat (List.length l)) ++ flat_map (big_endian 4) l
  | TLongArray l => big_endian 4 (Z.of_nat (List.length l)) ++ flat_map (big_endian 8) l
  end.

(** Modelled from the spec: the root, "one unsigned-byte discriminant
    (must equal compound), a string (root name), then one compound
    payload". *)
Definition encode (rootName : list Z) (members : list (list Z * tag)) : list byte :=
  big_endian 1 10 ++ encode_string rootName ++ encode_payload (TCompound members).

(** The JavaScript value a tree stands for: Numbers for the integers up
    to 32 bits and for the floats, BigInt for the 64-bit integers, typed
    arrays for byte and int arrays, Arrays for lists and long arrays, a
    plain object with the members in order for a compound. *)
Fixpoint js_of_tag (t : tag) : value :=
  match t with
  | TEnd => VNull
  | TByte z | TShort z | TInt z => VInt z
  | TLong z => VBig z
  | TFloat bits => VNum (float32 bits)
  | TDouble bits => VNum (float64 bits)
  | TByteArray l => VI8 l
  | TString s => VStr (flat_map Utf8.units s)
  | TList _ l => VArr (map js_of_tag l)
  | TCompound l => VObj (map (fun m => (key_of (flat_map Utf8.units (fst m)),
                                        js_of_tag (snd m))) l)
  | TIntArray l => VI32 l
  | TLongArray l => VArr (map VBig l)
  end.

(** The object the loop of [readCompound] builds from members, starting
    from [compound]. *)
Definition assemble (compound : props) (l : list (list Z * tag)) : props :=
  fold_left (fun o m => obj_set o (flat_map Utf8.units (fst m)) (js_of_tag (snd m)))
    l compound.

(** The value last written under the key [k] by a sequence of members,
    if any. *)
Definition last_write (l : list (list Z * tag)) (k : key) : option value :=
  fold_left (fun acc m => if key_eqb k (key_of (flat_map Utf8.units (fst m)))
                          then Some (js_of_tag (snd m)) else acc) l None.

Definition in_range (lo hi z : Z) : bool := (lo <=? z) && (z <? hi).

(** A Unicode scalar value. *)
Definition scalar (c : Z) : bool := in_range 0 0xD800 c || in_range 0xE000 0x110000 c.

(** A string the decoder reads back: scalar values, at most 32767 bytes
    of UTF-8, no byte order mark in front. *)
Definition readable_string (s : list Z) : bool :=
  forallb scalar s && (Z.of_nat (List.length (utf8 s)) <=? 32767) &&
  negb (match s with c :: _ => c =? 0xFEFF | [] => false end).

(** A member name the decoder keeps: readable, not [__proto__]. *)
Definition member_name (s : list Z) : bool :=
  readable_string s && negb (str_eqb (flat_map Utf8.units s) (js "__proto__")).

(** Whether a plain object that holds the keys [k] and [k'], [k] written
    first, enumerates [k] first: array indices come in ascending order
    and before every name, names in the order they were written; a key
    is held once. *)
Definition precedes (k k' : key) : bool :=
  match k, k' with
  | Index i, Index j => (i <? j)%N
  | Index _, Name _ => true
  | Name _, Index _ => false
  | Name s, Name t => negb (str_eqb s t)
  end.

(** Keys in an order in which a plain object enumerates them when they
    are written in that order: the array indices first and ascending,
    then the names, no key twice. *)
Fixpoint enumerated (ks : list key) : bool :=
  match ks with
  | [] => true
  | k :: rest => forallb (precedes k) rest && enumerated rest
  end.

(** The trees of the data model the amended round trip is about: every
    scalar in the range of its width, lengths below 2^31, the items of a
    list of the declared element type, the members of a compound none an
    end tag and under names other than [__proto__], in an order a plain
    object keeps (members named by array indices first and ascending, no
    name twice), every string readable. *)
Fixpoint well_formed (t : tag) : bool :=
  match t with
  | TEnd => true
  | TByte z => in_range (-128) 128 z
  | TShort z => in_range (-32768) 32768 z
  | TInt z => in_range (- 2 ^ 31) (2 ^ 31) z
  | TLong z => in_range (- 2 ^ 63) (2 ^ 63) z
  | TFloat bits => in_range 0 (2 ^ 32) bits
  | TDouble bits => in_range 0 (2 ^ 64) bits
  | TByteArray l =>
      (Z.of_nat (List.length l) <? 2 ^ 31) && forallb (in_range (-128) 128) l
  | TString s => readable_string s
  | TList elt l =>
      in_range 0 256 elt && (Z.of_nat (List.length l) <? 2 ^ 31) &&
      forallb (fun x => (tag_type x =? elt) && well_formed x) l
  | TCompound l =>
      enumerated (map (fun m => key_of (flat_map Utf8.units (fst m))) l) &&
      forallb (fun m => member_name (fst m) && negb (tag_type (snd m) =? 0) &&
                        well_formed (snd m)) l
  | TIntArray l =>
      (Z.of_nat (List.length l) <? 2 ^ 31) && forallb (in_range (- 2 ^ 31) (2 ^ 31)) l
  | TLongArray l =>
      (Z.of_nat (List.length l) <? 2 ^ 31) && forallb (in_range (- 2 ^ 63) (2 ^ 63)) l
  end.

(** Members the decoder reads back one by one: a readable name, a value
    that is well formed and not an end tag. Names may repeat and may be
    array indices. *)
Definition readable_members (l : list (list Z * tag)) : bool :=
  forallb (fun m => readable_string (fst m) && negb (tag_type (snd m) =? 0) &&
                    well_formed (snd m)) l.

(** A tag read to a JavaScript primitive: a Number, a BigInt or a
    String. *)
Definition primitive (t : tag) : bool :=
  match t with
  | TByte _ | TShort _ | TInt _ | TLong _ | TFloat _ | TDouble _ | TString _ => true
  | _ => false
  end.

(** Members that leave the object its prototype: one named [__proto__]
    holds a primitive, which the setter inherited from Object.prototype
    ignores (an array, a typed array or a compound would become the
    prototype of the object). *)
Definition keeps_prototype (l : list (list Z * tag)) : bool :=
  forallb (fun m => negb (str_eqb (flat_map Utf8.units (fst m)) (js "__proto__")) ||
                    primitive (snd m)) l.

(** Fuel enough to read a tree back. *)
Fixpoint weight (t : tag) : nat :=
  match t with
  | TList _ l => S (list_sum (map weight l))
  | TCompound l => S (List.length l + list_sum (map (fun m => weight (snd m)) l))
  | _ => 1
  end.

(** *** Block entities *)

(** The value of [o.k] for a plain object with the own properties [o]. *)
Definition own (o : props) (k : key) : value :=
  match lookup o k with Some x => x | None => VUndef end.

(** Two objects with the same keys in the same order, bound to the same
    values except, possibly, under the keys [ks]. *)
Definition differ_only_at (ks : list key) (o o' : props) : Prop :=
  Forall2 (fun e e' => fst e = fst e' /\ (In (fst e) ks \/ snd e = snd e')) o o'.

Definition block_id_keys : list key := [Extract.prop "id"; Extract.prop "Id"].

(** Two block entities that are the same, or compounds that differ only
    under [id] and [Id]. *)
Definition same_but_id (e e' : value) : Prop :=
  e = e' \/
  exists o o', e = VObj o /\ e' = VObj o' /\ differ_only_at block_id_keys o o'.

(** The document of a schematic: named regions, each with the list of
    its block entities under [BlockEntities]. The regions are listed as
    the object enumerates them: the list stands for an object when its
    keys are [enumerated], the array indices first and ascending and no
    key twice (as the one-region lists are). *)
Definition schematic (rootName : jstring) (regions : list (key * list value))
  : NBT.document :=
  {| NBT.name := rootName;
     NBT.value :=
       VObj [(Extract.prop "Regions",
              VObj (map (fun r => (fst r, VObj [(Extract.prop "BlockEntities",
                                                 VArr (snd r))])) regions))] |}.

(** *** The walk in two passes: collect, then deduplicate *)

(** The profiles in a list of results, the absent ones dropped. *)
Definition somes {A} (l : list (option A)) : list A :=
  flat_map (fun o => match o with Some a => [a] | None => [] end) l.

(** The block entities of the region under the key [k]. *)
Definition region_entities (regions : value) (k : key) : result (list value) :=
  Extract.bind (get regions k) (fun region =>
  Extract.bind (Extract.orelse (Extract.orelse (get region (Extract.prop "BlockEntities"))
                                  (get region (Extract.prop "TileEntities")))
                  (Ok (VArr []))) for_of).

(** The block entities of a document: region by region, in the order the
    regions are enumerated, and in list order inside a region. *)
Definition block_entities (nbtData : NBT.document) : result (list value) :=
  Extract.bind
    (Extract.orelse (Extract.orelse (get (NBT.value nbtData) (Extract.prop "Regions"))
                       (get (NBT.value nbtData) (Extract.prop "regions")))
       (Ok (VObj [])))
    (fun regions =>
       Extract.bind (Extract.mapM (region_entities regions) (for_in regions))
         (fun ls => Ok (List.concat ls))).

(** The profile of every block entity that has one, in that order. *)
Definition candidates (rt : Extract.runtime) (nbtData : NBT.document)
  : result (list Extract.skin) :=
  Extract.bind (block_entities nbtData) (fun es =>
  Extract.bind (Extract.mapM (Extract.extractSkinFromEntity rt) es) (fun ps =>
  Ok (somes ps))).

(** Whether a profile of [kept] has the deduplication key of [c]. *)
Definition key_kept (kept : list Extract.skin) (c : Extract.skin) : bool :=
  existsb (fun r => Extract.same_value_zero (Extract.dedup_key c) (Extract.dedup_key r))
    kept.

(** Deduplication as the specification states it: the candidates are
    taken in order, and one is appended to those kept when it has a key
    and none of those kept has it. *)
Fixpoint dedup_from (kept l : list Extract.skin) : list Extract.skin :=
  match l with
  | [] => kept
  | c :: rest =>
      if truthy (Extract.dedup_key c) && negb (key_kept kept c)
      then dedup_from (kept ++ [c]) rest
      else dedup_from kept rest
  end.

Definition dedup : list Extract.skin -> list Extract.skin := dedup_from [].

(** No two profiles of [l] have the same key. *)
Definition distinct_keys (l : list Extract.skin) : Prop :=
  ForallOrdPairs (fun x y => Extract.same_value_zero (Extract.dedup_key x)
                               (Extract.dedup_key y) = false) l.

(** The set lists the keys of the skins collected so far. *)
Definition consistent (st : Extract.state) : Prop :=
  Extract.seenTextures st = map Extract.dedup_key (Extract.skins st).

(** A head whose profile has a name and one [textures] property. *)
Definition head (name texture : string) : value :=
  VObj [(Extract.prop "profile",
         VObj [(Extract.prop "name", VStr (js name));
               (Extract.prop "properties",
                VArr [VObj [(Extract.prop "name", VStr (js "textures"));
                            (Extract.prop "value", VStr (js texture))]])])].

(** *** Trees the extraction returns on *)







(** The bytes of an ASCII literal. *)
Definition ascii (s : string) : list Z := js s.

(** A document whose one region has the number 1 for [BlockEntities]. *)
Definition mistyped_block_entities : list byte :=
  NBT.bytes ([10; 0; 0] ++
             [10; 0; 7] ++ ascii "Regions" ++
             [10; 0; 1] ++ ascii "r" ++
             [3; 0; 13] ++ ascii "BlockEntities" ++ [0; 0; 0; 1] ++
             [0] ++ [0] ++ [0]).

(** A document whose [Regions] is a list of one end tag. *)
Definition null_region : list byte :=
  NBT.bytes ([10; 0; 0] ++
             [9; 0; 7] ++ ascii "Regions" ++ [0; 0; 0; 0; 1] ++
             [0]).

(** A document whose root has the member [key] twice, the byte 1 then the
    byte 2. *)
Definition duplicate_member (key : string) : list byte :=
  NBT.bytes ([10; 0; 0] ++
             [1; 0; Z.of_nat (String.length key)] ++ ascii key ++ [1] ++
             [1; 0; Z.of_nat (String.length key)] ++ ascii key ++ [2] ++
             [0]).

(** An engine to evaluate examples with; no example reaches its three
    functions. *)
Definition example_runtime : Extract.runtime :=
  {| Extract.string_to_number := fun _ => NNaN;
     Extract.object_to_number := fun _ => NNaN;
     Extract.fraction_to_hex := fun _ _ _ => [] |}.

(** *** Properties of a reader *)

(** A reader that takes [n] bytes at the cursor or throws. *)
Definition fixed {A} (n : nat) (conv : list byte -> A) : NBT.reader A :=
  fun buf off =>
    match NBT.slice buf off n with
    | Some bs => Ok (conv bs, (off + n)%nat)
    | None => Throw RangeError
    end.

(** Two buffers with the same first [n] bytes. *)
Definition agree (n : nat) (buf buf' : list byte) : Prop :=
  firstn n buf = firstn n buf'.

(** A reader moves the cursor forward, stays inside the buffer when it
    moves, and looks at no byte past the cursor it ends with. *)
Definition sound {A} (m : NBT.reader A) : Prop :=
  forall buf off a off',
    m buf off = Ok (a, off') ->
    (off <= off')%nat /\
    (off < off' -> off' <= List.length buf)%nat /\
    (forall buf', agree off' buf buf' -> m buf' off = Ok (a, off')).

(** Wherever the bytes [bs] stand in a buffer, [m] started in front of
    them returns [a] and stops right after them. *)
Definition reads {A} (m : NBT.reader A) (bs : list byte) (a : A) : Prop :=
  forall pre rest,
    m (pre ++ bs ++ rest) (List.length pre) = Ok (a, (List.length pre + List.length bs)%nat).

(** [m'] does what [m] does wherever [m] has fuel enough. *)
Definition refines {A} (m m' : NBT.reader A) : Prop :=
  forall buf off, m buf off <> OutOfFuel -> m' buf off = m buf off.

(** [m] has fuel enough when at most [n] bytes are left. *)
Definition total_within {A} (n : nat) (m : NBT.reader A) : Prop :=
  forall buf off, (List.length buf - off <= n)%nat -> m buf off <> OutOfFuel.

End Spec.

(* ===================================================================== *)
(** ** The String methods the page calls *)

Module Str.

(** [s.startsWith(p)]; also whether the regular expression [/^p/] matches
    [s], for a pattern [p] of literal characters. *)
Fixpoint starts_with (p s : jstring) : bool :=
  match p, s with
  | [], _ => true
  | a :: p', b :: s' => (a =? b) && starts_with p' s'
  | _ :: _, [] => false
  end.

(** [s.replace(/^p/, r)] for a literal [p] and an [r] without [$]. *)
Definition replace_prefix (p r s : jstring) : jstring :=
  if starts_with p s then r ++ skipn (List.length p) s else s.

(** [s.split(sep)] for a separator of one code unit: the pieces between
    the separators, the empty ones too, so at least one piece. *)
Fixpoint split (sep : Z) (s : jstring) : list jstring :=
  match s with
  | [] => [[]]
  | c :: rest =>
      if c =? sep then [] :: split sep rest
      else match split sep rest with
           | piece :: pieces => (c :: piece) :: pieces
           | [] => [[c]]
           end
  end.

(** [array.pop()]: the last element, [undefined] ([None]) when there is
    none. *)
Fixpoint pop {A} (l : list A) : option A :=
  match l with
  | [] => None
  | [x] => Some x
  | _ :: rest => pop rest
  end.

(** WhiteSpace and LineTerminator of ECMAScript, what [trim] strips. *)
Definition is_white (c : Z) : bool :=
  existsb (Z.eqb c)
    [0x09; 0x0A; 0x0B; 0x0C; 0x0D; 0x20; 0xA0; 0x1680; 0x2028; 0x2029; 0x202F;
     0x205F; 0x3000; 0xFEFF]
  || ((0x2000 <=? c) && (c <=? 0x200A)).

Fixpoint trimStart (s : jstring) : jstring :=
  match s with
  | c :: rest => if is_white c then trimStart rest else s
  | [] => []
  end.

(** [s.trim()] *)
Definition trim (s : jstring) : jstring := rev (trimStart (rev (trimStart s))).

Fixpoint dec_digits (fuel : nat) (n : Z) (acc : jstring) : jstring :=
  match fuel with
  | O => acc
  | S f =>
      let acc' := (48 + n mod 10) :: acc in
      if n <? 10 then acc' else dec_digits f (n / 10) acc'
  end.

(** [String(n)] for an integer [0 <= n < 10^21]. *)
Definition to_decimal (n : Z) : jstring :=
  dec_digits (S (Z.to_nat (Z.log2 n))) n [].

End Str.

(* ===================================================================== *)
(** ** Texture URLs: skin-extractor.js, and decodeTextureValue *)

Module Urls.
Import Str.

(** What the functions call of the browser: [atob], which first converts
    its argument to a string, and [JSON.parse]. [None] stands for a thrown
    exception, whichever it is: each call stands in a [try] whose [catch]
    logs the exception and drops it. The functions are defined over any
    browser. A JSON text can hold [true] and [false], which the values
    of the reader do not have: they stand as the Numbers 1 and 0, which
    the functions below cannot tell from them (they test whether a value
    is truthy, read properties and call string methods, and a boolean
    and that Number do the same in all three). *)
Record browser : Type := {
  atob : value -> option jstring;
  JSON_parse : jstring -> option value
}.

(** Statements of a [try] block in sequence; [None] leaves the block for
    its [catch]. *)
Definition bind {A B} (m : option A) (f : A -> option B) : option B :=
  match m with
  | Some a => f a
  | None => None
  end.

Notation "x <- m ;; k" := (bind m (fun x => k))
  (at level 61, m at next level, right associativity).

(** [v.name] inside a [try] *)
Definition property (v : value) (name : string) : option value :=
  match get v (Extract.prop name) with
  | Ok x => Some x
  | _ => None
  end.

(** [a && b]: [b] is looked at only when [a] is truthy. *)
Definition andalso (a b : option value) : option value :=
  x <- a ;; if truthy x then b else Some x.

(** [v.split('/')]: only a string has the method; calling what another
    value has under that name throws. *)
Definition split_slash (v : value) : option (list jstring) :=
  match v with
  | VStr s => Some (split 47 s)
  | _ => None
  end.

(** [v.replace(/^http:\/\//, 'https://')], likewise. *)
Definition replace_http (v : value) : option jstring :=
  match v with
  | VStr s => Some (replace_prefix (js "http://") (js "https://") s)
  | _ => None
  end.

(** A piece of text in double quotes. *)
Definition quoted (s : string) : jstring := [34] ++ js s ++ [34].

(** The fallback of [getSkinImageUrl], a question mark on a dark square. *)
Definition placeholder : jstring :=
  js "data:image/svg+xml,<svg xmlns=" ++ quoted "http://www.w3.org/2000/svg" ++
  js " viewBox=" ++ quoted "0 0 64 64" ++ js "><rect fill=" ++ quoted "%231a1a2e" ++
  js " width=" ++ quoted "64" ++ js " height=" ++ quoted "64" ++
  js "/><text x=" ++ quoted "32" ++ js " y=" ++ quoted "36" ++
  js " text-anchor=" ++ quoted "middle" ++ js " fill=" ++ quoted "%2394a3b8" ++
  js " font-size=" ++ quoted "16" ++ js ">?</text></svg>".

Section WithBrowser.

Variable br : browser.

(** [null] when the value is falsy or does not decode. The warning
    [console.warn] prints is left out. *)
Definition decodeTextureValue (textureValue : value) : value :=
  if negb (truthy textureValue) then VNull
  else
    match (decoded <- atob br textureValue ;; JSON_parse br decoded) with
    | Some data => data
    | None => VNull
    end.

(** The [try] block of [getSkinImageUrl]: [Some (Some url)] when it
    returns [url], [Some None] when it ends without a [return], [None]
    when it throws. *)
Definition image_try (textureValue : value) : option (option jstring) :=
  decoded <- atob br textureValue ;;
  textureData <- JSON_parse br decoded ;;
  found <- andalso (property textureData "textures")
                   (textures <- property textureData "textures" ;;
                    property textures "SKIN") ;;
  if truthy found then
    textures <- property textureData "textures" ;;
    SKIN <- property textures "SKIN" ;;
    skinUrl <- property SKIN "url" ;;
    pieces <- split_slash skinUrl ;;
    let textureId := match pop pieces with
                     | Some piece => piece
                     | None => js "undefined"
                     end in
    Some (Some (js "https://mc-heads.net/head/" ++ textureId ++ js "/64"))
  else Some None.

Definition getSkinImageUrl (skin : Extract.skin) : jstring :=
  if truthy (Extract.textureValue skin) then
    match image_try (Extract.textureValue skin) with
    | Some (Some url) => url
    | _ => placeholder
    end
  else placeholder.

(** The [try] block of [getSkinDownloadUrl], read as [image_try]. *)
Definition download_try (textureValue : value) : option (option jstring) :=
  decoded <- atob br textureValue ;;
  textureData <- JSON_parse br decoded ;;
  found <- andalso (property textureData "textures")
                   (textures <- property textureData "textures" ;;
                    property textures "SKIN") ;;
  if truthy found then
    textures <- property textureData "textures" ;;
    SKIN <- property textures "SKIN" ;;
    url <- property SKIN "url" ;;
    skinUrl <- replace_http url ;;
    Some (Some skinUrl)
  else Some None.

Definition getSkinDownloadUrl (skin : Extract.skin) : jstring :=
  if truthy (Extract.textureValue skin) then
    match download_try (Extract.textureValue skin) with
    | Some (Some url) => url
    | _ => js "#"
    end
  else js "#".

End WithBrowser.

End Urls.

(* ===================================================================== *)
(** ** The page: getDisplayName of main.js *)

Module Main.
Import Str Extract.

(** [typeof v === 'string' && v.trim() !== ''] *)
Definition is_text (v : value) : bool :=
  match v with
  | VStr s => negb (str_eqb (trim s) [])
  | _ => false
  end.

(** The string a value that [is_text] is. *)
Definition text_of (v : value) : jstring :=
  match v with VStr s => s | _ => [] end.

(** [index] is the position [forEach] passes, counted from 0. The three
    [if]s fall through to one another, so each is written over what
    follows it. *)
Definition getDisplayName (skin : Extract.skin) (index : N) : result jstring :=
  let customName := Extract.customName skin in
  let name := Extract.name skin in
  let numbered := Ok (js "Skin " ++ to_decimal (Z.of_N index + 1)) in
  let by_name := if is_text name then Ok (text_of name) else numbered in
  if truthy customName then
    let by_string := if is_text customName then Ok (text_of customName) else by_name in
    if is_object customName then
      text <- get customName (prop "text") ;;
      if is_text text then Ok (text_of text) else by_string
    else by_string
  else by_name.

End Main.

(* ===================================================================== *)
(** ** From a file to its skins: parseLitematic and extractSkinsFromLitematic *)

Module Litematic.

(** [pako.inflate], the gzip decompressor the page loads: the bytes of
    the buffer of the array it returns, [None] when it throws. The two
    functions are defined over any decompressor. *)
Definition inflater : Type := list byte -> option (list byte).

(** What a call ends with: [None] is the error [parseLitematic] throws
    when the decompressor does, [Failed to decompress litematic file];
    [Some r] is what the reader and the extractor end with. *)
Definition outcome (A : Type) : Type := option (result A).

Section WithPako.

Variable inflate : inflater.

Definition parseLitematic (arrayBuffer : list byte) : outcome NBT.document :=
  match inflate arrayBuffer with
  | Some decompressed => Some (NBT.parse decompressed)
  | None => None
  end.

(** The promise [extractSkinsFromLitematic] returns: fulfilled with the
    skins, or rejected with what was thrown, which the [catch] logs and
    throws again. The lines the function logs are left out: they read
    [nbtData.name] and, through [?.], four fields of
    [nbtData.value.Metadata], which throws on no document. *)
Definition extractSkinsFromLitematic (rt : Extract.runtime) (arrayBuffer : list byte)
  : outcome (list Extract.skin) :=
  match parseLitematic arrayBuffer with
  | Some nbtData => Some (Extract.bind nbtData (Extract.extractSkinsFromNBT rt))
  | None => None
  end.

End WithPako.

End Litematic.

(* ===================================================================== *)
(** ** Vocabulary of the further properties *)

Module Props.

(** What a reader gives: every value it returns satisfies [Q], every
    error it throws satisfies [E]. *)
Definition triple {A} (m : NBT.reader A) (Q : A -> Prop) (E : error -> Prop) : Prop :=
  forall buf off,
    match m buf off with
    | Ok (a, _) => Q a
    | Throw e => E e
    | OutOfFuel => True
    end.

(** The errors of the reader below the root: a bound of the buffer or of
    a typed array passed, or a tag type that is no tag type. *)
Definition reader_error (e : error) : Prop :=
  e = RangeError \/ exists t, e = UnknownTagType t /\ 12 < t <= 255.

(** The errors of [parse]: those, and a root that is no compound. *)
Definition parse_error (e : error) : Prop :=
  reader_error e \/ exists t, e = BadRootType t /\ 0 <= t <= 255 /\ t <> 10.

(** Two values of one JavaScript kind. *)
Definition same_kind (a b : value) : bool :=
  match a, b with
  | VUndef, VUndef | VNull, VNull | VNum _, VNum _ | VBig _, VBig _
  | VStr _, VStr _ | VArr _, VArr _ | VI8 _, VI8 _ | VI32 _, VI32 _
  | VObj _, VObj _ => true
  | _, _ => false
  end.

Definition is_null (v : value) : bool :=
  match v with VNull => true | _ => false end.

(** A tree as the reader builds them: no [undefined]; every item of an
    array of the kind of the first; no member of an object [null]; every
    BigInt a signed 64-bit integer; every item of an Int8Array and of an
    Int32Array in the range of its width. *)
Fixpoint shaped (v : value) : bool :=
  match v with
  | VUndef => false
  | VBig z => Spec.in_range (- 2 ^ 63) (2 ^ 63) z
  | VI8 l => forallb (Spec.in_range (-128) 128) l
  | VI32 l => forallb (Spec.in_range (- 2 ^ 31) (2 ^ 31)) l
  | VArr l =>
      match l with
      | [] => true
      | x :: rest => forallb (same_kind x) rest
      end && forallb shaped l
  | VObj o => forallb (fun kv => negb (is_null (snd kv)) && shaped (snd kv)) o
  | _ => true
  end.

(** The JavaScript kind of the value a tag type is read to. *)
Definition tag_kind (t : Z) (v : value) : bool :=
  match v with
  | VUndef => false
  | VNull => t =? 0
  | VNum _ => existsb (Z.eqb t) [1; 2; 3; 5; 6]
  | VBig _ => t =? 4
  | VI8 _ => t =? 7
  | VStr _ => t =? 8
  | VArr _ => (t =? 9) || (t =? 12)
  | VObj _ => t =? 10
  | VI32 _ => t =? 11
  end.

(** The declared length at the cursor: the signed reading of four bytes,
    when the buffer has them. *)
Definition declared (buf : list byte) (off : nat) : option Z :=
  option_map NBT.signed_be (NBT.slice buf off 4).

(** A lowercase hexadecimal digit. *)
Definition is_hex (c : Z) : bool :=
  ((48 <=? c) && (c <=? 57)) || ((97 <=? c) && (c <=? 102)).

(** The 8-4-4-4-12 shape: five groups of lowercase hexadecimal digits
    between hyphens. *)
Definition uuid_shaped (s : jstring) : bool :=
  match Str.split 45 s with
  | [a; b; c; d; e] =>
      forallb (forallb is_hex) [a; b; c; d; e] &&
      (List.length a =? 8)%nat && (List.length b =? 4)%nat &&
      (List.length c =? 4)%nat && (List.length d =? 4)%nat &&
      (List.length e =? 12)%nat
  | _ => false
  end.


(** What [readTag] gives for the tag type [t]. *)
Definition good (t : Z) (v : value) : Prop :=
  tag_kind t v = true /\ shaped v = true.

(** [n] items of [k] bytes each, cut from [bs] and read by [conv]. *)
Fixpoint chunks {A} (k : nat) (conv : list byte -> A) (n : nat) (bs : list byte) : list A :=
  match n with
  | O => []
  | S n' => conv (firstn k bs) :: chunks k conv n' (skipn k bs)
  end.

(** A loop of [n] reads of [k] bytes in one step: the [n * k] bytes at
    the cursor, or a RangeError when the buffer is short of them. *)
Definition items {A} (k : nat) (conv : list byte -> A) (n : nat) : NBT.reader (list A) :=
  fun buf off =>
    match NBT.slice buf off (n * k) with
    | Some bs => Ok (chunks k conv n bs, (off + n * k)%nat)
    | None => Throw RangeError
    end.

(** The outcome of a reader, the cursor counted [n] bytes further. *)
Definition shifted {A} (n : nat) (r : result (A * nat)) : result (A * nat) :=
  match r with
  | Ok (a, off) => Ok (a, (n + off)%nat)
  | Throw e => Throw e
  | OutOfFuel => OutOfFuel
  end.

(** A reader that does the same wherever the bytes it reads stand: with
    [pre] put in front of the buffer and the cursor moved as far. *)
Definition relocatable {A} (m : NBT.reader A) : Prop :=
  forall pre buf off,
    m (pre ++ buf) (List.length pre + off)%nat = shifted (List.length pre) (m buf off).

(** [l] is [l'] with some items left out, the order kept. *)
Inductive subseq {A} : list A -> list A -> Prop :=
| subseq_nil : subseq [] []
| subseq_skip (x : A) (l l' : list A) : subseq l l' -> subseq l (x :: l')
| subseq_take (x : A) (l l' : list A) : subseq l l' -> subseq (x :: l) (x :: l').

(** A call of the extractor ends: it returns, or it throws a TypeError. *)
Definition settles {A} (r : result A) : Prop :=
  match r with
  | Ok _ => True
  | Throw e => e = TypeError
  | OutOfFuel => False
  end.

(** A candidate that is in the result, or has the key of a profile that
    is. *)
Definition represented (result : list Extract.skin) (c : Extract.skin) : Prop :=
  In c result \/ Spec.key_kept result c = true.

(** Whether [buf] starts with the bytes [p]. *)
Fixpoint prefix_of (p buf : list byte) : bool :=
  match p, buf with
  | [], _ => true
  | x :: p', y :: buf' => (byte.unsigned x =? byte.unsigned y) && prefix_of p' buf'
  | _ :: _, [] => false
  end.

(** Whether the bytes [p] stand somewhere in [buf], one after the
    other. *)
Fixpoint occurs (p buf : list byte) : bool :=
  prefix_of p buf ||
  match buf with
  | [] => false
  | _ :: rest => occurs p rest
  end.

(** The nine bytes of the name [__proto__]. *)
Definition proto_name : list byte := NBT.bytes (Spec.ascii "__proto__").

(** A code unit of the ASCII range. *)
Definition basic (c : Z) : Prop := c < 0x80.

(** A state of the UTF-8 decoder inside a sequence from which, whatever
    bytes follow, the next code point it gives is outside the ASCII
    range: [need] continuation bytes are missing, the next not below
    [lo], and [cp] holds the bits collected. *)
Definition pending (cp : Z) (need : nat) (lo : Z) : Prop :=
  match need with
  | O => True
  | 1%nat => 0x80 <= lo /\ 2 <= cp
  | 2%nat => 0x80 <= lo /\ 0 <= cp /\ (1 <= cp \/ 0xA0 <= lo)
  | _ => 0x80 <= lo /\ 0 <= cp /\ (1 <= cp \/ 0x90 <= lo)
  end.

(** A reader that moves the cursor [k] bytes or more when it returns. *)
Definition advances {A} (k : nat) (m : NBT.reader A) : Prop :=
  forall buf off a off', m buf off = Ok (a, off') -> (off + k <= off')%nat.

End Props.

(** *** Schematics with player heads *)

Module Heads.
Import Spec.

(** The two ways Minecraft writes the block entity of a head: under
    [SkullOwner] with capitalized keys before 1.20.2, under [profile]
    since, with the signature of the texture. *)
Inductive layout : Type :=
| Classic
| Modern (signature : list Z).

(** A player head: how it is written, the name of its owner, the four
    integers of the owner's UUID, the texture value. *)
Record player_head : Type := {
  written : layout;
  owner : list Z;
  id_parts : Z * Z * Z * Z;
  texture : list Z
}.

(** The block entity of a head. *)
Definition skull (h : player_head) : tag :=
  let '(a, b, c, d) := id_parts h in
  match written h with
  | Classic =>
      TCompound
        [(js "id", TString (js "minecraft:skull"));
         (js "SkullOwner",
          TCompound
            [(js "Id", TIntArray [a; b; c; d]);
             (js "Name", TString (owner h));
             (js "Properties",
              TCompound
                [(js "textures",
                  TList 10 [TCompound [(js "Value", TString (texture h))]])])])]
  | Modern signature =>
      TCompound
        [(js "id", TString (js "minecraft:skull"));
         (js "profile",
          TCompound
            [(js "id", TIntArray [a; b; c; d]);
             (js "name", TString (owner h));
             (js "properties",
              TList 10 [TCompound [(js "name", TString (js "textures"));
                                   (js "value", TString (texture h));
                                   (js "signature", TString signature)]])])]
  end.

(** The members of a schematic with one region and these heads. *)
Definition litematic (region : list Z) (heads : list player_head)
  : list (list Z * tag) :=
  [(js "Version", TInt 6);
   (js "Regions",
    TCompound [(region, TCompound [(js "BlockEntities", TList 10 (map skull heads))])])].

(** The profile the extractor is to give for a head. *)
Definition skin_of (h : player_head) : Extract.skin :=
  let '(a, b, c, d) := id_parts h in
  {| Extract.name := VStr (flat_map Utf8.units (owner h));
     Extract.customName := VNull;
     Extract.uuid := VStr (canonical_uuid a b c d);
     Extract.textureValue := VStr (flat_map Utf8.units (texture h));
     Extract.textureSignature :=
       match written h with
       | Classic => VUndef
       | Modern signature => VStr (flat_map Utf8.units signature)
       end |}.

Definition nonempty (s : list Z) : bool :=
  match s with [] => false | _ => true end.

(** A head the encoder can write: strings the decoder reads back, name
    and texture value not empty, 32-bit integers. *)
Definition writable (h : player_head) : bool :=
  let '(a, b, c, d) := id_parts h in
  readable_string (owner h) && nonempty (owner h) &&
  readable_string (texture h) && nonempty (texture h) &&
  forallb (in_range (- 2 ^ 31) (2 ^ 31)) [a; b; c; d] &&
  match written h with
  | Classic => true
  | Modern signature => readable_string signature
  end.
End Heads.

(** *** Texture URLs *)

Module UrlProps.
Import Urls.

(** A browser that decodes nothing, to evaluate examples with: it does
    what every browser does on a texture value that is no base64 text. *)
Definition silent_browser : browser :=
  {| atob := fun _ => None; JSON_parse := fun _ => None |}.

(** What the two [try] blocks have in common: the value of
    [textureData.textures.SKIN.url] when the block reaches it. *)
Definition skin_url (br : browser) (textureValue : value) : option (option value) :=
  decoded <- atob br textureValue ;;
  textureData <- JSON_parse br decoded ;;
  found <- andalso (property textureData "textures")
                   (textures <- property textureData "textures" ;;
                    property textures "SKIN") ;;
  if truthy found then
    textures <- property textureData "textures" ;;
    SKIN <- property textures "SKIN" ;;
    url <- property SKIN "url" ;;
    Some (Some url)
  else Some None.

End UrlProps.

(* ===================================================================== *)
(** ** Bytes and big-endian numbers *)

Module BytesFacts.
Import NBT.

Lemma slice_app (pre bs rest : list byte) :
  slice (pre ++ bs ++ rest) (List.length pre) (List.length bs) = Some bs.
Proof.
  unfold slice.
  rewrite !length_app.
  destruct (Nat.leb_spec (List.length pre + List.length bs)
              (List.length pre + (List.length bs + List.length rest))) as [_|H]; [|lia].
  rewrite skipn_app, skipn_all, Nat.sub_diag. simpl.
  rewrite firstn_app, firstn_all, Nat.sub_diag. simpl.
  now rewrite app_nil_r.
Qed.

(** A sub-run of [bs]: [n] bytes, [d] bytes in. *)
Lemma slice_app_inner (pre bs rest : list byte) (d n : nat) :
  (d + n <= List.length bs)%nat ->
  slice (pre ++ bs ++ rest) (List.length pre + d) n = Some (firstn n (skipn d bs)).
Proof.
  intros Hle. unfold slice.
  rewrite !length_app.
  destruct (Nat.leb_spec (List.length pre + d + n)
              (List.length pre + (List.length bs + List.length rest))) as [_|H]; [|lia].
  f_equal.
  rewrite skipn_app.
  rewrite (skipn_all2 pre) by lia. simpl.
  replace (List.length pre + d - List.length pre)%nat with d by lia.
  rewrite skipn_app, firstn_app.
  rewrite length_skipn.
  replace (n - (List.length bs - d))%nat with 0%nat by lia.
  rewrite firstn_O. now rewrite app_nil_r.
Qed.

Lemma lor_shiftl_add (high low n : Z) :
  0 <= n -> 0 <= low < 2 ^ n ->
  Z.lor (Z.shiftl high n) low = high * 2 ^ n + low.
Proof.
  intros Hn Hlow.
  assert (Hland : Z.land (Z.shiftl high n) low = 0).
  { apply Z.bits_inj'. intros i Hi.
    rewrite Z.land_spec, Z.bits_0.
    destruct (Z.lt_ge_cases i n) as [Hlt|Hge].
    - now rewrite Z.shiftl_spec_low.
    - destruct (Z.eq_dec low 0) as [->|Hnz].
      + now rewrite Z.bits_0, andb_false_r.
      + rewrite (Z.bits_above_log2 low i); [apply andb_false_r|lia|].
        apply Z.log2_lt_pow2; [lia|].
        apply Z.lt_le_trans with (2 ^ n); [lia|].
        apply Z.pow_le_mono_r; lia. }
  rewrite <- Z.lxor_lor, <- Z.add_nocarry_lxor by assumption.
  now rewrite Z.shiftl_mul_pow2.
Qed.

Lemma unsigned_be_snoc (bs : list byte) (b : byte) :
  unsigned_be (bs ++ [b]) = unsigned_be bs * 256 + byte.unsigned b.
Proof. unfold unsigned_be. now rewrite fold_left_app. Qed.

Lemma unsigned_be_range (bs : list byte) :
  0 <= unsigned_be bs < 2 ^ (8 * Z.of_nat (List.length bs)).
Proof.
  induction bs as [|b bs IH] using rev_ind.
  - cbv. split; [discriminate|reflexivity].
  - rewrite unsigned_be_snoc, length_app. simpl List.length.
    replace (8 * Z.of_nat (List.length bs + 1)) with (8 * Z.of_nat (List.length bs) + 8) by lia.
    rewrite Z.pow_add_r by lia.
    pose proof (byte.unsigned_range b). change (2 ^ 8) with 256 in *. nia.
Qed.

End BytesFacts.

(* ===================================================================== *)
(** ** The 64-bit integers *)

Module LongFacts.
Import NBT Spec BytesFacts.

(** The reader as a function of the eight bytes at the cursor. *)
Lemma readLong_bytes (pre rest : list byte) (b0 b1 b2 b3 b4 b5 b6 b7 : byte) :
  readLong (pre ++ [b0; b1; b2; b3; b4; b5; b6; b7] ++ rest) (List.length pre)
  = Ok (Z.lor (Z.shiftl (signed_be [b0; b1; b2; b3]) 32) (unsigned_be [b4; b5; b6; b7]),
        (List.length pre + 8)%nat).
Proof.
  unfold readLong, bind, getInt32, getUint32, getter, advance, ret.
  rewrite (slice_app_inner pre _ rest 0 4) by (simpl; lia).
  rewrite (slice_app_inner pre _ rest 4 4) by (simpl; lia).
  reflexivity.
Qed.

(** C8. Whatever the eight bytes at the cursor, [readLong] returns the
    signed two's complement value of their big-endian reading, an integer
    of full precision: it lies in the signed 64-bit range, equals the
    unsigned reading modulo 2^64, has the same 64 bits (the upper ones
    too), and is negative exactly when the top bit is set. *)
Theorem readLong_exact (pre rest : list byte) (b0 b1 b2 b3 b4 b5 b6 b7 : byte) :
  let bs := [b0; b1; b2; b3; b4; b5; b6; b7] in
  let u := unsigned_be bs in
  exists v : Z,
    readLong (pre ++ bs ++ rest) (List.length pre) = Ok (v, (List.length pre + 8)%nat) /\
    v = twos_complement 64 u /\
    - 2 ^ 63 <= v < 2 ^ 63 /\
    v mod 2 ^ 64 = u /\
    (forall i, 0 <= i < 64 -> Z.testbit v i = Z.testbit u i) /\
    (v <? 0) = Z.testbit u 63.
Proof.
  intros bs u.
  eexists. split; [apply readLong_bytes|].
  assert (Hv : Z.lor (Z.shiftl (signed_be [b0; b1; b2; b3]) 32) (unsigned_be [b4; b5; b6; b7])
               = twos_complement 64 u).
  { pose proof (unsigned_be_range [b0; b1; b2; b3]) as Hh.
    pose proof (unsigned_be_range [b4; b5; b6; b7]) as Hl.
    rewrite lor_shiftl_add by (simpl in Hl; lia).
    assert (Hu : u = unsigned_be [b0; b1; b2; b3] * 2 ^ 32 + unsigned_be [b4; b5; b6; b7]).
    { subst u bs. unfold unsigned_be. simpl. lia. }
    unfold signed_be, twos_complement. rewrite Hu.
    simpl List.length in *. change (8 * Z.of_nat 4) with 32 in *.
    change (2 ^ (32 - 1)) with 2147483648. change (2 ^ (64 - 1)) with 9223372036854775808.
    change (2 ^ 32) with 4294967296 in *. change (2 ^ 64) with 18446744073709551616.
    destruct (Z.ltb_spec (unsigned_be [b0; b1; b2; b3]) 2147483648);
      destruct (Z.ltb_spec (unsigned_be [b0; b1; b2; b3] * 4294967296
                            + unsigned_be [b4; b5; b6; b7]) 9223372036854775808); lia. }
  rewrite Hv.
  pose proof (unsigned_be_range bs) as Hr. fold u in Hr.
  change (8 * Z.of_nat (List.length bs)) with 64 in Hr.
  assert (Hmod : twos_complement 64 u mod 2 ^ 64 = u).
  { unfold twos_complement. destruct (Z.ltb_spec u (2 ^ (64 - 1))).
    - apply Z.mod_small. lia.
    - replace (u - 2 ^ 64) with (u + (-1) * 2 ^ 64) by lia.
      rewrite Z.mod_add by lia. apply Z.mod_small. lia. }
  assert (Hrange : - 2 ^ 63 <= twos_complement 64 u < 2 ^ 63).
  { unfold twos_complement. change (64 - 1) with 63.
    destruct (Z.ltb_spec u (2 ^ 63)); lia. }
  repeat split; try tauto; try lia.
  - intros i Hi. rewrite <- Hmod at 2. now rewrite Z.mod_pow2_bits_low by lia.
  - rewrite Z.testbit_odd, Z.shiftr_div_pow2 by lia.
    unfold twos_complement. change (64 - 1) with 63.
    change (2 ^ 63) with 9223372036854775808 in *.
    change (2 ^ 64) with 18446744073709551616 in *.
    destruct (Z.ltb_spec u 9223372036854775808).
    + rewrite Z.div_small by lia.
      destruct (Z.ltb_spec u 0); [lia|reflexivity].
    + assert (Hq : u / 9223372036854775808 = 1) by (Z.div_mod_to_equations; lia).
      rewrite Hq.
      destruct (Z.ltb_spec (u - 18446744073709551616) 0); [reflexivity|lia].
Qed.

End LongFacts.

(* ===================================================================== *)
(** ** The cursor: what every reader does with it *)

Module ReaderFacts.
Import NBT Spec BytesFacts.

Create HintDb reader discriminated.

Lemma slice_some (buf : list byte) (off n : nat) (bs : list byte) :
  slice buf off n = Some bs ->
  (off + n <= List.length buf)%nat /\ bs = firstn n (skipn off buf) /\ List.length bs = n.
Proof.
  unfold slice. destruct (Nat.leb_spec (off + n) (List.length buf)); [|discriminate].
  intros [= <-]. repeat split; [assumption|].
  rewrite length_firstn, length_skipn. lia.
Qed.

Lemma slice_none (buf : list byte) (off n : nat) :
  slice buf off n = None -> (List.length buf < off + n)%nat.
Proof.
  unfold slice. destruct (Nat.leb_spec (off + n) (List.length buf)); [discriminate|auto].
Qed.

Lemma agree_le (n m : nat) (buf buf' : list byte) :
  (m <= n)%nat -> agree n buf buf' -> agree m buf buf'.
Proof.
  unfold agree. intros Hle H.
  replace m with (Nat.min m n) by lia.
  now rewrite <- !firstn_firstn, H.
Qed.

Lemma agree_length (n : nat) (buf buf' : list byte) :
  agree n buf buf' -> (n <= List.length buf)%nat -> (n <= List.length buf')%nat.
Proof.
  unfold agree. intros H Hle.
  apply (f_equal (@List.length byte)) in H. rewrite !length_firstn in H. lia.
Qed.

Lemma agree_sym (n : nat) (buf buf' : list byte) : agree n buf buf' -> agree n buf' buf.
Proof. unfold agree. auto. Qed.

Lemma agree_firstn (n m : nat) (buf : list byte) :
  (n <= m)%nat -> agree n buf (firstn m buf).
Proof.
  unfold agree. intros. rewrite firstn_firstn. now replace (Nat.min n m) with n by lia.
Qed.

Lemma slice_agree (buf buf' : list byte) (off n : nat) (bs : list byte) :
  slice buf off n = Some bs -> agree (off + n) buf buf' -> slice buf' off n = Some bs.
Proof.
  intros Hs Ha. apply slice_some in Hs as (Hle & -> & _).
  pose proof (agree_length _ _ _ Ha Hle) as Hle'.
  unfold slice. destruct (Nat.leb_spec (off + n) (List.length buf')); [|lia].
  f_equal. unfold agree in Ha.
  now rewrite !firstn_skipn_comm, Ha.
Qed.

Lemma slice_split (buf : list byte) (off n m : nat) :
  slice buf off (n + m) =
  match slice buf off n, slice buf (off + n) m with
  | Some a, Some b => Some (a ++ b)
  | _, _ => None
  end.
Proof.
  unfold slice.
  destruct (Nat.leb_spec (off + (n + m)) (List.length buf));
    destruct (Nat.leb_spec (off + n) (List.length buf));
    destruct (Nat.leb_spec (off + n + m) (List.length buf)); try lia; try reflexivity.
  f_equal.
  rewrite <- (firstn_skipn n (firstn (n + m) (skipn off buf))).
  rewrite firstn_firstn. replace (Nat.min n (n + m)) with n by lia.
  f_equal.
  rewrite skipn_firstn_comm, skipn_skipn.
  now replace (n + m - n)%nat with m by lia; replace (n + off)%nat with (off + n)%nat by lia.
Qed.

(** *** The scalar readers take a fixed number of bytes *)

Lemma getter_fixed {A} (n : nat) (conv : list byte -> A) (buf : list byte) (off : nat) :
  (v <- getter n 0 conv ;; advance n ;;; ret v) buf off = fixed n conv buf off.
Proof.
  unfold bind, getter, advance, ret, fixed. rewrite Nat.add_0_r.
  now destruct (slice buf off n).
Qed.

Lemma readByte_fixed buf off : readByte buf off = fixed 1 signed_be buf off.
Proof. apply getter_fixed. Qed.

Lemma readUByte_fixed buf off : readUByte buf off = fixed 1 unsigned_be buf off.
Proof. apply getter_fixed. Qed.

Lemma readShort_fixed buf off : readShort buf off = fixed 2 signed_be buf off.
Proof. apply getter_fixed. Qed.

Lemma readInt_fixed buf off : readInt buf off = fixed 4 signed_be buf off.
Proof. apply getter_fixed. Qed.

Lemma readFloat_fixed buf off :
  readFloat buf off = fixed 4 (fun bs => float32 (unsigned_be bs)) buf off.
Proof. apply getter_fixed. Qed.

Lemma readDouble_fixed buf off :
  readDouble buf off = fixed 8 (fun bs => float64 (unsigned_be bs)) buf off.
Proof. apply getter_fixed. Qed.

Lemma readLong_fixed buf off :
  readLong buf off =
  fixed 8 (fun bs => Z.lor (Z.shiftl (signed_be (firstn 4 bs)) 32)
                           (unsigned_be (skipn 4 bs))) buf off.
Proof.
  unfold readLong, bind, getInt32, getUint32, getter, advance, ret, fixed.
  rewrite Nat.add_0_r.
  replace (slice buf off 8) with (slice buf off (4 + 4)) by reflexivity.
  rewrite (slice_split buf off 4 4).
  destruct (slice buf off 4) as [a|] eqn:Ha; [|reflexivity].
  destruct (slice buf (off + 4) 4) as [b|] eqn:Hb; [|reflexivity].
  apply slice_some in Ha as (_ & _ & Hla).
  rewrite firstn_app, skipn_app, Hla, Nat.sub_diag.
  rewrite firstn_O, skipn_O, app_nil_r.
  rewrite <- Hla, firstn_all, skipn_all. reflexivity.
Qed.

Lemma uint8Array_fixed n buf off :
  (bytes <- uint8Array n ;; advance n ;;; ret (Utf8.decode bytes)) buf off
  = fixed n Utf8.decode buf off.
Proof.
  unfold bind, uint8Array, getter, advance, ret, fixed. rewrite Nat.add_0_r.
  now destruct (slice buf off n).
Qed.

Lemma readString_eq buf off :
  readString buf off =
  (length <- fixed 2 signed_be ;;
   if length <=? 0 then ret [] else fixed (Z.to_nat length) Utf8.decode) buf off.
Proof.
  unfold readString, bind at 1. unfold bind at 3.
  rewrite readShort_fixed.
  destruct (fixed 2 signed_be buf off) as [[len off']| |]; try reflexivity.
  destruct (len <=? 0); [reflexivity|].
  apply uint8Array_fixed.
Qed.

(** *** Soundness *)

Lemma sound_ext {A} (m m' : reader A) :
  (forall buf off, m buf off = m' buf off) -> sound m' -> sound m.
Proof.
  intros E H buf off a off' Hm. rewrite E in Hm.
  destruct (H _ _ _ _ Hm) as (H1 & H2 & H3).
  repeat split; auto. intros buf' Ha. rewrite E. auto.
Qed.

Lemma sound_fixed {A} (n : nat) (conv : list byte -> A) : sound (fixed n conv).
Proof.
  intros buf off a off'. unfold fixed.
  destruct (slice buf off n) as [bs|] eqn:Hs; [|discriminate].
  intros [= <- <-].
  pose proof (slice_some _ _ _ _ Hs) as (Hle & _ & _).
  repeat split; try lia.
  intros buf' Ha. now rewrite (slice_agree _ _ _ _ _ Hs Ha).
Qed.

Lemma sound_ret {A} (a : A) : sound (ret a).
Proof.
  intros buf off a' off'. unfold ret. intros [= <- <-].
  repeat split; auto; lia.
Qed.

Lemma sound_throw {A} (e : error) : sound (@throw A e).
Proof. intros buf off a off'. discriminate. Qed.

Lemma sound_bind {A B} (m : reader A) (f : A -> reader B) :
  sound m -> (forall a, sound (f a)) -> sound (bind m f).
Proof.
  intros Hm Hf buf off b off2. unfold bind.
  destruct (m buf off) as [[a off1]| |] eqn:E1; try discriminate.
  intros E2.
  destruct (Hm _ _ _ _ E1) as (L1 & B1 & S1).
  destruct (Hf a _ _ _ _ E2) as (L2 & B2 & S2).
  repeat split; try lia.
  intros buf' Ha.
  rewrite (S1 buf') by (eapply agree_le; eauto).
  auto.
Qed.

Lemma sound_times {A} (n : nat) (m : reader A) : sound m -> sound (times n m).
Proof.
  intros Hm. induction n as [|n IH]; simpl.
  - apply sound_ret.
  - apply sound_bind; [assumption|]. intros x.
    apply sound_bind; [assumption|]. intros xs. apply sound_ret.
Qed.

#[export] Hint Resolve sound_fixed sound_ret sound_throw sound_times : reader.

Lemma sound_readByte : sound readByte.
Proof. eapply sound_ext; [apply readByte_fixed|auto with reader]. Qed.

Lemma sound_readUByte : sound readUByte.
Proof. eapply sound_ext; [apply readUByte_fixed|auto with reader]. Qed.

Lemma sound_readShort : sound readShort.
Proof. eapply sound_ext; [apply readShort_fixed|auto with reader]. Qed.

Lemma sound_readInt : sound readInt.
Proof. eapply sound_ext; [apply readInt_fixed|auto with reader]. Qed.

Lemma sound_readLong : sound readLong.
Proof. eapply sound_ext; [apply readLong_fixed|auto with reader]. Qed.

Lemma sound_readFloat : sound readFloat.
Proof. eapply sound_ext; [apply readFloat_fixed|auto with reader]. Qed.

Lemma sound_readDouble : sound readDouble.
Proof. eapply sound_ext; [apply readDouble_fixed|auto with reader]. Qed.

Lemma sound_readString : sound readString.
Proof.
  eapply sound_ext; [apply readString_eq|].
  apply sound_bind; [auto with reader|]. intros len.
  destruct (len <=? 0); auto with reader.
Qed.

#[export] Hint Resolve sound_readByte sound_readUByte sound_readShort sound_readInt
  sound_readLong sound_readFloat sound_readDouble sound_readString : reader.

Lemma sound_typedArray (length : Z) : sound (typedArray length).
Proof. unfold typedArray. destruct (length <? 0); auto with reader. Qed.

#[export] Hint Resolve sound_typedArray : reader.

Ltac sound_step :=
  first [ solve [auto with reader] | apply sound_bind; [|intro] ].

Lemma sound_readByteArray : sound readByteArray.
Proof. unfold readByteArray. repeat sound_step. Qed.

Lemma sound_readIntArray : sound readIntArray.
Proof. unfold readIntArray. repeat sound_step. Qed.

Lemma sound_readLongArray : sound readLongArray.
Proof. unfold readLongArray. repeat sound_step. Qed.

#[export] Hint Resolve sound_readByteArray sound_readIntArray sound_readLongArray : reader.

Section Recursive.

Variable rt : Z -> reader JS.value.
Hypothesis sound_rt : forall t, sound (rt t).

Lemma sound_readList_with : sound (readList_with rt).
Proof. unfold readList_with. repeat sound_step. Qed.

Lemma sound_readCompound_loop (k : nat) (compound : props) :
  sound (readCompound_loop rt k compound).
Proof.
  revert compound. induction k as [|k IH]; intros compound; simpl.
  - intros buf off a off'. discriminate.
  - apply sound_bind; [auto with reader|]. intros tagType.
    destruct (tagType =? TAG_END); [auto with reader|].
    repeat sound_step.
Qed.

Lemma sound_readTag_with (rc : reader JS.value) (t : Z) :
  sound rc -> sound (readTag_with rt rc t).
Proof.
  intros Hrc. unfold readTag_with.
  repeat match goal with
         | |- sound (if ?c then _ else _) => destruct c
         end;
    repeat sound_step; auto using sound_readList_with.
Qed.

End Recursive.

Lemma readTag_S (fuel : nat) (t : Z) :
  readTag (S fuel) t =
  readTag_with (readTag fuel) (readCompound_loop (readTag fuel) (S fuel) []) t.
Proof. reflexivity. Qed.

Lemma sound_readTag (fuel : nat) (t : Z) : sound (readTag fuel t).
Proof.
  revert t. induction fuel as [|fuel IH]; intros t.
  - intros buf off a off'. discriminate.
  - rewrite readTag_S. apply sound_readTag_with; [assumption|].
    apply sound_readCompound_loop; assumption.
Qed.

Lemma sound_readCompound (fuel : nat) : sound (readCompound fuel).
Proof. apply sound_readCompound_loop, sound_readTag. Qed.

#[export] Hint Resolve sound_readTag sound_readCompound : reader.

Lemma sound_parse_from (fuel : nat) : sound (parse_from fuel).
Proof.
  unfold parse_from.
  apply sound_bind; [auto with reader|]. intros rootType.
  destruct (negb (rootType =? TAG_COMPOUND)); [auto with reader|].
  repeat sound_step.
Qed.

(** *** More fuel changes nothing *)

Lemma refines_refl {A} (m : reader A) : refines m m.
Proof. intros buf off _. reflexivity. Qed.

Lemma refines_trans {A} (m1 m2 m3 : reader A) :
  refines m1 m2 -> refines m2 m3 -> refines m1 m3.
Proof.
  intros H12 H23 buf off H. rewrite <- (H12 buf off H).
  apply H23. now rewrite (H12 buf off H).
Qed.

Lemma refines_bind {A B} (m m' : reader A) (f f' : A -> reader B) :
  refines m m' -> (forall a, refines (f a) (f' a)) -> refines (bind m f) (bind m' f').
Proof.
  intros Hm Hf buf off. unfold bind.
  destruct (m buf off) as [[a off1]| |] eqn:E; intros H.
  - rewrite (Hm buf off), E by (rewrite E; discriminate). now apply Hf.
  - rewrite (Hm buf off), E by (rewrite E; discriminate). reflexivity.
  - contradiction.
Qed.

Lemma refines_times {A} (n : nat) (m m' : reader A) :
  refines m m' -> refines (times n m) (times n m').
Proof.
  intros Hm. induction n as [|n IH]; simpl.
  - apply refines_refl.
  - apply refines_bind; [assumption|]. intros x.
    apply refines_bind; [assumption|]. intros xs. apply refines_refl.
Qed.

Section RecursiveFuel.

Variables rt rt' : Z -> reader JS.value.
Hypothesis refines_rt : forall t, refines (rt t) (rt' t).

Lemma refines_readList_with : refines (readList_with rt) (readList_with rt').
Proof.
  unfold readList_with.
  apply refines_bind; [apply refines_refl|]. intros itemType.
  apply refines_bind; [apply refines_refl|]. intros len.
  apply refines_bind; [now apply refines_times|]. intros l. apply refines_refl.
Qed.

Lemma refines_readCompound_loop (k k' : nat) (compound : props) :
  (k <= k')%nat ->
  refines (readCompound_loop rt k compound) (readCompound_loop rt' k' compound).
Proof.
  revert k' compound. induction k as [|k IH]; intros k' compound Hle.
  - intros buf off H. now contradiction H.
  - destruct k' as [|k']; [lia|]. simpl.
    apply refines_bind; [apply refines_refl|]. intros tagType.
    destruct (tagType =? TAG_END); [apply refines_refl|].
    apply refines_bind; [apply refines_refl|]. intros name.
    apply refines_bind; [apply refines_rt|]. intros v.
    apply IH. lia.
Qed.

Lemma refines_readTag_with (rc rc' : reader JS.value) (t : Z) :
  refines rc rc' -> refines (readTag_with rt rc t) (readTag_with rt' rc' t).
Proof.
  intros Hrc. unfold readTag_with.
  repeat match goal with
         | |- refines (if ?c then _ else _) _ => destruct c
         end;
    auto using refines_refl, refines_readList_with.
Qed.

End RecursiveFuel.

Lemma refines_readTag_S (fuel : nat) (t : Z) :
  refines (readTag fuel t) (readTag (S fuel) t).
Proof.
  revert t. induction fuel as [|fuel IH]; intros t.
  - intros buf off H. now contradiction H.
  - rewrite !readTag_S. apply refines_readTag_with; [assumption|].
    apply refines_readCompound_loop; [assumption|lia].
Qed.

Lemma refines_readTag (fuel fuel' : nat) (t : Z) :
  (fuel <= fuel')%nat -> refines (readTag fuel t) (readTag fuel' t).
Proof.
  induction 1 as [|fuel' _ IH].
  - apply refines_refl.
  - eapply refines_trans; [exact IH|apply refines_readTag_S].
Qed.

Lemma refines_readCompound (fuel fuel' : nat) :
  (fuel <= fuel')%nat -> refines (readCompound fuel) (readCompound fuel').
Proof.
  intros Hle. apply refines_readCompound_loop; [|lia].
  intros t. now apply refines_readTag.
Qed.

Lemma refines_parse_from (fuel fuel' : nat) :
  (fuel <= fuel')%nat -> refines (parse_from fuel) (parse_from fuel').
Proof.
  intros Hle. unfold parse_from.
  apply refines_bind; [apply refines_refl|]. intros rootType.
  destruct (negb (rootType =? TAG_COMPOUND)); [apply refines_refl|].
  apply refines_bind; [apply refines_refl|]. intros rootName.
  apply refines_bind; [now apply refines_readCompound|]. intros root.
  apply refines_refl.
Qed.

(** *** The fuel [parse] gives is enough *)

Lemma bind_fuel {A B} (m : reader A) (f : A -> reader B) buf off :
  m buf off <> OutOfFuel ->
  (forall a off1, m buf off = Ok (a, off1) -> f a buf off1 <> OutOfFuel) ->
  bind m f buf off <> OutOfFuel.
Proof.
  unfold bind. intros Hm Hf.
  destruct (m buf off) as [[a off1]| |]; [now apply Hf|discriminate|contradiction].
Qed.

Lemma fixed_fuel {A} (n : nat) (conv : list byte -> A) buf off :
  fixed n conv buf off <> OutOfFuel.
Proof. unfold fixed. destruct (slice buf off n); discriminate. Qed.

Lemma fixed_ok {A} (n : nat) (conv : list byte -> A) buf off a off1 :
  fixed n conv buf off = Ok (a, off1) ->
  off1 = (off + n)%nat /\ (off + n <= List.length buf)%nat.
Proof.
  unfold fixed. destruct (slice buf off n) eqn:E; [|discriminate].
  intros [= <- <-]. apply slice_some in E. intuition.
Qed.

Lemma readUByte_ok buf off a off1 :
  readUByte buf off = Ok (a, off1) ->
  off1 = (off + 1)%nat /\ (off + 1 <= List.length buf)%nat.
Proof. rewrite readUByte_fixed. apply fixed_ok. Qed.

Lemma readByte_fuel buf off : readByte buf off <> OutOfFuel.
Proof. rewrite readByte_fixed. apply fixed_fuel. Qed.

Lemma readUByte_fuel buf off : readUByte buf off <> OutOfFuel.
Proof. rewrite readUByte_fixed. apply fixed_fuel. Qed.

Lemma readShort_fuel buf off : readShort buf off <> OutOfFuel.
Proof. rewrite readShort_fixed. apply fixed_fuel. Qed.

Lemma readInt_fuel buf off : readInt buf off <> OutOfFuel.
Proof. rewrite readInt_fixed. apply fixed_fuel. Qed.

Lemma readLong_fuel buf off : readLong buf off <> OutOfFuel.
Proof. rewrite readLong_fixed. apply fixed_fuel. Qed.

Lemma readFloat_fuel buf off : readFloat buf off <> OutOfFuel.
Proof. rewrite readFloat_fixed. apply fixed_fuel. Qed.

Lemma readDouble_fuel buf off : readDouble buf off <> OutOfFuel.
Proof. rewrite readDouble_fixed. apply fixed_fuel. Qed.

Lemma readString_fuel buf off : readString buf off <> OutOfFuel.
Proof.
  rewrite readString_eq. apply bind_fuel; [apply fixed_fuel|].
  intros len off1 _. destruct (len <=? 0); [discriminate|apply fixed_fuel].
Qed.

Lemma ret_fuel {A} (a : A) buf off : ret a buf off <> OutOfFuel.
Proof. discriminate. Qed.

Lemma throw_fuel {A} (e : error) buf off : @throw A e buf off <> OutOfFuel.
Proof. discriminate. Qed.

Lemma times_fuel {A} (n : nat) (m : reader A) (bound : nat) buf off :
  sound m -> total_within bound m ->
  (List.length buf - off <= bound)%nat ->
  times n m buf off <> OutOfFuel.
Proof.
  intros Hs Ht. revert off. induction n as [|n IH]; intros off Hrem; simpl.
  - discriminate.
  - apply bind_fuel; [now apply Ht|]. intros x off1 E1.
    apply Hs in E1 as (Hle & _).
    apply bind_fuel; [apply IH; lia|]. intros xs off2 _. discriminate.
Qed.

Lemma typedArray_fuel len buf off : typedArray len buf off <> OutOfFuel.
Proof. unfold typedArray. destruct (len <? 0); discriminate. Qed.

Lemma total_scalar {A} (m : reader A) (bound : nat) :
  (forall buf off, m buf off <> OutOfFuel) -> total_within bound m.
Proof. intros H buf off _. apply H. Qed.

Lemma readByteArray_fuel buf off : readByteArray buf off <> OutOfFuel.
Proof.
  unfold readByteArray. apply bind_fuel; [apply readInt_fuel|]. intros len off1 _.
  apply bind_fuel; [apply typedArray_fuel|]. intros [] off2 _.
  apply bind_fuel; [|discriminate].
  eapply times_fuel with (bound := (List.length buf - off2)%nat);
    [auto with reader|apply total_scalar, readByte_fuel|lia].
Qed.

Lemma readIntArray_fuel buf off : readIntArray buf off <> OutOfFuel.
Proof.
  unfold readIntArray. apply bind_fuel; [apply readInt_fuel|]. intros len off1 _.
  apply bind_fuel; [apply typedArray_fuel|]. intros [] off2 _.
  apply bind_fuel; [|discriminate].
  eapply times_fuel with (bound := (List.length buf - off2)%nat);
    [auto with reader|apply total_scalar, readInt_fuel|lia].
Qed.

Lemma readLongArray_fuel buf off : readLongArray buf off <> OutOfFuel.
Proof.
  unfold readLongArray. apply bind_fuel; [apply readInt_fuel|]. intros len off1 _.
  apply bind_fuel; [|discriminate].
  eapply times_fuel with (bound := (List.length buf - off1)%nat);
    [auto with reader|apply total_scalar, readLong_fuel|lia].
Qed.

Section RecursiveTotal.

Variable rt : Z -> reader JS.value.
Variable n : nat.
Hypothesis sound_rt : forall t, sound (rt t).
Hypothesis total_rt : (1 <= n)%nat -> forall t, total_within (n - 1) (rt t).

Lemma readList_with_fuel : total_within n (readList_with rt).
Proof.
  intros buf off Hrem. unfold readList_with.
  apply bind_fuel; [apply readUByte_fuel|]. intros itemType off1 E1.
  apply readUByte_ok in E1 as (-> & Hle).
  apply bind_fuel; [apply readInt_fuel|]. intros len off2 E2.
  apply sound_readInt in E2 as (Hle2 & _).
  apply bind_fuel; [|discriminate].
  apply times_fuel with (bound := (n - 1)%nat); [auto|apply total_rt; lia|lia].
Qed.

Lemma readCompound_loop_fuel (k : nat) (compound : props) buf off :
  (List.length buf - off <= n)%nat -> (List.length buf - off < k)%nat ->
  readCompound_loop rt k compound buf off <> OutOfFuel.
Proof.
  revert compound off. induction k as [|k IH]; intros compound off Hn Hk; [lia|].
  simpl.
  apply bind_fuel; [apply readUByte_fuel|]. intros tagType off1 E1.
  apply readUByte_ok in E1 as (-> & Hle).
  destruct (tagType =? TAG_END); [discriminate|].
  apply bind_fuel; [apply readString_fuel|]. intros name off2 E2.
  apply sound_readString in E2 as (Hle2 & _).
  apply bind_fuel; [apply total_rt; lia|]. intros v off3 E3.
  apply sound_rt in E3 as (Hle3 & _).
  apply IH; lia.
Qed.

Lemma readTag_with_fuel (rc : reader JS.value) (t : Z) :
  total_within n rc -> total_within n (readTag_with rt rc t).
Proof.
  intros Hrc buf off Hrem. unfold readTag_with.
  repeat match goal with
         | |- (if ?c then _ else _) _ _ <> _ => destruct c
         end;
    try (apply bind_fuel; [|discriminate]);
    auto using readByte_fuel, readShort_fuel, readInt_fuel, readLong_fuel,
      readFloat_fuel, readDouble_fuel, readString_fuel, readByteArray_fuel,
      readIntArray_fuel, readLongArray_fuel, ret_fuel, throw_fuel.
  now apply readList_with_fuel.
Qed.

End RecursiveTotal.

(** With more fuel than bytes left, [readTag] never runs out of it. *)
Lemma readTag_total (fuel : nat) (t : Z) : total_within fuel (readTag (S fuel) t).
Proof.
  revert t. induction fuel as [|fuel IH]; intros t; rewrite readTag_S.
  - apply readTag_with_fuel; [auto with reader|intros; lia|].
    intros buf off Hrem. apply readCompound_loop_fuel with (n := 0%nat);
      [auto with reader|intros; lia|lia|lia].
  - assert (Hrt : (1 <= S fuel)%nat -> forall t', total_within (S fuel - 1) (readTag (S fuel) t')).
    { intros _ t'. replace (S fuel - 1)%nat with fuel by lia. apply IH. }
    apply readTag_with_fuel; [auto with reader|assumption|].
    intros buf off Hrem. apply readCompound_loop_fuel with (n := S fuel);
      [auto with reader|assumption|lia|lia].
Qed.

Lemma readCompound_total (fuel : nat) buf off :
  (1 <= fuel)%nat -> (List.length buf - off < fuel)%nat ->
  readCompound fuel buf off <> OutOfFuel.
Proof.
  intros H1 Hrem. unfold readCompound.
  destruct fuel as [|fuel]; [lia|].
  apply readCompound_loop_fuel with (n := S fuel); [auto with reader| |lia|lia].
  intros _ t. replace (S fuel - 1)%nat with fuel by lia. apply readTag_total.
Qed.

Lemma parse_from_total (buf : list byte) :
  parse_from (List.length buf) buf 0%nat <> OutOfFuel.
Proof.
  unfold parse_from.
  apply bind_fuel; [apply readUByte_fuel|]. intros rootType off1 E1.
  apply readUByte_ok in E1 as (-> & Hle).
  destruct (negb (rootType =? TAG_COMPOUND)); [discriminate|].
  apply bind_fuel; [apply readString_fuel|]. intros rootName off2 E2.
  apply sound_readString in E2 as (Hle2 & _).
  apply bind_fuel; [|discriminate].
  apply readCompound_total; lia.
Qed.

(** [parse] always returns or throws. *)
Lemma parse_total (buffer : list byte) : parse buffer <> OutOfFuel.
Proof.
  unfold parse, parse_run. pose proof (parse_from_total buffer) as H.
  destruct (parse_from (List.length buffer) buffer 0%nat) as [[doc off]| |];
    [discriminate|discriminate|contradiction].
Qed.

End ReaderFacts.

(* ===================================================================== *)
(** ** Truncated buffers *)

Module TruncationFacts.
Import NBT Spec BytesFacts ReaderFacts.

(** C2, as stated, fails: [parse] stops at the end marker of the root
    compound and never looks at what follows, so a document followed by
    one more byte parses, and so does the same buffer cut before that
    byte. *)
Lemma truncation_counterexample :
  let buffer := bytes [10; 0; 0; 0; 0] in
  parse buffer = Ok {| name := []; value := VObj [] |} /\
  (4 < List.length buffer)%nat /\
  parse (firstn 4 buffer) = Ok {| name := []; value := VObj [] |}.
Proof.
  intros buffer.
  split; [vm_compute; reflexivity|].
  split; [vm_compute; lia|vm_compute; reflexivity].
Qed.

(** C2, amended. When [parse] succeeds and its cursor stops at [n], [n]
    is inside the buffer, the buffer cut anywhere before [n] makes [parse]
    throw, and the buffer cut at [n] or later parses to the same
    document. *)
Theorem truncation (buffer : list byte) (doc : document) (n : nat) :
  parse_run buffer = Ok (doc, n) ->
  (n <= List.length buffer)%nat /\
  (forall m, (m < n)%nat -> is_throw (parse (firstn m buffer)) = true) /\
  (forall m, (n <= m)%nat -> parse (firstn m buffer) = Ok doc).
Proof.
  unfold parse_run. intros Hrun.
  destruct (sound_parse_from _ _ _ _ _ Hrun) as (_ & Hin & Hsame).
  assert (Hn : (n <= List.length buffer)%nat).
  { destruct n; [lia|apply Hin; lia]. }
  split; [assumption|]. split.
  - intros m Hm.
    set (cut := firstn m buffer).
    assert (Hlen : List.length cut = m) by (subst cut; rewrite length_firstn; lia).
    pose proof (parse_from_total cut) as Htot.
    unfold parse, parse_run.
    destruct (parse_from (List.length cut) cut 0%nat) as [[doc' n']| |] eqn:E;
      [exfalso|reflexivity|contradiction].
    destruct (sound_parse_from _ _ _ _ _ E) as (_ & Hin' & Hsame').
    assert (Hn' : (n' <= m)%nat) by (destruct n'; [lia|rewrite <- Hlen; apply Hin'; lia]).
    assert (E' : parse_from (List.length cut) buffer 0%nat = Ok (doc', n')).
    { apply Hsame'. apply agree_sym. subst cut. now apply agree_firstn. }
    assert (Hle : (List.length cut <= List.length buffer)%nat) by lia.
    pose proof (refines_parse_from _ _ Hle buffer 0%nat) as R.
    rewrite E', Hrun in R. specialize (R ltac:(discriminate)).
    injection R as _ Hnn. lia.
  - intros m Hm.
    set (cut := firstn m buffer).
    assert (E : parse_from (List.length buffer) cut 0%nat = Ok (doc, n)).
    { apply Hsame. subst cut. now apply agree_firstn. }
    assert (Hle : (List.length cut <= List.length buffer)%nat).
    { subst cut. rewrite length_firstn. lia. }
    pose proof (refines_parse_from _ _ Hle cut 0%nat (parse_from_total cut)) as R.
    unfold parse, parse_run. rewrite <- R, E. reflexivity.
Qed.

(** The theorem at a document with one member: the byte 1 named [a]. *)
Lemma truncation_witness :
  let buffer := bytes [10; 0; 0; 1; 0; 1; 97; 1; 0] in
  let doc := {| name := []; value := VObj [(Name [97], VInt 1)] |} in
  parse_run buffer = Ok (doc, 9%nat) /\
  ((9 <= List.length buffer)%nat /\
   (forall m, (m < 9)%nat -> is_throw (parse (firstn m buffer)) = true) /\
   (forall m, (9 <= m)%nat -> parse (firstn m buffer) = Ok doc)).
Proof.
  intros buffer doc.
  assert (H : parse_run buffer = Ok (doc, 9%nat)) by (vm_compute; reflexivity).
  split; [exact H|exact (truncation buffer doc 9%nat H)].
Defined.

End TruncationFacts.

(* ===================================================================== *)
(** ** Strings *)

Module StringFacts.
Import NBT Spec BytesFacts ReaderFacts.

(** C4, as stated, fails from the length 32768 on: the prefix is read
    with [getInt16], so the bytes [80 00] are the length -32768, the
    result is the empty string and none of the 32768 bytes that follow
    is consumed. *)
Lemma readString_counterexample :
  let payload := repeat (byte.of_Z 65) (Z.to_nat 32768) in
  unsigned_be (bytes [0x80; 0x00]) = 32768 /\
  readString (bytes [0x80; 0x00] ++ payload) 0%nat = Ok ([], 2%nat).
Proof. intros payload. split; vm_compute; reflexivity. Qed.

Lemma signed_be_2 (b0 b1 : byte) :
  signed_be [b0; b1] = twos_complement 16 (unsigned_be [b0; b1]).
Proof. reflexivity. Qed.

(** C4, amended. [readString] reads a 16-bit big-endian length prefix as a
    signed number. When the prefix, read unsigned, is [u] between 1 and
    32767, the reader consumes the prefix and exactly the [u] bytes after
    it and returns them decoded as UTF-8, and throws when fewer than [u]
    bytes are left. When [u] is 0 or at least 32768 (a negative length),
    it returns the empty string and consumes the prefix only. *)
Theorem readString_spec (pre payload rest : list byte) (b0 b1 : byte) :
  let u := unsigned_be [b0; b1] in
  let off := List.length pre in
  (1 <= u <= 32767 -> List.length payload = Z.to_nat u ->
   readString (pre ++ [b0; b1] ++ payload ++ rest) off
   = Ok (Utf8.decode payload, (off + 2 + Z.to_nat u)%nat)) /\
  (1 <= u <= 32767 -> (List.length rest < Z.to_nat u)%nat ->
   readString (pre ++ [b0; b1] ++ rest) off = Throw RangeError) /\
  (u = 0 \/ 32768 <= u ->
   readString (pre ++ [b0; b1] ++ rest) off = Ok ([], (off + 2)%nat)).
Proof.
  intros u off.
  assert (Hprefix : forall tail,
             fixed 2 signed_be (pre ++ [b0; b1] ++ tail) off
             = Ok (twos_complement 16 u, (off + 2)%nat)).
  { intros tail. unfold fixed. subst off.
    pose proof (slice_app pre [b0; b1] tail) as E. simpl List.length in E.
    now rewrite E. }
  pose proof (unsigned_be_range [b0; b1]) as Hu. fold u in Hu.
  change (8 * Z.of_nat (List.length [b0; b1])) with 16 in Hu.
  change (2 ^ 16) with 65536 in Hu.
  unfold twos_complement in Hprefix.
  change (2 ^ (16 - 1)) with 32768 in Hprefix. change (2 ^ 16) with 65536 in Hprefix.
  repeat split.
  - intros Hr Hlen. rewrite readString_eq. unfold bind. rewrite Hprefix.
    destruct (Z.ltb_spec u 32768); [|lia].
    destruct (Z.leb_spec u 0); [lia|].
    unfold fixed.
    replace (pre ++ [b0; b1] ++ payload ++ rest)
      with ((pre ++ [b0; b1]) ++ payload ++ rest) by now rewrite <- app_assoc.
    replace (off + 2)%nat with (List.length (pre ++ [b0; b1]))
      by (rewrite length_app; reflexivity).
    rewrite <- Hlen. now rewrite slice_app, length_app, Hlen.
  - intros Hr Hlen. rewrite readString_eq. unfold bind. rewrite Hprefix.
    destruct (Z.ltb_spec u 32768); [|lia].
    destruct (Z.leb_spec u 0); [lia|].
    unfold fixed.
    destruct (slice (pre ++ [b0; b1] ++ rest) (off + 2) (Z.to_nat u)) eqn:E; [|reflexivity].
    apply slice_some in E as (Hle & _). rewrite !length_app in Hle.
    simpl List.length in Hle. subst off. lia.
  - intros Hr. rewrite readString_eq. unfold bind. rewrite Hprefix.
    destruct (Z.ltb_spec u 32768).
    + destruct (Z.leb_spec u 0); [reflexivity|lia].
    + destruct (Z.leb_spec (u - 65536) 0); [reflexivity|lia].
Qed.

(** The theorem at the string [hi] followed by one more byte, and at the
    prefix [FF FF]. *)
Lemma readString_spec_witness :
  readString (bytes [0; 2; 104; 105; 7]) 0%nat = Ok (js "hi", 4%nat) /\
  readString (bytes [0; 2; 104]) 0%nat = Throw RangeError /\
  readString (bytes [255; 255; 104; 105]) 0%nat = Ok ([], 2%nat).
Proof.
  split; [|split].
  - apply (proj1 (readString_spec [] (bytes [104; 105]) (bytes [7])
                    (byte.of_Z 0) (byte.of_Z 2))); vm_compute; [split; discriminate|reflexivity].
  - apply (proj1 (proj2 (readString_spec [] [] (bytes [104])
                    (byte.of_Z 0) (byte.of_Z 2)))); vm_compute; [split; discriminate|lia].
  - apply (proj2 (proj2 (readString_spec [] [] (bytes [104; 105])
                    (byte.of_Z 255) (byte.of_Z 255)))); vm_compute; right; discriminate.
Defined.

End StringFacts.

(* ===================================================================== *)
(** ** UUID normalization *)

Module UuidFacts.
Import Extract Spec.

Lemma hex_digit_char (d : Z) : 0 <= d < 16 -> hex_digit d = hex_char d.
Proof.
  intros H.
  assert (E : d = 0 \/ d = 1 \/ d = 2 \/ d = 3 \/ d = 4 \/ d = 5 \/ d = 6 \/ d = 7 \/
              d = 8 \/ d = 9 \/ d = 10 \/ d = 11 \/ d = 12 \/ d = 13 \/ d = 14 \/ d = 15)
    by lia.
  repeat (destruct E as [->|E]; [reflexivity|]). now subst.
Qed.

Lemma hex_digits_acc (fuel : nat) (n : Z) (acc : jstring) :
  hex_digits fuel n acc = hex_digits fuel n [] ++ acc.
Proof.
  revert n acc. induction fuel as [|fuel IH]; intros n acc; simpl; [reflexivity|].
  destruct (n <? 16); [reflexivity|].
  rewrite (IH _ (_ :: acc)), (IH _ [_]), <- app_assoc. reflexivity.
Qed.

Lemma hex_fixed_0 (k : nat) : hex_fixed k 0 = repeat 48 k.
Proof.
  induction k as [|k IH]; [reflexivity|].
  simpl hex_fixed. rewrite Z.div_0_l, IH by lia.
  change [hex_char (0 mod 16)] with (repeat 48 1).
  rewrite <- repeat_app. now replace (k + 1)%nat with (S k) by lia.
Qed.

Lemma hex_fixed_length (k : nat) (u : Z) : List.length (hex_fixed k u) = k.
Proof.
  revert u. induction k as [|k IH]; intros u; simpl; [reflexivity|].
  rewrite length_app, IH. simpl. lia.
Qed.

(** The digits [toString(16)] prints are the last digits of the fixed
    width form, the others being zeros. *)
Lemma hex_digits_fixed (k fuel : nat) (n : Z) :
  (1 <= k)%nat -> (1 <= fuel)%nat ->
  0 <= n < 16 ^ Z.of_nat k -> n < 2 ^ Z.of_nat fuel ->
  exists pad : nat,
    hex_fixed k n = repeat 48 pad ++ hex_digits fuel n [] /\
    (pad + List.length (hex_digits fuel n []) = k)%nat.
Proof.
  revert fuel n. induction k as [|k IH]; intros fuel n Hk Hf Hn Hfuel; [lia|].
  destruct fuel as [|fuel]; [lia|].
  simpl hex_fixed. simpl hex_digits.
  destruct (Z.ltb_spec n 16) as [Hlt|Hge].
  - exists k. rewrite Z.div_small, hex_fixed_0 by lia.
    rewrite hex_digit_char by (apply Z.mod_pos_bound; lia).
    split; [reflexivity|simpl; lia].
  - rewrite hex_digits_acc.
    assert (Hk1 : (1 <= k)%nat).
    { destruct k; [|lia]. simpl in Hn. lia. }
    assert (Hf1 : (1 <= fuel)%nat).
    { destruct fuel; [|lia]. simpl in Hfuel. lia. }
    assert (Hn' : 0 <= n / 16 < 16 ^ Z.of_nat k).
    { replace (Z.of_nat (S k)) with (Z.of_nat k + 1) in Hn by lia.
      rewrite Z.pow_add_r in Hn by lia. change (16 ^ 1) with 16 in Hn.
      split; [apply Z.div_pos; lia|apply Z.div_lt_upper_bound; lia]. }
    assert (Hfuel' : n / 16 < 2 ^ Z.of_nat fuel).
    { replace (Z.of_nat (S fuel)) with (Z.of_nat fuel + 1) in Hfuel by lia.
      rewrite Z.pow_add_r in Hfuel by lia. change (2 ^ 1) with 2 in Hfuel.
      apply Z.div_lt_upper_bound; lia. }
    destruct (IH fuel (n / 16) Hk1 Hf1 Hn' Hfuel') as (pad & E & L).
    exists pad. rewrite E, <- app_assoc.
    rewrite hex_digit_char by (apply Z.mod_pos_bound; lia).
    split; [reflexivity|]. rewrite length_app. simpl. lia.
Qed.

Lemma padStart_to_hex (k : nat) (n : Z) :
  (1 <= k)%nat -> 0 <= n < 16 ^ Z.of_nat k ->
  padStart k 48 (to_hex n) = hex_fixed k n.
Proof.
  intros Hk Hn. unfold to_hex, padStart.
  assert (Hfuel : n < 2 ^ Z.of_nat (S (Z.to_nat (Z.log2 n)))).
  { rewrite Nat2Z.inj_succ, Z2Nat.id by apply Z.log2_nonneg.
    destruct (Z.eq_dec n 0) as [->|Hnz]; [reflexivity|].
    apply Z.log2_spec. lia. }
  destruct (hex_digits_fixed k (S (Z.to_nat (Z.log2 n))) n Hk ltac:(lia) Hn Hfuel)
    as (pad & E & L).
  rewrite E. f_equal. f_equal. lia.
Qed.

Section WithRuntime.
Variable rt : runtime.

Lemma uuid_part_int (z : Z) :
  uuid_part rt (VInt z) = Ok (hex_fixed 8 (unsigned32 z)).
Proof.
  unfold uuid_part, VInt, ToNumber, bind, ToUint32, unsigned32.
  rewrite padStart_to_hex; [reflexivity|lia|].
  change (16 ^ Z.of_nat 8) with (2 ^ 32). apply Z.mod_pos_bound. lia.
Qed.

Lemma intArrayToUUID_ints (a b c d : Z) :
  intArrayToUUID rt (VArr [VInt a; VInt b; VInt c; VInt d])
  = Ok (VStr (canonical_uuid a b c d)).
Proof.
  unfold intArrayToUUID. simpl negb. cbv iota.
  unfold mapM, bind. rewrite !uuid_part_int.
  unfold canonical_uuid, hyphenate, slice.
  set (h1 := hex_fixed 8 (unsigned32 a)). set (h2 := hex_fixed 8 (unsigned32 b)).
  set (h3 := hex_fixed 8 (unsigned32 c)). set (h4 := hex_fixed 8 (unsigned32 d)).
  change (List.concat [h1; h2; h3; h4]) with (h1 ++ h2 ++ h3 ++ h4 ++ []).
  rewrite app_nil_r. reflexivity.
Qed.

Lemma get_int_or (o : JS.value) (k : key) (z : Z) :
  get o k = Ok (VInt z) -> get o k ||| get o k = Ok (VInt z).
Proof.
  intros E. unfold orelse, bind. rewrite E.
  destruct (truthy (VInt z)); reflexivity.
Qed.

Lemma uuid_of_indexed (id : JS.value) (a b c d : Z) :
  is_array id = false -> is_object id = true ->
  get id (Index 0) = Ok (VInt a) -> get id (Index 1) = Ok (VInt b) ->
  get id (Index 2) = Ok (VInt c) -> get id (Index 3) = Ok (VInt d) ->
  uuid_of rt id = Ok (VStr (canonical_uuid a b c d)).
Proof.
  intros Ha Ho Ea Eb Ec Ed. unfold uuid_of.
  assert (Ht : truthy id = true) by (destruct id; try discriminate; reflexivity).
  rewrite Ht, Ha, Ho. simpl negb. cbv iota.
  change (prop "0") with (Index 0). change (prop "1") with (Index 1).
  change (prop "2") with (Index 2). change (prop "3") with (Index 3).
  rewrite (get_int_or _ _ _ Ea), (get_int_or _ _ _ Eb),
    (get_int_or _ _ _ Ec), (get_int_or _ _ _ Ed).
  unfold bind. simpl forallb. cbv iota.
  apply intArrayToUUID_ints.
Qed.

(** C1. For every four integers [a b c d] (the signed 32-bit ones among
    them), the UUID of the array [[a, b, c, d]] is the string the
    specification describes: each reduced to its unsigned 32-bit
    representation, written in 8 lowercase hexadecimal digits, the four
    concatenated and cut 8-4-4-4-12 with hyphens, 36 characters in all.
    [parseProfile] gives that same string whether the identifier is the
    plain array, the compound keyed "0".."3" or the Int32Array of an
    int-array tag. The four values of the specification give
    d40feb8f-63db-43e5-aad1-4598c0d92b2b, the hexadecimal expansions of
    3557813135, 1675314149, 2865841560 and 3235457835. *)
Theorem uuid_normalization (a b c d : Z) (customName : JS.value) :
  let expected := VStr (canonical_uuid a b c d) in
  let plain := VArr [VInt a; VInt b; VInt c; VInt d] in
  let keyed := keyed_uuid (VInt a) (VInt b) (VInt c) (VInt d) in
  let typed := VI32 [a; b; c; d] in
  intArrayToUUID rt plain = Ok expected /\
  (forall id, id = plain \/ id = keyed \/ id = typed ->
     parseProfile rt (VObj [(prop "Id", id)]) customName
     = Ok (Some {| name := VNull; customName := customName; uuid := expected;
                   textureValue := VNull; textureSignature := VNull |})) /\
  List.length (canonical_uuid a b c d) = 36%nat /\
  canonical_uuid (-737154161) 1675314149 (-1429125736) (-1059509461)
  = js "d40feb8f-63db-43e5-aad1-4598c0d92b2b" /\
  map (fun z => (unsigned32 z, hex_fixed 8 (unsigned32 z)))
      [-737154161; 1675314149; -1429125736; -1059509461]
  = [(3557813135, js "d40feb8f"); (1675314149, js "63db43e5");
     (2865841560, js "aad14598"); (3235457835, js "c0d92b2b")].
Proof.
  intros expected plain keyed typed.
  assert (Hplain : uuid_of rt plain = Ok expected).
  { unfold uuid_of. simpl. apply intArrayToUUID_ints. }
  assert (Hkeyed : uuid_of rt keyed = Ok expected).
  { apply uuid_of_indexed; reflexivity. }
  assert (Htyped : uuid_of rt typed = Ok expected).
  { apply uuid_of_indexed; reflexivity. }
  split; [apply intArrayToUUID_ints|].
  split.
  - intros id Hid.
    assert (Hu : uuid_of rt id = Ok expected) by (destruct Hid as [->|[->| ->]]; assumption).
    assert (Ht : truthy id = true) by (destruct Hid as [->|[->| ->]]; reflexivity).
    unfold parseProfile. simpl is_string. cbv iota.
    change (get (VObj [(prop "Id", id)]) (prop "Name")) with (Ok VUndef).
    change (get (VObj [(prop "Id", id)]) (prop "name")) with (Ok VUndef).
    change (get (VObj [(prop "Id", id)]) (prop "Id")) with (Ok id).
    change (get (VObj [(prop "Id", id)]) (prop "Properties")) with (Ok VUndef).
    change (get (VObj [(prop "Id", id)]) (prop "properties")) with (Ok VUndef).
    unfold orelse, bind. simpl truthy at 1 2 3. cbv iota.
    rewrite Ht. change (truthy VUndef) with false. cbv iota beta.
    rewrite Ht. cbv iota beta. rewrite Ht. cbv iota beta.
    rewrite Hu. reflexivity.
  - split; [|split; vm_compute; reflexivity].
    unfold canonical_uuid, hyphenate.
    rewrite !length_app, !length_firstn, !length_skipn, !length_app, !hex_fixed_length.
    reflexivity.
Qed.

End WithRuntime.

End UuidFacts.

(* ===================================================================== *)
(** ** Block entities and profiles: which keys count *)

Module EntityFacts.
Import Extract Spec.

Lemma str_eqb_eq (a b : jstring) : str_eqb a b = true <-> a = b.
Proof. unfold str_eqb. destruct (list_eq_dec Z.eq_dec a b); intuition discriminate. Qed.

Lemma key_eqb_eq (a b : key) : key_eqb a b = true <-> a = b.
Proof.
  destruct a as [i|s], b as [j|t]; simpl.
  - rewrite N.eqb_eq. split; [now intros ->|now intros [= ->]].
  - split; discriminate.
  - split; discriminate.
  - rewrite str_eqb_eq. split; [now intros ->|now intros [= ->]].
Qed.

Lemma key_eqb_refl (a : key) : key_eqb a a = true.
Proof. now apply key_eqb_eq. Qed.

Lemma key_eqb_neq (a b : key) : key_eqb a b = false <-> a <> b.
Proof.
  rewrite <- key_eqb_eq. destruct (key_eqb a b); intuition discriminate.
Qed.

Lemma get_obj (o : props) (k : key) : get (VObj o) k = Ok (own o k).
Proof. reflexivity. Qed.

Lemma orelse_ok (a b : JS.value) : Ok a ||| Ok b = Ok (or_value a b).
Proof. unfold orelse, or_value, bind. now destruct (truthy a). Qed.

Lemma differ_lookup (ks : list key) (o o' : props) (k : key) :
  differ_only_at ks o o' -> ~ In k ks -> lookup o k = lookup o' k.
Proof.
  induction 1 as [|[k1 v1] [k2 v2] o o' [Hk Hv] _ IH]; intros Hnot; [reflexivity|].
  simpl in *. subst k2.
  destruct (key_eqb k k1) eqn:E; [|now apply IH].
  apply key_eqb_eq in E. subst k1.
  destruct Hv as [Hin| ->]; [contradiction|reflexivity].
Qed.

Lemma differ_own (ks : list key) (o o' : props) (k : key) :
  differ_only_at ks o o' -> ~ In k ks -> own o k = own o' k.
Proof. intros H Hk. unfold own. now rewrite (differ_lookup ks o o' k H Hk). Qed.

Lemma differ_keys (ks : list key) (o o' : props) :
  differ_only_at ks o o' -> map fst o = map fst o'.
Proof.
  induction 1 as [|[k1 v1] [k2 v2] o o' [Hk _] _ IH]; [reflexivity|].
  simpl in *. now rewrite Hk, IH.
Qed.

Lemma schematic_region (regions regions' : list (key * list JS.value)) (k : key) :
  Forall2 (fun r r' => fst r = fst r' /\ Forall2 same_but_id (snd r) (snd r'))
    regions regions' ->
  let region r := (fst r, VObj [(prop "BlockEntities", VArr (snd r))]) in
  (own (map region regions) k = VUndef /\ own (map region regions') k = VUndef) \/
  exists es es', own (map region regions) k = VObj [(prop "BlockEntities", VArr es)] /\
                 own (map region regions') k = VObj [(prop "BlockEntities", VArr es')] /\
                 Forall2 same_but_id es es'.
Proof.
  intros Hr region. unfold own.
  induction Hr as [|[k1 es] [k2 es'] l l' [Hk He] _ IH]; [left; split; reflexivity|].
  simpl in *. subst k2. destruct (key_eqb k k1); [|exact IH].
  right. eauto.
Qed.

Section WithRuntime.
Variable rt : runtime.

(** What [extractSkinFromEntity] does with a compound: the block id is
    read and dropped. *)
Lemma extractSkinFromEntity_obj (o : props) :
  extractSkinFromEntity rt (VObj o) =
  let profile := or_value (or_value (own o (prop "profile")) (own o (prop "SkullOwner")))
                   (own o (prop "Owner")) in
  if truthy profile
  then parseProfile rt profile
         (or_value (or_value (own o (prop "custom_name")) (own o (prop "CustomName"))) VNull)
  else Ok None.
Proof.
  unfold extractSkinFromEntity. rewrite !get_obj, !orelse_ok.
  unfold bind. cbv zeta.
  destruct (truthy (or_value (or_value (own o (prop "profile"))
                                (own o (prop "SkullOwner"))) (own o (prop "Owner"))));
    reflexivity.
Qed.

(** What [parseProfile] does with a compound. *)
Lemma parseProfile_obj (o : props) (customName : JS.value) :
  parseProfile rt (VObj o) customName =
  let name := or_value (or_value (own o (prop "Name")) (own o (prop "name"))) VNull in
  let id := or_value (or_value (or_value (own o (prop "Id")) (own o (prop "id")))
                        (own o (prop "UUID"))) (own o (prop "uuid")) in
  let properties := or_value (own o (prop "Properties")) (own o (prop "properties")) in
  uuid <- uuid_of rt id ;;
  texture <- textures_of properties ;;
  if negb (truthy name) && negb (truthy uuid) && negb (truthy (fst texture))
  then Ok None
  else Ok (Some {| name := name; customName := customName; uuid := uuid;
                   textureValue := fst texture; textureSignature := snd texture |}).
Proof.
  unfold parseProfile. simpl is_string. cbv iota.
  rewrite !get_obj, !orelse_ok. unfold bind. cbv zeta.
  destruct (uuid_of rt _) as [u| |]; try reflexivity.
  destruct (textures_of _) as [[tv ts]| |]; reflexivity.
Qed.

Lemma visit_entity_same (e e' : JS.value) (st : state) :
  same_but_id e e' -> visit_entity rt st e = visit_entity rt st e'.
Proof.
  intros [->|(o & o' & -> & -> & Hd)]; [reflexivity|].
  unfold visit_entity. rewrite !extractSkinFromEntity_obj.
  assert (Hown : forall k, ~ In k block_id_keys -> own o k = own o' k)
    by (intros k; apply differ_own; assumption).
  rewrite !(Hown (prop "profile")), !(Hown (prop "SkullOwner")), !(Hown (prop "Owner")),
    !(Hown (prop "custom_name")), !(Hown (prop "CustomName"))
    by (vm_compute; intuition discriminate).
  reflexivity.
Qed.

Lemma foldM_visit_same (es es' : list JS.value) (st : state) :
  Forall2 same_but_id es es' ->
  foldM (visit_entity rt) es st = foldM (visit_entity rt) es' st.
Proof.
  intros H. revert st. induction H as [|e e' es es' He _ IH]; intros st; [reflexivity|].
  simpl. rewrite (visit_entity_same e e' st He). unfold bind.
  destruct (visit_entity rt st e'); auto.
Qed.

Lemma foldM_ext {A S} (f g : S -> A -> result S) (l : list A) (s : S) :
  (forall s a, f s a = g s a) -> foldM f l s = foldM g l s.
Proof.
  intros E. revert s. induction l as [|a l IH]; intros s; [reflexivity|].
  simpl. rewrite E. unfold bind. destruct (g s a); auto.
Qed.

(** C9. Two block-entity compounds that differ only in the values bound
    under [id] and [Id] give the same extraction result: the same profile
    or absence of one, the same step of the walk whatever was collected
    before, and the same skins for two schematics whose block entities
    correspond one to one and differ only so. Whether a compound counts
    as a head is decided by the first truthy value among [profile],
    [SkullOwner] and [Owner], the block id taking no part. *)
Theorem block_id_irrelevant (o o' : props) :
  differ_only_at block_id_keys o o' ->
  extractSkinFromEntity rt (VObj o) = extractSkinFromEntity rt (VObj o') /\
  (forall st, visit_entity rt st (VObj o) = visit_entity rt st (VObj o')) /\
  (forall rootName regions regions',
     Forall2 (fun r r' => fst r = fst r' /\ Forall2 same_but_id (snd r) (snd r'))
       regions regions' ->
     extractSkinsFromNBT rt (schematic rootName regions)
     = extractSkinsFromNBT rt (schematic rootName regions')) /\
  extractSkinFromEntity rt (VObj o) =
    (let profile := or_value (or_value (own o (prop "profile")) (own o (prop "SkullOwner")))
                      (own o (prop "Owner")) in
     if truthy profile
     then parseProfile rt profile
            (or_value (or_value (own o (prop "custom_name")) (own o (prop "CustomName")))
               VNull)
     else Ok None).
Proof.
  intros Hd.
  assert (Hsame : same_but_id (VObj o) (VObj o')) by (right; eauto).
  assert (Hown : forall k, ~ In k block_id_keys -> own o k = own o' k)
    by (intros k; apply differ_own; assumption).
  repeat split.
  - rewrite !extractSkinFromEntity_obj.
    rewrite !(Hown (prop "profile")), !(Hown (prop "SkullOwner")), !(Hown (prop "Owner")),
      !(Hown (prop "custom_name")), !(Hown (prop "CustomName"))
      by (vm_compute; intuition discriminate).
    reflexivity.
  - intros st. now apply visit_entity_same.
  - intros rootName regions regions' Hr.
    unfold extractSkinsFromNBT, schematic. simpl NBT.value.
    rewrite !get_obj.
    set (R := map (fun r => (fst r, VObj [(prop "BlockEntities", VArr (snd r))])) regions).
    set (R' := map (fun r => (fst r, VObj [(prop "BlockEntities", VArr (snd r))])) regions').
    change (own [(prop "Regions", VObj R)] (prop "Regions")) with (VObj R).
    change (own [(prop "Regions", VObj R')] (prop "Regions")) with (VObj R').
    change (Ok (VObj R) ||| Ok (own [(prop "Regions", VObj R)] (prop "regions"))
            ||| Ok (VObj [])) with (@Ok JS.value (VObj R)).
    change (Ok (VObj R') ||| Ok (own [(prop "Regions", VObj R')] (prop "regions"))
            ||| Ok (VObj [])) with (@Ok JS.value (VObj R')).
    unfold bind at 1 3. simpl for_in.
    assert (Hkeys : map fst R = map fst R').
    { subst R R'. rewrite !map_map. simpl.
      induction Hr as [|r r' l l' [Hk _] _ IH]; [reflexivity|]. simpl. now rewrite Hk, IH. }
    assert (Hstep : forall st k, visit_region rt (VObj R) st k = visit_region rt (VObj R') st k).
    { intros st k. unfold visit_region. rewrite !get_obj. unfold bind at 1 3.
      pose proof (schematic_region regions regions' k Hr) as Hl.
      cbv zeta in Hl. fold R in Hl. fold R' in Hl.
      destruct Hl as [[-> ->]|(es & es' & -> & -> & Hes)]; [reflexivity|].
      change (get (VObj [(prop "BlockEntities", VArr es)]) (prop "BlockEntities")
              ||| get (VObj [(prop "BlockEntities", VArr es)]) (prop "TileEntities")
              ||| Ok (VArr [])) with (@Ok JS.value (VArr es)).
      change (get (VObj [(prop "BlockEntities", VArr es')]) (prop "BlockEntities")
              ||| get (VObj [(prop "BlockEntities", VArr es')]) (prop "TileEntities")
              ||| Ok (VArr [])) with (@Ok JS.value (VArr es')).
      unfold bind. simpl for_of. cbv iota. now apply foldM_visit_same. }
    rewrite Hkeys. rewrite (foldM_ext _ _ _ _ Hstep). reflexivity.
  - apply extractSkinFromEntity_obj.
Qed.

(** C10. An aliased lookup takes the first alias whose value is truthy,
    not the first whose key is present. The name [parseProfile] extracts
    is the first truthy of [Name] and [name] (else null): for a profile
    compound with [Name] bound to the empty string and [name] to a
    non-empty string [s], [parseProfile] either throws while reading the
    identifier or the properties, or returns a profile, and then one
    named [s]; it does return one when the compound has those two members
    only. A block entity whose [profile] is the empty string is handled
    as its first truthy of [SkullOwner] and [Owner] says. *)
Theorem truthy_alias (o : props) (s : jstring) (customName : JS.value) :
  own o (prop "Name") = VStr [] -> own o (prop "name") = VStr s -> s <> [] ->
  (exists id properties,
     parseProfile rt (VObj o) customName =
     (uuid <- uuid_of rt id ;;
      texture <- textures_of properties ;;
      Ok (Some {| name := VStr s; customName := customName; uuid := uuid;
                  textureValue := fst texture; textureSignature := snd texture |}))) /\
  (forall r, parseProfile rt (VObj o) customName = Ok r ->
             exists sk, r = Some sk /\ name sk = VStr s) /\
  parseProfile rt (VObj [(prop "Name", VStr []); (prop "name", VStr s)]) customName
  = Ok (Some {| name := VStr s; customName := customName; uuid := VNull;
                textureValue := VNull; textureSignature := VNull |}) /\
  (forall e, own e (prop "profile") = VStr [] ->
     extractSkinFromEntity rt (VObj e) =
     (let profile := or_value (own e (prop "SkullOwner")) (own e (prop "Owner")) in
      if truthy profile
      then parseProfile rt profile
             (or_value (or_value (own e (prop "custom_name")) (own e (prop "CustomName")))
                VNull)
      else Ok None)).
Proof.
  intros HName Hname Hs.
  assert (Hn : or_value (or_value (own o (prop "Name")) (own o (prop "name"))) VNull = VStr s).
  { rewrite HName, Hname. unfold or_value. simpl. destruct s; [contradiction|reflexivity]. }
  assert (Ht : truthy (VStr s) = true) by (destruct s; [contradiction|reflexivity]).
  assert (Heq : parseProfile rt (VObj o) customName =
    (uuid <- uuid_of rt (or_value (or_value (or_value (own o (prop "Id")) (own o (prop "id")))
                                     (own o (prop "UUID"))) (own o (prop "uuid"))) ;;
     texture <- textures_of (or_value (own o (prop "Properties")) (own o (prop "properties"))) ;;
     Ok (Some {| name := VStr s; customName := customName; uuid := uuid;
                 textureValue := fst texture; textureSignature := snd texture |}))).
  { rewrite parseProfile_obj. cbv zeta. rewrite Hn, Ht. reflexivity. }
  split; [eauto|]. split; [|split].
  - intros r. rewrite Heq. unfold bind.
    destruct (uuid_of rt _) as [u| |]; try discriminate.
    destruct (textures_of _) as [t| |]; try discriminate.
    intros [= <-]. eauto.
  - rewrite parseProfile_obj. cbv zeta.
    change (own [(prop "Name", VStr []); (prop "name", VStr s)] (prop "Name")) with (VStr []).
    change (own [(prop "Name", VStr []); (prop "name", VStr s)] (prop "name")) with (VStr s).
    change (own [(prop "Name", VStr []); (prop "name", VStr s)] (prop "Id")) with VUndef.
    change (own [(prop "Name", VStr []); (prop "name", VStr s)] (prop "id")) with VUndef.
    change (own [(prop "Name", VStr []); (prop "name", VStr s)] (prop "UUID")) with VUndef.
    change (own [(prop "Name", VStr []); (prop "name", VStr s)] (prop "uuid")) with VUndef.
    change (own [(prop "Name", VStr []); (prop "name", VStr s)] (prop "Properties")) with VUndef.
    change (own [(prop "Name", VStr []); (prop "name", VStr s)] (prop "properties")) with VUndef.
    destruct s as [|c s]; [contradiction|]. reflexivity.
  - intros e He. rewrite extractSkinFromEntity_obj, He. reflexivity.
Qed.

End WithRuntime.

(** C9 at a skull and the same compound with a number for block id. *)
Lemma block_id_irrelevant_witness :
  let o := [(prop "id", VStr (js "minecraft:skull")); (prop "profile", VStr (js "Steve"))] in
  let o' := [(prop "id", VInt 7); (prop "profile", VStr (js "Steve"))] in
  differ_only_at block_id_keys o o' /\
  extractSkinFromEntity example_runtime (VObj o)
  = extractSkinFromEntity example_runtime (VObj o').
Proof.
  intros o o'.
  assert (H : differ_only_at block_id_keys o o').
  { constructor; [split; [reflexivity|left; left; reflexivity]|].
    constructor; [split; [reflexivity|right; reflexivity]|]. constructor. }
  split; [exact H|exact (proj1 (block_id_irrelevant example_runtime o o' H))].
Defined.

(** C10 at [{ Name: "", name: "Steve", Id: "x" }]. *)
Lemma truthy_alias_witness :
  let o := [(prop "Name", VStr []); (prop "name", VStr (js "Steve"));
            (prop "Id", VStr (js "x"))] in
  own o (prop "Name") = VStr [] /\ own o (prop "name") = VStr (js "Steve") /\
  js "Steve" <> [] /\
  exists sk, parseProfile example_runtime (VObj o) VNull = Ok (Some sk) /\
             name sk = VStr (js "Steve").
Proof.
  intros o.
  assert (H1 : own o (prop "Name") = VStr []) by reflexivity.
  assert (H2 : own o (prop "name") = VStr (js "Steve")) by reflexivity.
  assert (H3 : js "Steve" <> []) by discriminate.
  repeat split; try assumption.
  destruct (proj1 (proj2 (truthy_alias example_runtime o (js "Steve") VNull H1 H2 H3))
              _ eq_refl) as (sk & E & Hsk).
  exists sk. split; [|exact Hsk].
  rewrite <- E. reflexivity.
Defined.

End EntityFacts.

(* ===================================================================== *)
(** ** Deduplication *)

Module DedupFacts.
Import Extract Spec EntityFacts.

(** C6, as stated, fails when "present" is read as it stands: two
    records whose texture value is the same empty string both reach the
    result, the empty string being falsy and their keys being their
    names. *)
Lemma dedup_counterexample :
  exists first second,
    extractSkinsFromNBT example_runtime
      (schematic [] [(Name (js "r"), [head "a" ""; head "b" ""])])
    = Ok [first; second] /\
    textureValue first = VStr [] /\ textureValue second = VStr [] /\
    name first = VStr (js "a") /\ name second = VStr (js "b").
Proof. do 2 eexists. vm_compute. repeat split. Qed.

Lemma number_eqb_sym (a b : number) : number_eqb a b = number_eqb b a.
Proof.
  destruct a as [x| |s m e|s|], b as [y| |s' m' e'|s'|]; simpl; try reflexivity;
    try (destruct x; reflexivity); try (destruct y; reflexivity).
  - destruct x, y; apply Z.eqb_sym.
  - rewrite (Pos.eqb_sym m), (Pos.eqb_sym e). now destruct s, s'.
  - now destruct s, s'.
Qed.

Lemma same_value_zero_sym (a b : JS.value) : same_value_zero a b = same_value_zero b a.
Proof.
  destruct a as [| |x|x|x|x|x|x|x], b as [| |y|y|y|y|y|y|y]; simpl; try reflexivity.
  - apply number_eqb_sym.
  - apply Z.eqb_sym.
  - unfold str_eqb. destruct (list_eq_dec Z.eq_dec x y), (list_eq_dec Z.eq_dec y x);
      congruence.
Qed.

Lemma mapM_app {A B} (f : A -> result B) (l1 l2 : list A) (r1 r2 : list B) :
  mapM f l1 = Ok r1 -> mapM f l2 = Ok r2 -> mapM f (l1 ++ l2) = Ok (r1 ++ r2).
Proof.
  revert r1. induction l1 as [|a l1 IH]; intros r1; simpl.
  - now intros [= <-].
  - unfold bind. destruct (f a) as [b| |]; try discriminate.
    destruct (mapM f l1) as [bs| |]; try discriminate.
    intros [= <-] H2. now rewrite (IH bs eq_refl H2).
Qed.

Lemma somes_app {A} (l1 l2 : list (option A)) : somes (l1 ++ l2) = somes l1 ++ somes l2.
Proof. unfold somes. apply flat_map_app. Qed.

Lemma dedup_from_app (kept l1 l2 : list skin) :
  dedup_from kept (l1 ++ l2) = dedup_from (dedup_from kept l1) l2.
Proof.
  revert kept. induction l1 as [|c l1 IH]; intros kept; simpl; [reflexivity|].
  destruct (truthy (dedup_key c) && negb (key_kept kept c)); apply IH.
Qed.

(** Appending is all [dedup_from] does to what is kept. *)
Lemma dedup_from_prefix (kept l : list skin) :
  exists added, dedup_from kept l = kept ++ added.
Proof.
  revert kept. induction l as [|c l IH]; intros kept; simpl.
  - exists []. now rewrite app_nil_r.
  - destruct (truthy (dedup_key c) && negb (key_kept kept c)).
    + destruct (IH (kept ++ [c])) as (added & ->). exists (c :: added).
      now rewrite <- app_assoc.
    + apply IH.
Qed.

Lemma distinct_keys_snoc (kept : list skin) (c : skin) :
  distinct_keys kept -> key_kept kept c = false -> distinct_keys (kept ++ [c]).
Proof.
  unfold distinct_keys, key_kept. intros Hd Hk.
  induction Hd as [|x l Hx Hl IH]; simpl in *.
  - constructor; constructor.
  - apply orb_false_iff in Hk as [Hxc Hrest].
    constructor; [|now apply IH].
    apply Forall_app. split; [assumption|].
    constructor; [|constructor]. now rewrite same_value_zero_sym.
Qed.

Lemma dedup_from_distinct (kept l : list skin) :
  distinct_keys kept -> distinct_keys (dedup_from kept l).
Proof.
  revert kept. induction l as [|c l IH]; intros kept Hd; simpl; [assumption|].
  destruct (truthy (dedup_key c)); simpl; [|now apply IH].
  destruct (key_kept kept c) eqn:E; simpl; [now apply IH|].
  apply IH. now apply distinct_keys_snoc.
Qed.

Lemma dedup_from_truthy (kept l : list skin) :
  Forall (fun s => truthy (dedup_key s) = true) kept ->
  Forall (fun s => truthy (dedup_key s) = true) (dedup_from kept l).
Proof.
  revert kept. induction l as [|c l IH]; intros kept Hk; simpl; [assumption|].
  destruct (truthy (dedup_key c)) eqn:Et; simpl; [|now apply IH].
  destruct (key_kept kept c); simpl; [now apply IH|].
  apply IH. apply Forall_app. split; [assumption|]. now constructor.
Qed.

Section WithRuntime.
Variable rt : runtime.

Lemma has_key_kept (st : state) (c : skin) :
  consistent st -> has (seenTextures st) (dedup_key c) = key_kept (skins st) c.
Proof.
  unfold consistent, has, key_kept. intros ->.
  induction (skins st) as [|r l IH]; simpl; [reflexivity|now rewrite IH].
Qed.

Lemma visit_entity_dedup (st st' : state) (e : JS.value) :
  consistent st -> visit_entity rt st e = Ok st' ->
  exists p, extractSkinFromEntity rt e = Ok p /\
            skins st' = dedup_from (skins st) (somes [p]) /\ consistent st'.
Proof.
  intros Hc. unfold visit_entity, bind.
  destruct (extractSkinFromEntity rt e) as [[c|]| |]; try discriminate.
  - rewrite (has_key_kept st c Hc). intros H. exists (Some c). split; [reflexivity|].
    simpl. destruct (truthy (dedup_key c) && negb (key_kept (skins st) c));
      injection H as <-; simpl; [|auto].
    split; [reflexivity|]. unfold consistent in *. simpl.
    now rewrite map_app, Hc.
  - intros [= <-]. exists None. auto.
Qed.

Lemma foldM_visit_dedup (es : list JS.value) (st st' : state) :
  consistent st -> foldM (visit_entity rt) es st = Ok st' ->
  exists ps, mapM (extractSkinFromEntity rt) es = Ok ps /\
             skins st' = dedup_from (skins st) (somes ps) /\ consistent st'.
Proof.
  revert st. induction es as [|e es IH]; intros st Hc; simpl.
  - intros [= <-]. exists []. auto.
  - unfold bind at 1. destruct (visit_entity rt st e) as [st1| |] eqn:E1; try discriminate.
    intros H.
    destruct (visit_entity_dedup st st1 e Hc E1) as (p & Ep & Hs1 & Hc1).
    destruct (IH st1 Hc1 H) as (ps & Eps & Hs' & Hc').
    exists (p :: ps). rewrite Ep. unfold bind. rewrite Eps.
    split; [reflexivity|]. split; [|assumption].
    rewrite Hs', Hs1. change (p :: ps) with ([p] ++ ps).
    now rewrite somes_app, dedup_from_app.
Qed.

Lemma visit_region_dedup (regions : JS.value) (k : key) (st st' : state) :
  consistent st -> visit_region rt regions st k = Ok st' ->
  exists es ps, region_entities regions k = Ok es /\
                mapM (extractSkinFromEntity rt) es = Ok ps /\
                skins st' = dedup_from (skins st) (somes ps) /\ consistent st'.
Proof.
  intros Hc. unfold visit_region, region_entities, bind.
  destruct (get regions k) as [region| |]; try discriminate.
  destruct (get region (prop "BlockEntities") ||| get region (prop "TileEntities")
            ||| Ok (VArr [])) as [be| |]; try discriminate.
  destruct (for_of be) as [es| |]; try discriminate.
  intros H. destruct (foldM_visit_dedup es st st' Hc H) as (ps & Eps & Hs & Hc').
  exists es, ps. auto.
Qed.

Lemma foldM_region_dedup (regions : JS.value) (keys : list key) (st st' : state) :
  consistent st -> foldM (visit_region rt regions) keys st = Ok st' ->
  exists ls ps, mapM (region_entities regions) keys = Ok ls /\
                mapM (extractSkinFromEntity rt) (List.concat ls) = Ok ps /\
                skins st' = dedup_from (skins st) (somes ps) /\ consistent st'.
Proof.
  revert st. induction keys as [|k keys IH]; intros st Hc; simpl.
  - intros [= <-]. exists [], []. auto.
  - unfold bind at 1.
    destruct (visit_region rt regions st k) as [st1| |] eqn:E1; try discriminate.
    intros H.
    destruct (visit_region_dedup regions k st st1 Hc E1) as (es & ps & Ees & Eps & Hs1 & Hc1).
    destruct (IH st1 Hc1 H) as (ls & ps' & Els & Eps' & Hs' & Hc').
    exists (es :: ls), (ps ++ ps'). rewrite Ees. unfold bind. rewrite Els.
    split; [reflexivity|]. split; [simpl; now apply mapM_app|]. split; [|assumption].
    now rewrite Hs', Hs1, somes_app, dedup_from_app.
Qed.

(** The profile [parseProfile] gives a block entity and its key. *)
Lemma dedup_key_texture (s : skin) (t : jstring) :
  textureValue s = VStr t -> t <> [] -> dedup_key s = VStr t.
Proof.
  intros E Ht. unfold dedup_key, or_value. rewrite E.
  destruct t; [contradiction|reflexivity].
Qed.

Lemma foldM_cons_ok {A S} (f : S -> A -> result S) (a : A) (l : list A) (s s' : S) :
  f s a = Ok s' -> foldM f (a :: l) s = foldM f l s'.
Proof. intros E. simpl. now rewrite E. Qed.

Lemma visit_entity_some (st : state) (e : JS.value) (s : skin) :
  extractSkinFromEntity rt e = Ok (Some s) ->
  visit_entity rt st e =
  Ok (if truthy (dedup_key s) && negb (has (seenTextures st) (dedup_key s))
      then {| skins := skins st ++ [s];
              seenTextures := seenTextures st ++ [dedup_key s] |}
      else st).
Proof.
  intros E. unfold visit_entity. rewrite E. unfold bind.
  now destruct (truthy (dedup_key s) && negb (has (seenTextures st) (dedup_key s))).
Qed.

(** The walk of a schematic with one region is the loop over its block
    entities. *)
Lemma visit_region_single (region : key) (es : list JS.value) (st : state) :
  visit_region rt (VObj [(region, VObj [(prop "BlockEntities", VArr es)])]) st region
  = foldM (visit_entity rt) es st.
Proof.
  unfold visit_region. rewrite get_obj. unfold own. simpl lookup. rewrite key_eqb_refl.
  unfold bind at 1.
  assert (E : get (VObj [(prop "BlockEntities", VArr es)]) (prop "BlockEntities")
              ||| get (VObj [(prop "BlockEntities", VArr es)]) (prop "TileEntities")
              ||| Ok (VArr []) = Ok (VArr es)) by reflexivity.
  rewrite E. reflexivity.
Qed.

Lemma extract_single_region (rootName : jstring) (region : key) (es : list JS.value) :
  extractSkinsFromNBT rt (schematic rootName [(region, es)]) =
  (st <- foldM (visit_entity rt) es {| skins := []; seenTextures := [] |} ;;
   Ok (skins st)).
Proof.
  unfold extractSkinsFromNBT, schematic. cbv beta zeta. simpl NBT.value. simpl map.
  set (R := [(region, VObj [(prop "BlockEntities", VArr es)])]).
  assert (E : get (VObj [(prop "Regions", VObj R)]) (prop "Regions")
              ||| get (VObj [(prop "Regions", VObj R)]) (prop "regions")
              ||| Ok (VObj []) = Ok (VObj R)) by reflexivity.
  rewrite E. unfold bind at 1. subst R. simpl for_in. simpl foldM.
  rewrite visit_region_single.
  unfold bind. destruct (foldM (visit_entity rt) es _); reflexivity.
Qed.

(** C6, amended. The key of a profile is its first truthy value among
    texture value, UUID and name (an empty string is no key), and keys
    are compared as a Set compares them. Whenever the extraction returns,
    its result is the deduplication of the candidate profiles, taken
    region by region and block entity by block entity: a candidate is
    appended when no profile already kept has its key. No two profiles of
    the result have the same key and each has one. In particular two
    block entities whose profiles have the same non-empty string for
    texture value contribute the first profile only. *)
Theorem deduplication (nbtData : NBT.document) (result : list skin) :
  extractSkinsFromNBT rt nbtData = Ok result ->
  (exists cands, candidates rt nbtData = Ok cands /\ result = dedup cands) /\
  distinct_keys result /\
  Forall (fun s => truthy (dedup_key s) = true) result /\
  (forall rootName region e1 e2 s1 s2 t,
     extractSkinFromEntity rt e1 = Ok (Some s1) ->
     extractSkinFromEntity rt e2 = Ok (Some s2) ->
     textureValue s1 = VStr t -> textureValue s2 = VStr t -> t <> [] ->
     extractSkinsFromNBT rt (schematic rootName [(region, [e1; e2])]) = Ok [s1]).
Proof.
  intros H.
  assert (Hwalk : exists cands, candidates rt nbtData = Ok cands /\ result = dedup cands).
  { unfold extractSkinsFromNBT in H. unfold candidates, block_entities.
    unfold bind in *.
    destruct (get (NBT.value nbtData) (prop "Regions")
              ||| get (NBT.value nbtData) (prop "regions") ||| Ok (VObj []))
      as [regions| |]; try discriminate.
    destruct (foldM (visit_region rt regions) (for_in regions)
                {| skins := []; seenTextures := [] |}) as [st| |] eqn:E; try discriminate.
    injection H as <-.
    assert (H0 : consistent {| skins := []; seenTextures := [] |}) by reflexivity.
    destruct (foldM_region_dedup regions _ _ st H0 E) as (ls & ps & Els & Eps & Hs & _).
    rewrite Els, Eps. eexists. split; [reflexivity|exact Hs]. }
  split; [exact Hwalk|].
  destruct Hwalk as (cands & _ & ->).
  split; [apply dedup_from_distinct; constructor|].
  split; [apply dedup_from_truthy; constructor|].
  intros rootName region e1 e2 s1 s2 t E1 E2 T1 T2 Ht.
  assert (Htr : truthy (VStr t) = true) by (destruct t; [contradiction|reflexivity]).
  assert (Hsame : str_eqb t t = true) by now apply str_eqb_eq.
  set (st0 := {| skins := []; seenTextures := [] |}).
  set (st1 := {| skins := [s1]; seenTextures := [VStr t] |}).
  assert (V1 : visit_entity rt st0 e1 = Ok st1).
  { rewrite (visit_entity_some _ e1 s1 E1), (dedup_key_texture s1 t T1 Ht), Htr.
    reflexivity. }
  assert (V2 : visit_entity rt st1 e2 = Ok st1).
  { rewrite (visit_entity_some _ e2 s2 E2), (dedup_key_texture s2 t T2 Ht), Htr.
    unfold has. simpl existsb. rewrite Hsame. reflexivity. }
  rewrite extract_single_region. fold st0.
  rewrite (foldM_cons_ok _ _ _ _ _ V1), (foldM_cons_ok _ _ _ _ _ V2). reflexivity.
Qed.

End WithRuntime.

(** The theorem at a schematic with two heads of one texture and a third
    head of another. *)
Lemma deduplication_witness :
  let doc := schematic [] [(Name (js "r"), [head "a" "T"; head "b" "T"; head "c" "U"])] in
  exists first third,
    extractSkinsFromNBT example_runtime doc = Ok [first; third] /\
    name first = VStr (js "a") /\ name third = VStr (js "c") /\
    distinct_keys [first; third].
Proof.
  intros doc. do 2 eexists.
  assert (H : extractSkinsFromNBT example_runtime doc = Ok _) by (vm_compute; reflexivity).
  split; [exact H|]. split; [reflexivity|]. split; [reflexivity|].
  exact (proj1 (proj2 (deduplication example_runtime doc _ H))).
Defined.

End DedupFacts.

(* ===================================================================== *)
(** ** Where the extraction throws *)

Module FailureFacts.
Import Extract Spec.

(** C5 fails on the code. A document decodes to a tree in which the
    field [BlockEntities] of a region is a number, and one to a tree in
    which [Regions] is a list of one end tag, that is [[null]]: on the
    first the loop [for (const entity of blockEntities)] throws a
    TypeError, the number not being iterable, on the second
    [region.BlockEntities] does, [region] being null. Neither mistyped
    field is treated as absent. *)
Theorem extraction_throws (rt : runtime) :
  NBT.parse mistyped_block_entities
  = Ok {| NBT.name := [];
          NBT.value := VObj [(prop "Regions",
                          VObj [(prop "r", VObj [(prop "BlockEntities", VInt 1)])])] |} /\
  (forall doc, NBT.parse mistyped_block_entities = Ok doc ->
               extractSkinsFromNBT rt doc = Throw TypeError) /\
  NBT.parse null_region
  = Ok {| NBT.name := []; NBT.value := VObj [(prop "Regions", VArr [VNull])] |} /\
  (forall doc, NBT.parse null_region = Ok doc ->
               extractSkinsFromNBT rt doc = Throw TypeError).
Proof.
  assert (E1 : NBT.parse mistyped_block_entities
               = Ok {| NBT.name := [];
                       NBT.value := VObj [(prop "Regions",
                                       VObj [(prop "r",
                                              VObj [(prop "BlockEntities", VInt 1)])])] |})
    by (vm_compute; reflexivity).
  assert (E2 : NBT.parse null_region
               = Ok {| NBT.name := []; NBT.value := VObj [(prop "Regions", VArr [VNull])] |})
    by (vm_compute; reflexivity).
  split; [exact E1|]. split; [|split; [exact E2|]].
  - intros doc H. rewrite E1 in H. injection H as <-. reflexivity.
  - intros doc H. rewrite E2 in H. injection H as <-. reflexivity.
Qed.

(** *** Where it does not *)










Lemma lookup_none_keys (o : props) (k : key) : lookup o k = None -> ~ In k (map fst o).
Proof.
  induction o as [|[k1 v1] o IH]; simpl; [auto|].
  destruct (key_eqb k k1) eqn:E; [discriminate|].
  intros Hn [->|Hin]; [|now apply IH].
  now rewrite EntityFacts.key_eqb_refl in E.
Qed.







Section WithRuntime.
Variable rt : runtime.


















End WithRuntime.


End FailureFacts.

(* ===================================================================== *)
(** ** Compound members *)

Module CompoundFacts.
Import NBT Spec EntityFacts FailureFacts.

Lemma lookup_overwrite_same (o : props) (k : key) (v : JS.value) :
  lookup o k <> None -> lookup (overwrite o k v) k = Some v.
Proof.
  induction o as [|[k' v'] o IH]; simpl; [contradiction|].
  destruct (key_eqb k k') eqn:E; simpl; rewrite E; auto.
Qed.

Lemma lookup_overwrite_other (o : props) (k k' : key) (v : JS.value) :
  k' <> k -> lookup (overwrite o k v) k' = lookup o k'.
Proof.
  intros Hne. induction o as [|[k1 v1] o IH]; simpl; [reflexivity|].
  destruct (key_eqb k k1) eqn:E; simpl.
  - apply key_eqb_eq in E. subst k1.
    apply key_eqb_neq in Hne. now rewrite Hne.
  - now rewrite IH.
Qed.

Lemma overwrite_keys (o : props) (k : key) (v : JS.value) :
  map fst (overwrite o k v) = map fst o.
Proof.
  induction o as [|[k1 v1] o IH]; simpl; [reflexivity|].
  destruct (key_eqb k k1); simpl; [reflexivity|now rewrite IH].
Qed.

Lemma lookup_create_same (o : props) (k : key) (v : JS.value) :
  lookup o k = None -> lookup (create o k v) k = Some v.
Proof.
  induction o as [|[k' v'] o IH]; simpl.
  - now rewrite key_eqb_refl.
  - destruct (key_eqb k k') eqn:E; [discriminate|]. intros Hn.
    destruct k as [i|s], k' as [j|t]; simpl in E |- *.
    + destruct (j <? i)%N; simpl.
      * rewrite E. now apply IH.
      * now rewrite N.eqb_refl.
    + now rewrite N.eqb_refl.
    + now apply IH.
    + rewrite E. now apply IH.
Qed.

Lemma lookup_create_other (o : props) (k k' : key) (v : JS.value) :
  k' <> k -> lookup (create o k v) k' = lookup o k'.
Proof.
  intros Hne. apply key_eqb_neq in Hne.
  induction o as [|[k1 v1] o IH]; simpl.
  - now rewrite Hne.
  - destruct k as [i|s], k1 as [j|t]; simpl.
    + destruct (j <? i)%N; simpl; [now rewrite IH|now rewrite Hne].
    + now rewrite Hne.
    + now rewrite IH.
    + now rewrite IH.
Qed.

Lemma create_keys (o : props) (k : key) (v : JS.value) :
  exists before after, map fst o = before ++ after /\
                       map fst (create o k v) = before ++ k :: after.
Proof.
  induction o as [|[k1 v1] o (before & after & E1 & E2)]; simpl.
  - exists [], []. auto.
  - destruct k as [i|s], k1 as [j|t]; simpl.
    + destruct (j <? i)%N; simpl.
      * exists (Index j :: before), after. simpl. now rewrite E1, E2.
      * exists [], (Index j :: map fst o). auto.
    + exists [], (Name t :: map fst o). auto.
    + exists (Index j :: before), after. simpl. now rewrite E1, E2.
    + exists (Name t :: before), after. simpl. now rewrite E1, E2.
Qed.

(** The assignment [compound[name] = value], for every name but
    [__proto__]: afterwards the key is bound to [value], the other keys
    are bound as before, and no key is listed twice. *)
Lemma obj_set_last_write_wins (o : props) (name : jstring) (v : JS.value) :
  name <> js "__proto__" ->
  lookup (obj_set o name v) (key_of name) = Some v /\
  (forall k, k <> key_of name -> lookup (obj_set o name v) k = lookup o k) /\
  (NoDup (map fst o) -> NoDup (map fst (obj_set o name v))).
Proof.
  intros Hname. unfold obj_set.
  destruct (str_eqb name (js "__proto__")) eqn:E; [now apply str_eqb_eq in E|].
  destruct (lookup o (key_of name)) as [old|] eqn:El.
  - repeat split.
    + apply lookup_overwrite_same. congruence.
    + intros k Hk. now apply lookup_overwrite_other.
    + now rewrite overwrite_keys.
  - repeat split.
    + now apply lookup_create_same.
    + intros k Hk. now apply lookup_create_other.
    + intros Hnd. destruct (create_keys o (key_of name) v) as (before & after & E1 & E2).
      rewrite E2. apply (NoDup_Add (Add_app (key_of name) before after)).
      rewrite <- E1. split; [assumption|now apply lookup_none_keys].
Qed.

(** C7 fails on the code for the key [__proto__]. A compound with the
    member [a] twice, 1 then 2, decodes to the single entry [a] bound to 2;
    a compound with the member [__proto__] twice decodes to an object
    with no entry at all: on an object made by [{}] the assignment
    [compound["__proto__"] = value] calls the setter inherited from
    Object.prototype, which stores nothing. Neither is an error. *)
Theorem duplicate_keys :
  parse (duplicate_member "a")
  = Ok {| name := []; value := VObj [(Name (js "a"), VInt 2)] |} /\
  parse (duplicate_member "__proto__") = Ok {| name := []; value := VObj [] |}.
Proof. split; vm_compute; reflexivity. Qed.

End CompoundFacts.

(* ===================================================================== *)
(** ** Reading back what the reference encoder wrote *)

Module EncodingFacts.
Import NBT Spec BytesFacts ReaderFacts.

Lemma tag_induction (P : tag -> Prop) :
  P TEnd -> (forall z, P (TByte z)) -> (forall z, P (TShort z)) ->
  (forall z, P (TInt z)) -> (forall z, P (TLong z)) ->
  (forall b, P (TFloat b)) -> (forall b, P (TDouble b)) ->
  (forall l, P (TByteArray l)) -> (forall s, P (TString s)) ->
  (forall elt l, Forall P l -> P (TList elt l)) ->
  (forall l, Forall (fun m => P (snd m)) l -> P (TCompound l)) ->
  (forall l, P (TIntArray l)) -> (forall l, P (TLongArray l)) ->
  forall t, P t.
Proof.
  intros HEnd HByte HShort HInt HLong HFloat HDouble HBA HStr HList HComp HIA HLA.
  fix IH 1. intros [ |z|z|z|z|b|b|l|s|elt l|l|l|l].
  - exact HEnd.
  - apply HByte.
  - apply HShort.
  - apply HInt.
  - apply HLong.
  - apply HFloat.
  - apply HDouble.
  - apply HBA.
  - apply HStr.
  - apply HList. induction l as [|x l IHl]; constructor; [apply IH|exact IHl].
  - apply HComp. induction l as [|[k x] l IHl]; constructor; [apply IH|exact IHl].
  - apply HIA.
  - apply HLA.
Qed.

(** *** Big-endian numbers *)

Lemma unsigned_of_Z_small (x : Z) : 0 <= x < 256 -> byte.unsigned (byte.of_Z x) = x.
Proof.
  intros H. rewrite byte.unsigned_of_Z. unfold byte.wrap.
  apply Z.mod_small. change (2 ^ 8) with 256. lia.
Qed.

Lemma big_endian_length (n : nat) (z : Z) : List.length (big_endian n z) = n.
Proof.
  revert z. induction n as [|n IH]; intros z; simpl; [reflexivity|].
  rewrite length_app, IH. simpl. lia.
Qed.

Lemma unsigned_be_big_endian (n : nat) (z : Z) :
  unsigned_be (big_endian n z) = z mod 2 ^ (8 * Z.of_nat n).
Proof.
  revert z. induction n as [|n IH]; intros z.
  - simpl. now rewrite Z.mod_1_r.
  - simpl big_endian. rewrite unsigned_be_snoc, IH, byte.unsigned_of_Z.
    unfold byte.wrap. change (2 ^ 8) with 256.
    replace (8 * Z.of_nat (S n)) with (8 + 8 * Z.of_nat n) by lia.
    rewrite Z.pow_add_r by lia. change (2 ^ 8) with 256.
    rewrite Z.rem_mul_r by lia. lia.
Qed.

Lemma signed_be_big_endian (n : nat) (z : Z) :
  (1 <= n)%nat ->
  - 2 ^ (8 * Z.of_nat n - 1) <= z < 2 ^ (8 * Z.of_nat n - 1) ->
  signed_be (big_endian n z) = z.
Proof.
  intros Hn Hz. unfold signed_be.
  rewrite unsigned_be_big_endian, big_endian_length.
  set (w := 8 * Z.of_nat n) in *.
  assert (Hw : 2 ^ w = 2 * 2 ^ (w - 1)).
  { replace w with (1 + (w - 1)) at 1 by lia. rewrite Z.pow_add_r by lia. reflexivity. }
  assert (Hp : 0 < 2 ^ (w - 1)) by (apply Z.pow_pos_nonneg; lia).
  destruct (Z.lt_ge_cases z 0) as [Hneg|Hpos].
  - assert (E : z mod 2 ^ w = z + 2 ^ w).
    { symmetry. apply Z.mod_unique with (q := -1); lia. }
    rewrite E. destruct (Z.ltb_spec (z + 2 ^ w) (2 ^ (w - 1))); lia.
  - rewrite Z.mod_small by lia.
    destruct (Z.ltb_spec z (2 ^ (w - 1))); lia.
Qed.

Lemma big_endian_split (n m : nat) (z : Z) :
  big_endian (n + m) z = big_endian n (z / 256 ^ Z.of_nat m) ++ big_endian m z.
Proof.
  revert z. induction m as [|m IH]; intros z.
  - rewrite Nat.add_0_r. simpl. now rewrite Z.div_1_r, app_nil_r.
  - replace (n + S m)%nat with (S (n + m)) by lia.
    change (big_endian (S (n + m)) z) with (big_endian (n + m) (z / 256) ++ [byte.of_Z z]).
    change (big_endian (S m) z) with (big_endian m (z / 256) ++ [byte.of_Z z]).
    rewrite IH, <- app_assoc. f_equal. f_equal.
    rewrite Z.div_div by (try apply Z.pow_pos_nonneg; lia).
    f_equal. rewrite Nat2Z.inj_succ, Z.pow_succ_r by lia. reflexivity.
Qed.

Lemma firstn_exact {A} (a b : list A) (n : nat) :
  List.length a = n -> firstn n (a ++ b) = a.
Proof.
  intros <-. rewrite firstn_app, Nat.sub_diag, firstn_all. simpl. apply app_nil_r.
Qed.

Lemma skipn_exact {A} (a b : list A) (n : nat) :
  List.length a = n -> skipn n (a ++ b) = b.
Proof. intros <-. rewrite skipn_app, Nat.sub_diag, skipn_all. reflexivity. Qed.

(** *** Composing readers over concatenated bytes *)

Lemma reads_ret {A} (a : A) : reads (ret a) [] a.
Proof. intros pre rest. unfold ret. simpl. now rewrite Nat.add_0_r. Qed.

Lemma reads_bind {A B} (m : reader A) (f : A -> reader B) bs1 bs2 a b :
  reads m bs1 a -> reads (f a) bs2 b -> reads (bind m f) (bs1 ++ bs2) b.
Proof.
  intros Hm Hf pre rest. unfold bind.
  rewrite <- app_assoc. rewrite Hm.
  replace (pre ++ bs1 ++ bs2 ++ rest) with ((pre ++ bs1) ++ bs2 ++ rest)
    by now rewrite <- app_assoc.
  rewrite <- length_app. rewrite Hf. now rewrite !length_app, Nat.add_assoc.
Qed.

Lemma reads_bind_ret {A B} (m : reader A) (g : A -> B) bs a :
  reads m bs a -> reads (bind m (fun x => ret (g x))) bs (g a).
Proof.
  intros Hm. rewrite <- (app_nil_r bs). eapply reads_bind; [exact Hm|apply reads_ret].
Qed.

Lemma reads_ext {A} (m m' : reader A) bs a :
  (forall buf off, m buf off = m' buf off) -> reads m' bs a -> reads m bs a.
Proof. intros E H pre rest. rewrite E. apply H. Qed.

Lemma reads_fixed {A} (n : nat) (conv : list byte -> A) (bs : list byte) :
  List.length bs = n -> reads (fixed n conv) bs (conv bs).
Proof.
  intros Hl pre rest. unfold fixed. subst n. now rewrite slice_app.
Qed.

Lemma reads_times {A B} (m : reader B) (enc : A -> list byte) (dec : A -> B)
  (l : list A) :
  Forall (fun a => reads m (enc a) (dec a)) l ->
  reads (times (List.length l) m) (flat_map enc l) (map dec l).
Proof.
  induction 1 as [|a l Ha _ IH]; simpl.
  - apply reads_ret.
  - eapply reads_bind; [exact Ha|].
    rewrite <- (app_nil_r (flat_map enc l)).
    eapply reads_bind; [exact IH|apply reads_ret].
Qed.

(** More fuel reads the same. *)
Lemma reads_fuel (fuel fuel' : nat) (t : Z) bs v :
  (fuel <= fuel')%nat -> reads (readTag fuel t) bs v -> reads (readTag fuel' t) bs v.
Proof.
  intros Hle H pre rest.
  rewrite (refines_readTag fuel fuel' t Hle); [apply H|].
  rewrite H. discriminate.
Qed.

(** *** Scalars *)

Lemma reads_readUByte (z : Z) : 0 <= z < 256 -> reads readUByte (big_endian 1 z) z.
Proof.
  intros Hz. eapply reads_ext; [apply readUByte_fixed|].
  replace z with (unsigned_be (big_endian 1 z)) at 2.
  - apply reads_fixed, big_endian_length.
  - rewrite unsigned_be_big_endian. apply Z.mod_small. change (2 ^ (8 * Z.of_nat 1)) with 256. lia.
Qed.

Lemma reads_signed (n : nat) (m : reader Z) (z : Z) :
  (forall buf off, m buf off = fixed n signed_be buf off) ->
  (1 <= n)%nat -> - 2 ^ (8 * Z.of_nat n - 1) <= z < 2 ^ (8 * Z.of_nat n - 1) ->
  reads m (big_endian n z) z.
Proof.
  intros E Hn Hz. eapply reads_ext; [exact E|].
  rewrite <- (signed_be_big_endian n z Hn Hz) at 2.
  apply reads_fixed, big_endian_length.
Qed.

Lemma reads_readByte (z : Z) : in_range (-128) 128 z = true -> reads readByte (big_endian 1 z) z.
Proof.
  unfold in_range. intros H. apply andb_true_iff in H as [H1 H2].
  apply reads_signed; [apply readByte_fixed|lia|].
  change (2 ^ (8 * Z.of_nat 1 - 1)) with 128. lia.
Qed.

Lemma reads_readShort (z : Z) :
  in_range (-32768) 32768 z = true -> reads readShort (big_endian 2 z) z.
Proof.
  unfold in_range. intros H. apply andb_true_iff in H as [H1 H2].
  apply reads_signed; [apply readShort_fixed|lia|].
  change (2 ^ (8 * Z.of_nat 2 - 1)) with 32768. lia.
Qed.

Lemma reads_readInt (z : Z) :
  in_range (- 2 ^ 31) (2 ^ 31) z = true -> reads readInt (big_endian 4 z) z.
Proof.
  unfold in_range. intros H. apply andb_true_iff in H as [H1 H2].
  apply reads_signed; [apply readInt_fixed|lia|].
  change (8 * Z.of_nat 4 - 1) with 31. lia.
Qed.

Lemma reads_readLong (z : Z) :
  in_range (- 2 ^ 63) (2 ^ 63) z = true -> reads readLong (big_endian 8 z) z.
Proof.
  unfold in_range. intros H. apply andb_true_iff in H as [H1 H2].
  apply Z.leb_le in H1. apply Z.ltb_lt in H2.
  eapply reads_ext; [apply readLong_fixed|].
  set (conv := fun bs => Z.lor (Z.shiftl (signed_be (firstn 4 bs)) 32)
                           (unsigned_be (skipn 4 bs))).
  replace z with (conv (big_endian 8 z)) at 2; [apply reads_fixed, big_endian_length|].
  subst conv. cbv beta.
  change 8%nat with (4 + 4)%nat. rewrite big_endian_split.
  rewrite firstn_exact, skipn_exact by apply big_endian_length.
  change (256 ^ Z.of_nat 4) with (2 ^ 32).
  rewrite signed_be_big_endian, unsigned_be_big_endian;
    [|lia|change (8 * Z.of_nat 4 - 1) with 31;
          change (2 ^ 63) with (2 ^ 31 * 2 ^ 32) in *;
          split; [apply Z.div_le_lower_bound; lia|apply Z.div_lt_upper_bound; lia]].
  change (8 * Z.of_nat 4) with 32.
  rewrite lor_shiftl_add by (try apply Z.mod_pos_bound; lia).
  pose proof (Z.div_mod z (2 ^ 32)). lia.
Qed.

Lemma reads_bits {A} (n : nat) (m : reader A) (f : Z -> A) (bits : Z) :
  (forall buf off, m buf off = fixed n (fun bs => f (unsigned_be bs)) buf off) ->
  in_range 0 (2 ^ (8 * Z.of_nat n)) bits = true ->
  reads m (big_endian n bits) (f bits).
Proof.
  unfold in_range. intros E H. apply andb_true_iff in H as [H1 H2].
  apply Z.leb_le in H1. apply Z.ltb_lt in H2.
  eapply reads_ext; [exact E|].
  replace (f bits) with (f (unsigned_be (big_endian n bits))).
  - exact (reads_fixed n (fun bs => f (unsigned_be bs)) (big_endian n bits)
             (big_endian_length n bits)).
  - rewrite unsigned_be_big_endian, Z.mod_small by lia. reflexivity.
Qed.

Lemma reads_readFloat (bits : Z) :
  in_range 0 (2 ^ 32) bits = true -> reads readFloat (big_endian 4 bits) (float32 bits).
Proof. apply (reads_bits 4 readFloat float32), readFloat_fixed. Qed.

Lemma reads_readDouble (bits : Z) :
  in_range 0 (2 ^ 64) bits = true -> reads readDouble (big_endian 8 bits) (float64 bits).
Proof. apply (reads_bits 8 readDouble float64), readDouble_fixed. Qed.

(** *** UTF-8 *)

Lemma run_lead (x : Z) (rest : list byte) :
  0 <= x < 256 ->
  Utf8.run (byte.of_Z x :: rest) 0 O 0x80 0xBF =
  Utf8.emit (fst (Utf8.lead x))
    (Utf8.run rest (fst (fst (fst (snd (Utf8.lead x)))))
       (snd (fst (fst (snd (Utf8.lead x))))) (snd (fst (snd (Utf8.lead x))))
       (snd (snd (Utf8.lead x)))).
Proof.
  intros Hx. simpl Utf8.run. rewrite unsigned_of_Z_small by assumption.
  destruct (Utf8.lead x) as [out [[[cp need] lo] hi]]. reflexivity.
Qed.

Lemma run_continue (x : Z) (rest : list byte) (cp : Z) (n : nat) (lo hi : Z) :
  0 <= x < 256 -> lo <= x <= hi ->
  Utf8.run (byte.of_Z x :: rest) cp (S n) lo hi =
  match n with
  | O => (cp * 64 + (x - 0x80)) :: Utf8.run rest 0 O 0x80 0xBF
  | S _ => Utf8.run rest (cp * 64 + (x - 0x80)) n 0x80 0xBF
  end.
Proof.
  intros Hx Hb. simpl Utf8.run. rewrite unsigned_of_Z_small by assumption.
  destruct (Z.leb_spec lo x); [|lia]. destruct (Z.leb_spec x hi); [|lia].
  reflexivity.
Qed.

Ltac decide_tests :=
  repeat match goal with
         | |- context [?a <=? ?b] => destruct (Z.leb_spec a b); try (exfalso; lia)
         | |- context [?a <? ?b] => destruct (Z.ltb_spec a b); try (exfalso; lia)
         | |- context [?a =? ?b] => destruct (Z.eqb_spec a b); try (exfalso; lia)
         end.

Lemma lead_1 (x : Z) : 0 <= x <= 0x7F -> Utf8.lead x = (Some x, (0, O, 0x80, 0xBF)).
Proof. intros H. unfold Utf8.lead. decide_tests. reflexivity. Qed.

Lemma lead_2 (x : Z) :
  0xC2 <= x <= 0xDF -> Utf8.lead x = (None, (x - 0xC0, 1%nat, 0x80, 0xBF)).
Proof. intros H. unfold Utf8.lead. decide_tests. reflexivity. Qed.

Lemma lead_3 (x : Z) :
  0xE0 <= x <= 0xEF ->
  Utf8.lead x = (None, (x - 0xE0, 2%nat, (if x =? 0xE0 then 0xA0 else 0x80),
                                         (if x =? 0xED then 0x9F else 0xBF))).
Proof.
  intros H. unfold Utf8.lead.
  destruct (Z.leb_spec x 0x7F); [lia|].
  destruct (Z.leb_spec 0xC2 x); [|lia]. destruct (Z.leb_spec x 0xDF); [lia|].
  destruct (Z.leb_spec 0xE0 x); [|lia]. destruct (Z.leb_spec x 0xEF); [|lia].
  reflexivity.
Qed.

Lemma lead_4 (x : Z) :
  0xF0 <= x <= 0xF4 ->
  Utf8.lead x = (None, (x - 0xF0, 3%nat, (if x =? 0xF0 then 0x90 else 0x80),
                                         (if x =? 0xF4 then 0x8F else 0xBF))).
Proof.
  intros H. unfold Utf8.lead.
  destruct (Z.leb_spec x 0x7F); [lia|].
  destruct (Z.leb_spec 0xC2 x); [|lia]. destruct (Z.leb_spec x 0xDF); [lia|].
  destruct (Z.leb_spec 0xE0 x); [|lia]. destruct (Z.leb_spec x 0xEF); [lia|].
  destruct (Z.leb_spec 0xF0 x); [|lia]. destruct (Z.leb_spec x 0xF4); [|lia].
  reflexivity.
Qed.

Lemma scalar_cases (c : Z) :
  scalar c = true -> 0 <= c < 0xD800 \/ 0xE000 <= c < 0x110000.
Proof.
  unfold scalar, in_range. intros H. apply orb_true_iff in H as [H|H];
    apply andb_true_iff in H as [H1 H2]; lia.
Qed.

(** One code point, as the encoder writes it, is read back. *)
Lemma run_utf8_cp (c : Z) (rest : list byte) :
  scalar c = true ->
  Utf8.run (map byte.of_Z (utf8_cp c) ++ rest) 0 O 0x80 0xBF
  = c :: Utf8.run rest 0 O 0x80 0xBF.
Proof.
  intros Hs. apply scalar_cases in Hs. unfold utf8_cp.
  destruct (Z.ltb_spec c 0x80) as [H1|H1].
  - cbn [map app]. rewrite run_lead, lead_1 by lia. reflexivity.
  - destruct (Z.ltb_spec c 0x800) as [H2|H2].
    + pose proof (Z.div_mod c 64 ltac:(lia)) as E.
      pose proof (Z.mod_pos_bound c 64 ltac:(lia)) as Hr.
      set (q := c / 64) in *. set (r := c mod 64) in *. clearbody q r.
      cbn [map app]. rewrite run_lead, lead_2 by lia. cbn [fst snd].
      unfold Utf8.emit. rewrite run_continue by lia. f_equal. lia.
    + destruct (Z.ltb_spec c 0x10000) as [H3|H3].
      * replace (c / 4096) with (c / 64 / 64) by (rewrite Z.div_div by lia; reflexivity).
        pose proof (Z.div_mod c 64 ltac:(lia)) as E.
        pose proof (Z.mod_pos_bound c 64 ltac:(lia)) as Hr.
        set (q := c / 64) in *. set (r := c mod 64) in *. clearbody q r.
        pose proof (Z.div_mod q 64 ltac:(lia)) as E'.
        pose proof (Z.mod_pos_bound q 64 ltac:(lia)) as Hr'.
        set (a := q / 64) in *. set (b := q mod 64) in *. clearbody a b.
        cbn [map app]. rewrite run_lead, lead_3 by lia. cbn [fst snd].
        unfold Utf8.emit.
        rewrite run_continue;
          [|lia|destruct (Z.eqb_spec (0xE0 + a) 0xE0);
                destruct (Z.eqb_spec (0xE0 + a) 0xED); lia].
        rewrite run_continue by lia. f_equal. lia.
      * replace (c / 262144) with (c / 64 / 64 / 64) by (rewrite !Z.div_div by lia; reflexivity).
        replace (c / 4096) with (c / 64 / 64) by (rewrite Z.div_div by lia; reflexivity).
        pose proof (Z.div_mod c 64 ltac:(lia)) as E.
        pose proof (Z.mod_pos_bound c 64 ltac:(lia)) as Hr.
        set (q := c / 64) in *. set (r := c mod 64) in *. clearbody q r.
        pose proof (Z.div_mod q 64 ltac:(lia)) as E'.
        pose proof (Z.mod_pos_bound q 64 ltac:(lia)) as Hr'.
        set (a := q / 64) in *. set (b := q mod 64) in *. clearbody a b.
        pose proof (Z.div_mod a 64 ltac:(lia)) as E''.
        pose proof (Z.mod_pos_bound a 64 ltac:(lia)) as Hr''.
        set (d := a / 64) in *. set (e := a mod 64) in *. clearbody d e.
        cbn [map app]. rewrite run_lead, lead_4 by lia. cbn [fst snd].
        unfold Utf8.emit.
        rewrite run_continue;
          [|lia|destruct (Z.eqb_spec (0xF0 + d) 0xF0);
                destruct (Z.eqb_spec (0xF0 + d) 0xF4); lia].
        rewrite run_continue by lia.
        rewrite run_continue by lia. f_equal. lia.
Qed.

Lemma run_utf8 (s : list Z) :
  forallb scalar s = true -> Utf8.run (utf8 s) 0 O 0x80 0xBF = s.
Proof.
  unfold utf8. induction s as [|c s IH]; intros H; [reflexivity|].
  simpl in H. apply andb_true_iff in H as [Hc Hs].
  simpl flat_map. rewrite map_app, run_utf8_cp by assumption.
  now rewrite IH.
Qed.

Lemma decode_utf8 (s : list Z) :
  readable_string s = true -> Utf8.decode (utf8 s) = flat_map Utf8.units s.
Proof.
  unfold readable_string. intros H.
  apply andb_true_iff in H as [H Hbom]. apply andb_true_iff in H as [Hs _].
  unfold Utf8.decode. rewrite run_utf8 by assumption.
  destruct s as [|c s]; [reflexivity|].
  destruct (c =? 0xFEFF); [discriminate|reflexivity].
Qed.

Lemma reads_readString (s : list Z) :
  readable_string s = true ->
  reads readString (encode_string s) (flat_map Utf8.units s).
Proof.
  intros H. pose proof (decode_utf8 s H) as Hd.
  unfold readable_string in H.
  apply andb_true_iff in H as [H _]. apply andb_true_iff in H as [_ Hlen].
  apply Z.leb_le in Hlen.
  eapply reads_ext; [apply readString_eq|].
  unfold encode_string.
  set (len := Z.of_nat (List.length (utf8 s))) in *.
  eapply reads_bind.
  - apply reads_signed with (n := 2%nat) (m := fixed 2 signed_be); [reflexivity|lia|].
    change (2 ^ (8 * Z.of_nat 2 - 1)) with 32768. lia.
  - destruct (Z.leb_spec len 0) as [H0|H0].
    + assert (E : utf8 s = []) by (destruct (utf8 s); [reflexivity|simpl in len; lia]).
      rewrite <- Hd, E. apply reads_ret.
    + rewrite <- Hd. apply reads_fixed. subst len. now rewrite Nat2Z.id.
Qed.

(** *** Arrays *)

Lemma reads_bind_nil {A B} (m : reader A) (f : A -> reader B) bs a b :
  reads m [] a -> reads (f a) bs b -> reads (bind m f) bs b.
Proof. intros Hm Hf. exact (reads_bind m f [] bs a b Hm Hf). Qed.

Lemma reads_typedArray (len : Z) : 0 <= len -> reads (typedArray len) [] tt.
Proof.
  intros H. unfold typedArray. destruct (Z.ltb_spec len 0); [lia|apply reads_ret].
Qed.

Lemma reads_length (n : nat) :
  (Z.of_nat n <? 2 ^ 31) = true -> reads readInt (big_endian 4 (Z.of_nat n)) (Z.of_nat n).
Proof.
  intros H. apply Z.ltb_lt in H. apply reads_readInt. unfold in_range.
  apply andb_true_iff. split; [apply Z.leb_le|apply Z.ltb_lt]; lia.
Qed.

Lemma reads_items (m : reader Z) (n : nat) (ok : Z -> bool) (l : list Z) :
  (forall z, ok z = true -> reads m (big_endian n z) z) ->
  forallb ok l = true ->
  reads (times (Z.to_nat (Z.of_nat (List.length l))) m) (flat_map (big_endian n) l) l.
Proof.
  intros Hm Hl. rewrite Nat2Z.id. rewrite <- (map_id l) at 3.
  apply reads_times. rewrite forallb_forall in Hl. apply Forall_forall.
  intros z Hz. apply Hm, Hl, Hz.
Qed.

Lemma reads_readByteArray (l : list Z) :
  well_formed (TByteArray l) = true ->
  reads readByteArray (encode_payload (TByteArray l)) (VI8 l).
Proof.
  intros H. cbn [well_formed] in H. apply andb_true_iff in H as [Hlen Hl].
  cbn [encode_payload]. unfold readByteArray.
  eapply reads_bind; [apply reads_length, Hlen|].
  eapply reads_bind_nil; [apply reads_typedArray; lia|].
  apply (reads_bind_ret _ VI8). eapply reads_items; [apply reads_readByte|exact Hl].
Qed.

Lemma reads_readIntArray (l : list Z) :
  well_formed (TIntArray l) = true ->
  reads readIntArray (encode_payload (TIntArray l)) (VI32 l).
Proof.
  intros H. cbn [well_formed] in H. apply andb_true_iff in H as [Hlen Hl].
  cbn [encode_payload]. unfold readIntArray.
  eapply reads_bind; [apply reads_length, Hlen|].
  eapply reads_bind_nil; [apply reads_typedArray; lia|].
  apply (reads_bind_ret _ VI32). eapply reads_items; [apply reads_readInt|exact Hl].
Qed.

Lemma reads_readLongArray (l : list Z) :
  well_formed (TLongArray l) = true ->
  reads readLongArray (encode_payload (TLongArray l)) (VArr (map VBig l)).
Proof.
  intros H. cbn [well_formed] in H. apply andb_true_iff in H as [Hlen Hl].
  cbn [encode_payload]. unfold readLongArray.
  eapply reads_bind; [apply reads_length, Hlen|].
  apply (reads_bind_ret _ (fun array => VArr (map VBig array))).
  eapply reads_items; [apply reads_readLong|exact Hl].
Qed.

(** *** Lists and compounds *)

Section Recursive.
Variable rt : Z -> reader JS.value.

Lemma reads_readList_with (elt : Z) (l : list tag) :
  in_range 0 256 elt = true -> (Z.of_nat (List.length l) <? 2 ^ 31) = true ->
  Forall (fun x => reads (rt elt) (encode_payload x) (js_of_tag x)) l ->
  reads (readList_with rt) (encode_payload (TList elt l)) (js_of_tag (TList elt l)).
Proof.
  intros He Hlen Hl. unfold in_range in He. apply andb_true_iff in He as [He1 He2].
  cbn [encode_payload js_of_tag]. unfold readList_with.
  eapply reads_bind; [apply reads_readUByte; lia|].
  eapply reads_bind; [apply reads_length, Hlen|].
  apply (reads_bind_ret _ VArr). rewrite Nat2Z.id. now apply reads_times.
Qed.

Lemma reads_readCompound_loop (l : list (list Z * tag)) (k : nat) (compound : props) :
  (List.length l < k)%nat ->
  Forall (fun m => in_range 1 256 (tag_type (snd m)) = true /\
                   readable_string (fst m) = true /\
                   reads (rt (tag_type (snd m))) (encode_payload (snd m))
                     (js_of_tag (snd m))) l ->
  reads (readCompound_loop rt k compound) (encode_payload (TCompound l))
    (VObj (assemble compound l)).
Proof.
  intros Hk Hl. revert k compound Hk.
  induction Hl as [|[name v] l (Ht & Hn & Hv) _ IH]; intros k compound Hk.
  - destruct k as [|k]; [simpl in Hk; lia|].
    change (encode_payload (TCompound [])) with (big_endian 1 0).
    rewrite <- (app_nil_r (big_endian 1 0)).
    change (readCompound_loop rt (S k) compound) with
      (bind readUByte (fun tagType =>
         if tagType =? TAG_END then ret (VObj compound) else
         bind readString (fun name0 =>
         bind (rt tagType) (fun value =>
         readCompound_loop rt k (obj_set compound name0 value))))).
    eapply reads_bind; [apply reads_readUByte; lia|].
    apply reads_ret.
  - destruct k as [|k]; [simpl in Hk; lia|].
    simpl in Ht, Hn, Hv. unfold in_range in Ht. apply andb_true_iff in Ht as [Ht1 Ht2].
    apply Z.leb_le in Ht1. apply Z.ltb_lt in Ht2.
    replace (encode_payload (TCompound ((name, v) :: l)))
      with (big_endian 1 (tag_type v) ++ encode_string name ++ encode_payload v
            ++ encode_payload (TCompound l))
      by (cbn [encode_payload flat_map fst snd]; now rewrite <- !app_assoc).
    change (readCompound_loop rt (S k) compound) with
      (bind readUByte (fun tagType =>
         if tagType =? TAG_END then ret (VObj compound) else
         bind readString (fun name0 =>
         bind (rt tagType) (fun value =>
         readCompound_loop rt k (obj_set compound name0 value))))).
    eapply reads_bind; [apply reads_readUByte; lia|].
    destruct (Z.eqb_spec (tag_type v) TAG_END) as [E|_]; [unfold TAG_END in E; lia|].
    eapply reads_bind; [apply reads_readString, Hn|].
    eapply reads_bind; [exact Hv|].
    apply IH. simpl in Hk. lia.
Qed.

End Recursive.

(** *** Members written in the order a plain object keeps stay in order *)

Lemma precedes_lookup (o : props) (k : key) :
  forallb (fun e => precedes (fst e) k) o = true -> lookup o k = None.
Proof.
  induction o as [|[k' v'] o IH]; simpl; [reflexivity|].
  intros H. apply andb_true_iff in H as [Hp Ho].
  assert (E : key_eqb k k' = false).
  { destruct k as [i|s], k' as [j|t]; simpl in *; try reflexivity; try discriminate.
    - apply N.ltb_lt in Hp. apply N.eqb_neq. lia.
    - apply negb_true_iff in Hp. unfold str_eqb in *.
      destruct (list_eq_dec Z.eq_dec t s), (list_eq_dec Z.eq_dec s t);
        congruence. }
  rewrite E. now apply IH.
Qed.

(** A key that every key of the object precedes is created last. *)
Lemma create_last (o : props) (k : key) (v : JS.value) :
  forallb (fun e => precedes (fst e) k) o = true ->
  create o k v = o ++ [(k, v)].
Proof.
  induction o as [|[k' v'] o IH]; simpl; [reflexivity|].
  intros H. apply andb_true_iff in H as [Hp Ho].
  destruct k as [i|s], k' as [j|t]; simpl in Hp; try discriminate.
  - rewrite Hp. now rewrite IH.
  - now rewrite IH.
  - now rewrite IH.
Qed.

Lemma member_name_key (name : list Z) :
  member_name name = true ->
  readable_string name = true /\
  str_eqb (flat_map Utf8.units name) (js "__proto__") = false.
Proof.
  unfold member_name. intros H. apply andb_true_iff in H as [Hr Hp].
  now apply negb_true_iff in Hp.
Qed.

Lemma assemble_enumerated (l : list (list Z * tag)) (compound : props) :
  enumerated (map (fun m => key_of (flat_map Utf8.units (fst m))) l) = true ->
  forallb (fun m => member_name (fst m)) l = true ->
  (forall m, In m l ->
     forallb (fun e => precedes (fst e) (key_of (flat_map Utf8.units (fst m))))
       compound = true) ->
  assemble compound l =
  compound ++ map (fun m => (key_of (flat_map Utf8.units (fst m)), js_of_tag (snd m))) l.
Proof.
  revert compound. induction l as [|[name v] l IH]; intros compound He Hp Hc.
  - simpl. now rewrite app_nil_r.
  - cbn [map enumerated fst] in He. apply andb_true_iff in He as [Hn He].
    simpl in Hp. apply andb_true_iff in Hp as [Hpn Hp].
    destruct (member_name_key name Hpn) as (_ & Hproto).
    unfold assemble. simpl fold_left. fold (assemble (obj_set compound
      (flat_map Utf8.units name) (js_of_tag v)) l).
    pose proof (Hc (name, v) (or_introl eq_refl)) as Hc0. cbn [fst] in Hc0.
    assert (Hset : obj_set compound (flat_map Utf8.units name) (js_of_tag v)
                   = compound ++ [(key_of (flat_map Utf8.units name), js_of_tag v)]).
    { unfold obj_set. rewrite Hproto, (precedes_lookup _ _ Hc0).
      now apply create_last. }
    rewrite Hset, IH; [|assumption|assumption|].
    + simpl map. rewrite <- app_assoc. reflexivity.
    + intros m Hm. rewrite forallb_app. apply andb_true_iff. split.
      * apply Hc. now right.
      * cbn [forallb fst]. rewrite andb_true_r.
        rewrite forallb_forall in Hn. apply Hn.
        apply in_map_iff. exists m. auto.
Qed.

(** *** Every well-formed tree *)

Lemma weight_le_sum {A} (f : A -> nat) (l : list A) (x : A) :
  In x l -> (f x <= list_sum (map f l))%nat.
Proof.
  induction l as [|y l IH]; simpl; [contradiction|].
  intros [->|H]; [lia|]. specialize (IH H). lia.
Qed.

Lemma tag_type_range (t : tag) : 0 <= tag_type t <= 12.
Proof. destruct t; simpl; lia. Qed.

(** With the fuel its weight gives, [readTag] reads the payload of a
    well-formed tree wherever it stands, and returns the value the tree
    stands for. *)
Lemma reads_readTag (t : tag) :
  well_formed t = true ->
  reads (readTag (weight t) (tag_type t)) (encode_payload t) (js_of_tag t).
Proof.
  induction t as [ |z|z|z|z|b|b|l|s|elt l IH|l IH|l|l] using tag_induction; intros Hwf.
  - apply reads_ret.
  - apply (reads_bind_ret readByte VInt), reads_readByte, Hwf.
  - apply (reads_bind_ret readShort VInt), reads_readShort, Hwf.
  - apply (reads_bind_ret readInt VInt), reads_readInt, Hwf.
  - apply (reads_bind_ret readLong VBig), reads_readLong, Hwf.
  - apply (reads_bind_ret readFloat VNum), reads_readFloat, Hwf.
  - apply (reads_bind_ret readDouble VNum), reads_readDouble, Hwf.
  - apply reads_readByteArray, Hwf.
  - apply (reads_bind_ret readString VStr), reads_readString, Hwf.
  - cbn [well_formed] in Hwf. apply andb_true_iff in Hwf as [Hwf Hl].
    apply andb_true_iff in Hwf as [He Hlen].
    change (reads (readList_with (readTag (list_sum (map weight l))))
              (encode_payload (TList elt l)) (js_of_tag (TList elt l))).
    apply reads_readList_with; [assumption|assumption|].
    rewrite forallb_forall in Hl. rewrite Forall_forall in IH |- *.
    intros x Hx. specialize (Hl x Hx). apply andb_true_iff in Hl as [Ht Hw].
    apply Z.eqb_eq in Ht. rewrite <- Ht.
    apply reads_fuel with (fuel := weight x); [now apply weight_le_sum|].
    now apply IH.
  - cbn [well_formed] in Hwf. apply andb_true_iff in Hwf as [Hd Hl].
    set (n := (List.length l + list_sum (map (fun m => weight (snd m)) l))%nat).
    change (reads (readCompound_loop (readTag n) (S n) [])
              (encode_payload (TCompound l)) (js_of_tag (TCompound l))).
    cbn [js_of_tag].
    rewrite <- (app_nil_l (map _ l)), <- assemble_enumerated;
      [| assumption | | reflexivity].
    + apply reads_readCompound_loop; [subst n; lia|].
      rewrite forallb_forall in Hl. rewrite Forall_forall in IH |- *.
      intros m Hm. specialize (Hl m Hm).
      apply andb_true_iff in Hl as [Hl Hw]. apply andb_true_iff in Hl as [Hp Ht].
      apply negb_true_iff, Z.eqb_neq in Ht.
      pose proof (tag_type_range (snd m)).
      split; [unfold in_range; apply andb_true_iff; split;
              [apply Z.leb_le|apply Z.ltb_lt]; lia|].
      split; [apply (member_name_key _ Hp)|].
      apply reads_fuel with (fuel := weight (snd m)).
      * pose proof (weight_le_sum (fun m => weight (snd m)) l m Hm). subst n. lia.
      * now apply IH.
    + rewrite forallb_forall in Hl |- *. intros m Hm. specialize (Hl m Hm).
      apply andb_true_iff in Hl as [Hl _]. now apply andb_true_iff in Hl as [Hp _].
  - apply reads_readIntArray, Hwf.
  - apply reads_readLongArray, Hwf.
Qed.

End EncodingFacts.

(* ===================================================================== *)
(** ** Repeated member names *)

Module MemberFacts.
Import NBT Spec BytesFacts ReaderFacts EntityFacts CompoundFacts EncodingFacts.

Lemma assemble_snoc (compound : props) (l : list (list Z * tag)) (m : list Z * tag) :
  assemble compound (l ++ [m])
  = obj_set (assemble compound l) (flat_map Utf8.units (fst m)) (js_of_tag (snd m)).
Proof. unfold assemble. now rewrite fold_left_app. Qed.

Lemma last_write_snoc (l : list (list Z * tag)) (m : list Z * tag) (k : key) :
  last_write (l ++ [m]) k
  = if key_eqb k (key_of (flat_map Utf8.units (fst m)))
    then Some (js_of_tag (snd m)) else last_write l k.
Proof. unfold last_write. now rewrite fold_left_app. Qed.

Lemma obj_set_proto (o : props) (v : JS.value) : obj_set o (js "__proto__") v = o.
Proof. reflexivity. Qed.

(** Whatever the members and however their names repeat, the object
    the model builds from them lists no key twice, and binds every key
    but [__proto__] to the value written last under it (so does the
    source while no array or compound is written under [__proto__]). *)
Lemma assemble_last_write_wins (l : list (list Z * tag)) :
  NoDup (map fst (assemble [] l)) /\
  forall k, k <> Name (js "__proto__") -> lookup (assemble [] l) k = last_write l k.
Proof.
  induction l as [|m l [IHn IHl]] using rev_ind.
  - split; [constructor|reflexivity].
  - rewrite assemble_snoc.
    destruct (list_eq_dec Z.eq_dec (flat_map Utf8.units (fst m)) (js "__proto__"))
      as [E|Hne].
    + rewrite E, obj_set_proto. split; [assumption|].
      intros k Hk. rewrite last_write_snoc, E.
      change (key_of (js "__proto__")) with (Name (js "__proto__")).
      rewrite (proj2 (key_eqb_neq _ _) Hk). now apply IHl.
    + destruct (obj_set_last_write_wins (assemble [] l) _ (js_of_tag (snd m)) Hne)
        as (Hsame & Hother & Hnd).
      split; [now apply Hnd|].
      intros k Hk. rewrite last_write_snoc.
      destruct (key_eqb k (key_of (flat_map Utf8.units (fst m)))) eqn:Ek.
      * apply key_eqb_eq in Ek. subst k. exact Hsame.
      * apply key_eqb_neq in Ek. rewrite (Hother k Ek). now apply IHl.
Qed.

(** Decoding a compound never fails on a repeated name: the members are
    written into the object one after the other. *)
Lemma reads_members (l : list (list Z * tag)) :
  readable_members l = true ->
  reads (readCompound (List.length l + list_sum (map (fun m => weight (snd m)) l)))
    (encode_payload (TCompound l)) (VObj (assemble [] l)).
Proof.
  intros H. unfold readable_members in H. rewrite forallb_forall in H.
  unfold readCompound. apply reads_readCompound_loop; [lia|].
  apply Forall_forall. intros m Hm. specialize (H m Hm).
  apply andb_true_iff in H as [H Hw]. apply andb_true_iff in H as [Hr Ht].
  apply negb_true_iff, Z.eqb_neq in Ht. pose proof (tag_type_range (snd m)).
  split; [unfold in_range; apply andb_true_iff; split;
          [apply Z.leb_le|apply Z.ltb_lt]; lia|].
  split; [assumption|].
  apply reads_fuel with (fuel := weight (snd m)); [|now apply reads_readTag].
  pose proof (weight_le_sum (fun m => weight (snd m)) l m Hm). lia.
Qed.

End MemberFacts.

(* ===================================================================== *)
(** ** Round trip *)

Module RoundTripFacts.
Import NBT Spec BytesFacts ReaderFacts EncodingFacts.

(** C3, as stated, fails on four kinds of tree. A compound whose
    members are not in the order a plain object enumerates its keys, the
    array indices first and ascending: the members [b] and [1], in that
    order, decode to an object that enumerates [1] first, and the members
    [2] and [1] to one that enumerates [1] first. A member named
    [__proto__] is not in the decoded object. A string that starts with
    U+FEFF decodes without it. A string of 32768 bytes has the length
    prefix [80 00], read as -32768: it decodes to the empty string, its
    bytes are read as the next members, and the decoder fails. *)
Lemma round_trip_counterexample :
  let order := [(js "b", TByte 1); (js "1", TByte 2)] in
  let descending := [(js "2", TByte 1); (js "1", TByte 2)] in
  let proto := [(js "__proto__", TByte 1)] in
  let bom := [(js "s", TString [0xFEFF; 97])] in
  let long := [(js "s", TString (repeat 65 (Z.to_nat 32768)))] in
  (parse (encode [] order)
   = Ok {| name := []; value := VObj [(Index 1, VInt 2); (Name (js "b"), VInt 1)] |} /\
   js_of_tag (TCompound order) = VObj [(Name (js "b"), VInt 1); (Index 1, VInt 2)]) /\
  (parse (encode [] descending)
   = Ok {| name := []; value := VObj [(Index 1, VInt 2); (Index 2, VInt 1)] |} /\
   js_of_tag (TCompound descending) = VObj [(Index 2, VInt 1); (Index 1, VInt 2)]) /\
  (parse (encode [] proto) = Ok {| name := []; value := VObj [] |} /\
   js_of_tag (TCompound proto) = VObj [(Name (js "__proto__"), VInt 1)]) /\
  (parse (encode [] bom)
   = Ok {| name := []; value := VObj [(Name (js "s"), VStr [97])] |} /\
   js_of_tag (TCompound bom) = VObj [(Name (js "s"), VStr [0xFEFF; 97])]) /\
  parse (encode [] long) = Throw (UnknownTagType 65).
Proof. intros order descending proto bom long. repeat split; vm_compute; reflexivity. Qed.

Lemma reads_parse_from (rootName : list Z) (members : list (list Z * tag)) :
  readable_string rootName = true -> well_formed (TCompound members) = true ->
  reads (parse_from (weight (TCompound members))) (encode rootName members)
    {| name := flat_map Utf8.units rootName; value := js_of_tag (TCompound members) |}.
Proof.
  intros Hn Hwf. unfold parse_from, encode.
  eapply reads_bind; [apply reads_readUByte; lia|].
  change (negb (10 =? TAG_COMPOUND)) with false. cbv iota.
  eapply reads_bind; [apply reads_readString, Hn|].
  apply (reads_bind_ret _ (fun root => {| name := flat_map Utf8.units rootName;
                                          value := root |})).
  pose proof (reads_readTag (TCompound members) Hwf) as H.
  set (F := weight (TCompound members)) in *.
  intros pre rest.
  pose proof (refines_readCompound_loop (readTag (F - 1)) (readTag F)
                (fun t => refines_readTag (F - 1) F t ltac:(lia)) F (S F) []
                ltac:(lia) (pre ++ encode_payload (TCompound members) ++ rest)
                (List.length pre)) as R.
  assert (HF : readTag F 10 = readCompound_loop (readTag (F - 1)) F []).
  { subst F. cbn [weight]. rewrite Nat.sub_succ, Nat.sub_0_r. reflexivity. }
  change (tag_type (TCompound members)) with 10 in H. rewrite HF in H.
  unfold readCompound. rewrite R; [apply H|]. rewrite H. discriminate.
Qed.

(** C3, amended. For every tag tree built from the variants of the data
    model, scalars within the range of their width, in which the items of
    a list have its declared element type, the members of a compound are
    not end tags, none is named [__proto__], no name is repeated and the
    members named by array indices (canonical decimal numerals below
    2^32-1) come first and in ascending order, and every string (names
    included) is a sequence of Unicode scalar values of at most 32767
    bytes of UTF-8 that does not start with U+FEFF: the decoder reads the
    encoding of the tree wherever it stands in a buffer, returns the
    value the tree stands for (the scalar values, the lengths and the
    order of lists and arrays, the members of compounds in order) and
    stops right after it; and [parse] of an encoded document returns its
    root name and that value. The recursion of the model is bounded by
    its fuel, which is always enough; that of the source by the call
    stack of the engine: the statement is for trees nested no deeper
    than that stack allows, deeper ones end in the RangeError of the
    engine. *)
Theorem round_trip (rootName : list Z) (members : list (list Z * tag)) :
  readable_string rootName = true -> well_formed (TCompound members) = true ->
  (forall t, well_formed t = true ->
             reads (readTag (weight t) (tag_type t)) (encode_payload t) (js_of_tag t)) /\
  parse (encode rootName members)
  = Ok {| name := flat_map Utf8.units rootName; value := js_of_tag (TCompound members) |}.
Proof.
  intros Hn Hwf. split; [exact reads_readTag|].
  pose proof (reads_parse_from rootName members Hn Hwf [] []) as H.
  rewrite app_nil_r in H. simpl List.length in H. simpl app in H.
  set (buffer := encode rootName members) in *.
  set (F := weight (TCompound members)) in *.
  assert (E : parse_from (List.length buffer) buffer 0%nat = parse_from F buffer 0%nat).
  { destruct (Nat.le_ge_cases (List.length buffer) F) as [Hle|Hle].
    - symmetry. apply (refines_parse_from _ _ Hle), parse_from_total.
    - apply (refines_parse_from _ _ Hle). rewrite H. discriminate. }
  unfold parse, parse_run. rewrite E, H. reflexivity.
Qed.

(** The theorem at a root with a list of two compounds, a compound keyed
    [0] to [3], a compound with the members [1] and [b], a long array and
    a string outside the basic plane. *)
Lemma round_trip_witness :
  let members :=
    [(js "list", TList 10 [TCompound [(js "x", TString [0x1F600; 0xE9])]; TCompound []]);
     (js "id", TCompound [(js "0", TInt (-737154161)); (js "1", TInt 1675314149);
                          (js "2", TInt (-1429125736)); (js "3", TInt (-1059509461))]);
     (js "mixed", TCompound [(js "1", TByte 2); (js "b", TByte 1)]);
     (js "longs", TLongArray [-1; 2 ^ 62]);
     (js "half", TFloat 0x3F000000)] in
  readable_string (js "root") = true /\ well_formed (TCompound members) = true /\
  parse (encode (js "root") members)
  = Ok {| name := js "root";
          value := VObj [(Name (js "list"),
                          VArr [VObj [(Name (js "x"), VStr [0xD83D; 0xDE00; 0xE9])];
                                VObj []]);
                         (Name (js "id"),
                          VObj [(Index 0, VInt (-737154161)); (Index 1, VInt 1675314149);
                                (Index 2, VInt (-1429125736));
                                (Index 3, VInt (-1059509461))]);
                         (Name (js "mixed"),
                          VObj [(Index 1, VInt 2); (Name (js "b"), VInt 1)]);
                         (Name (js "longs"), VArr [VBig (-1); VBig (2 ^ 62)]);
                         (Name (js "half"), VNum (NFrac false 1 1))] |}.
Proof.
  intros members.
  assert (H1 : readable_string (js "root") = true) by (vm_compute; reflexivity).
  assert (H2 : well_formed (TCompound members) = true) by (vm_compute; reflexivity).
  split; [exact H1|]. split; [exact H2|].
  exact (proj2 (round_trip (js "root") members H1 H2)).
Defined.

End RoundTripFacts.

(* ===================================================================== *)
(** ** What the reader returns and throws *)

Module OutcomeFacts.
Import NBT Spec Props BytesFacts ReaderFacts.

Lemma triple_ext {A} (m m' : reader A) Q E :
  (forall buf off, m buf off = m' buf off) -> triple m' Q E -> triple m Q E.
Proof. intros H T buf off. rewrite H. apply T. Qed.

Lemma triple_weaken {A} (m : reader A) (Q Q' : A -> Prop) (E E' : error -> Prop) :
  (forall a, Q a -> Q' a) -> (forall e, E e -> E' e) -> triple m Q E -> triple m Q' E'.
Proof.
  intros HQ HE T buf off. specialize (T buf off).
  destruct (m buf off) as [[a off']|e|]; auto.
Qed.

Lemma triple_ret {A} (a : A) (Q : A -> Prop) E : Q a -> triple (ret a) Q E.
Proof. intros H buf off. exact H. Qed.

Lemma triple_throw {A} (e : error) (Q : A -> Prop) (E : error -> Prop) :
  E e -> triple (@throw A e) Q E.
Proof. intros H buf off. exact H. Qed.

Lemma triple_bind {A B} (m : reader A) (f : A -> reader B) Q R E :
  triple m Q E -> (forall a, Q a -> triple (f a) R E) -> triple (bind m f) R E.
Proof.
  intros Tm Tf buf off. unfold bind. specialize (Tm buf off).
  destruct (m buf off) as [[a off']|e|]; [|assumption|exact I].
  apply (Tf a Tm).
Qed.

Lemma triple_fixed {A} (n : nat) (conv : list byte -> A) (Q : A -> Prop) (E : error -> Prop) :
  (forall bs, List.length bs = n -> Q (conv bs)) -> E RangeError ->
  triple (fixed n conv) Q E.
Proof.
  intros HQ HE buf off. unfold fixed.
  destruct (slice buf off n) as [bs|] eqn:Hs; [|assumption].
  apply HQ. now apply slice_some in Hs.
Qed.

Lemma triple_times {A} (n : nat) (m : reader A) Q E :
  triple m Q E -> triple (times n m) (fun l => List.length l = n /\ Forall Q l) E.
Proof.
  intros T. induction n as [|n IH]; simpl.
  - apply triple_ret. split; [reflexivity|constructor].
  - eapply triple_bind; [exact T|]. intros x Hx.
    eapply triple_bind; [exact IH|]. intros xs [Hl Hxs].
    apply triple_ret. split; [simpl; congruence|now constructor].
Qed.

(** *** Ranges *)

Lemma signed_be_range (bs : list byte) :
  bs <> [] ->
  - 2 ^ (8 * Z.of_nat (List.length bs) - 1) <= signed_be bs
  < 2 ^ (8 * Z.of_nat (List.length bs) - 1).
Proof.
  intros Hne. unfold signed_be.
  pose proof (unsigned_be_range bs) as Hr.
  assert (Hl : 0 < Z.of_nat (List.length bs)) by (destruct bs; [contradiction|simpl; lia]).
  set (w := 8 * Z.of_nat (List.length bs)) in *.
  assert (Hw : 2 ^ w = 2 * 2 ^ (w - 1)).
  { rewrite <- Z.pow_succ_r by lia. f_equal. lia. }
  destruct (Z.ltb_spec (unsigned_be bs) (2 ^ (w - 1))); lia.
Qed.

Lemma readUByte_range (Q : Z -> Prop) (E : error -> Prop) :
  (forall t, 0 <= t <= 255 -> Q t) -> E RangeError -> triple readUByte Q E.
Proof.
  intros HQ HE. eapply triple_ext; [apply readUByte_fixed|].
  apply triple_fixed; [|assumption]. intros bs Hl. apply HQ.
  pose proof (unsigned_be_range bs) as Hr. rewrite Hl in Hr.
  change (2 ^ (8 * Z.of_nat 1)) with 256 in Hr. lia.
Qed.

Lemma readByte_range (E : error -> Prop) :
  E RangeError -> triple readByte (fun z => in_range (-128) 128 z = true) E.
Proof.
  intros HE. eapply triple_ext; [apply readByte_fixed|].
  apply triple_fixed; [|assumption]. intros bs Hl.
  pose proof (signed_be_range bs ltac:(destruct bs; [discriminate|congruence])) as Hr.
  rewrite Hl in Hr. change (2 ^ (8 * Z.of_nat 1 - 1)) with 128 in Hr.
  unfold in_range. apply andb_true_iff. split; [apply Z.leb_le|apply Z.ltb_lt]; lia.
Qed.

Lemma readInt_range (E : error -> Prop) :
  E RangeError -> triple readInt (fun z => in_range (- 2 ^ 31) (2 ^ 31) z = true) E.
Proof.
  intros HE. eapply triple_ext; [apply readInt_fixed|].
  apply triple_fixed; [|assumption]. intros bs Hl.
  pose proof (signed_be_range bs ltac:(destruct bs; [discriminate|congruence])) as Hr.
  rewrite Hl in Hr. change (2 ^ (8 * Z.of_nat 4 - 1)) with (2 ^ 31) in Hr.
  unfold in_range. apply andb_true_iff. split; [apply Z.leb_le|apply Z.ltb_lt]; lia.
Qed.

Lemma long_range (bs : list byte) :
  List.length bs = 8%nat ->
  in_range (- 2 ^ 63) (2 ^ 63)
    (Z.lor (Z.shiftl (signed_be (firstn 4 bs)) 32) (unsigned_be (skipn 4 bs))) = true.
Proof.
  intros Hl.
  assert (L1 : List.length (firstn 4 bs) = 4%nat) by (rewrite length_firstn; lia).
  assert (L2 : List.length (skipn 4 bs) = 4%nat) by (rewrite length_skipn; lia).
  pose proof (signed_be_range (firstn 4 bs)
                ltac:(destruct (firstn 4 bs); [discriminate|congruence])) as Hh.
  pose proof (unsigned_be_range (skipn 4 bs)) as Hlo.
  rewrite L1 in Hh. rewrite L2 in Hlo.
  change (2 ^ (8 * Z.of_nat 4 - 1)) with (2 ^ 31) in Hh.
  change (2 ^ (8 * Z.of_nat 4)) with (2 ^ 32) in Hlo.
  rewrite lor_shiftl_add by lia.
  unfold in_range. apply andb_true_iff. split; [apply Z.leb_le|apply Z.ltb_lt]; lia.
Qed.

Lemma readLong_range (E : error -> Prop) :
  E RangeError -> triple readLong (fun z => in_range (- 2 ^ 63) (2 ^ 63) z = true) E.
Proof.
  intros HE. eapply triple_ext; [apply readLong_fixed|].
  apply triple_fixed; [|assumption]. intros bs Hl. now apply long_range.
Qed.

Lemma triple_any_fixed {A} (n : nat) (conv : list byte -> A) (E : error -> Prop) :
  E RangeError -> triple (fixed n conv) (fun _ => True) E.
Proof. intros. apply triple_fixed; auto. Qed.

Lemma readString_any (E : error -> Prop) :
  E RangeError -> triple readString (fun _ => True) E.
Proof.
  intros HE. eapply triple_ext; [apply readString_eq|].
  eapply triple_bind; [apply triple_any_fixed; assumption|]. intros len _.
  destruct (len <=? 0); [now apply triple_ret|now apply triple_any_fixed].
Qed.


(** *** The recursive readers *)

Lemma kind_same (t : Z) (a b : JS.value) :
  tag_kind t a = true -> tag_kind t b = true -> same_kind a b = true.
Proof.
  destruct a, b; simpl; intros Ha Hb; try reflexivity; try discriminate;
    repeat match goal with
           | H : (_ || _) = true |- _ => apply orb_true_iff in H as [H|H]
           | H : (_ =? _) = true |- _ => apply Z.eqb_eq in H
           | H : false = true |- _ => discriminate H
           end; subst; discriminate.
Qed.

Lemma shaped_items (t : Z) (l : list JS.value) :
  Forall (good t) l -> shaped (VArr l) = true.
Proof.
  intros H. simpl. apply andb_true_iff. split.
  - destruct l as [|x rest]; [reflexivity|].
    inversion H as [|? ? [Hx _] Hrest]; subst.
    apply forallb_forall. intros y Hy.
    rewrite Forall_forall in Hrest. destruct (Hrest y Hy) as [Hk _].
    now apply (kind_same t).
  - apply forallb_forall. rewrite Forall_forall in H. intros y Hy. now apply H.
Qed.

Lemma members_overwrite (p : JS.value -> bool) (o : props) (k : key) (v : JS.value) :
  forallb (fun kv => p (snd kv)) o = true -> p v = true ->
  forallb (fun kv => p (snd kv)) (overwrite o k v) = true.
Proof.
  intros Ho Hv. induction o as [|[k' v'] o IH]; simpl in *; [reflexivity|].
  apply andb_true_iff in Ho as [H1 H2].
  destruct (key_eqb k k'); simpl; rewrite ?Hv, ?H1, ?H2, ?IH; auto.
Qed.

Lemma members_create (p : JS.value -> bool) (o : props) (k : key) (v : JS.value) :
  forallb (fun kv => p (snd kv)) o = true -> p v = true ->
  forallb (fun kv => p (snd kv)) (create o k v) = true.
Proof.
  intros Ho Hv. induction o as [|[k' v'] o IH]; simpl in *; [now rewrite Hv|].
  apply andb_true_iff in Ho as [H1 H2].
  destruct k as [i|s], k' as [j|s']; try destruct (j <? i)%N; simpl;
    rewrite ?Hv, ?H1, ?H2, ?IH; auto.
Qed.

Lemma members_obj_set (p : JS.value -> bool) (o : props) (name : jstring) (v : JS.value) :
  forallb (fun kv => p (snd kv)) o = true -> p v = true ->
  forallb (fun kv => p (snd kv)) (obj_set o name v) = true.
Proof.
  intros Ho Hv. unfold obj_set.
  destruct (str_eqb name (js "__proto__")); [assumption|].
  destruct (lookup o (key_of name)); [now apply members_overwrite|now apply members_create].
Qed.

Section Recursive.

Variable rt : Z -> reader JS.value.
Hypothesis rt_good : forall t, 0 <= t <= 255 -> triple (rt t) (good t) reader_error.

Lemma range_error : reader_error RangeError.
Proof. now left. Qed.

Lemma readList_with_good : triple (readList_with rt) (good 9) reader_error.
Proof.
  unfold readList_with.
  eapply triple_bind; [apply (readUByte_range (fun t => 0 <= t <= 255)); auto using range_error|].
  intros itemType Ht.
  eapply triple_bind; [apply readInt_range, range_error|]. intros length _.
  eapply triple_bind; [apply triple_times, rt_good, Ht|]. intros list [_ Hl].
  apply triple_ret. split; [reflexivity|]. now apply (shaped_items itemType).
Qed.

Lemma readCompound_loop_good (k : nat) (compound : props) :
  shaped (VObj compound) = true ->
  triple (readCompound_loop rt k compound) (good 10) reader_error.
Proof.
  revert compound. induction k as [|k IH]; intros compound Hc; simpl.
  - intros buf off. exact I.
  - eapply triple_bind;
      [apply (readUByte_range (fun t => 0 <= t <= 255)); auto using range_error|].
    intros tagType Ht.
    destruct (Z.eqb_spec tagType TAG_END) as [->|Hne].
    + apply triple_ret. split; [reflexivity|assumption].
    + eapply triple_bind; [apply readString_any, range_error|]. intros name _.
      eapply triple_bind; [apply rt_good, Ht|]. intros v [Hk Hs].
      apply IH. simpl in *.
      apply (members_obj_set (fun x => negb (is_null x) && shaped x)); [assumption|].
      rewrite Hs, andb_true_r.
      destruct v; try reflexivity. simpl in Hk. apply Z.eqb_eq in Hk. contradiction.
Qed.

Lemma triple_value {A} (m : reader A) (f : A -> JS.value) (Q : A -> Prop) (t : Z) :
  triple m Q reader_error -> (forall a, Q a -> good t (f a)) ->
  triple (v <- m ;; ret (f v)) (good t) reader_error.
Proof.
  intros T H. eapply triple_bind; [exact T|]. intros a Ha. apply triple_ret. auto.
Qed.

Lemma readTag_with_good (rc : reader JS.value) (t : Z) :
  0 <= t <= 255 -> triple rc (good 10) reader_error ->
  triple (readTag_with rt rc t) (good t) reader_error.
Proof.
  intros Ht Hrc. unfold readTag_with.
  repeat match goal with
         | |- triple (if ?x =? ?c then _ else _) _ _ =>
             destruct (Z.eqb_spec x c) as [->|?]
         end.
  - apply triple_ret. now split.
  - apply (triple_value _ _ (fun _ => True)); [|now split].
    eapply triple_weaken; [| |apply readByte_range, range_error]; auto.
  - apply (triple_value _ _ (fun _ => True)); [|now split].
    eapply triple_ext; [apply readShort_fixed|]. apply triple_any_fixed, range_error.
  - apply (triple_value _ _ (fun _ => True)); [|now split].
    eapply triple_weaken; [| |apply readInt_range, range_error]; auto.
  - apply (triple_value _ _ (fun z => in_range (- 2 ^ 63) (2 ^ 63) z = true));
      [apply readLong_range, range_error|now split].
  - apply (triple_value _ _ (fun _ => True)); [|now split].
    eapply triple_ext; [apply readFloat_fixed|]. apply triple_any_fixed, range_error.
  - apply (triple_value _ _ (fun _ => True)); [|now split].
    eapply triple_ext; [apply readDouble_fixed|]. apply triple_any_fixed, range_error.
  - unfold readByteArray.
    eapply triple_bind; [apply readInt_range, range_error|]. intros length _.
    eapply triple_bind with (Q := fun _ => True).
    { unfold typedArray. destruct (length <? 0);
        [apply triple_throw, range_error|now apply triple_ret]. }
    intros _ _.
    eapply triple_bind; [apply triple_times, readByte_range, range_error|].
    intros array [_ Ha]. apply triple_ret. split; [reflexivity|].
    simpl. apply forallb_forall. rewrite Forall_forall in Ha. exact Ha.
  - apply (triple_value _ _ (fun _ => True)); [|now split].
    apply readString_any, range_error.
  - apply readList_with_good.
  - exact Hrc.
  - unfold readIntArray.
    eapply triple_bind; [apply readInt_range, range_error|]. intros length _.
    eapply triple_bind with (Q := fun _ => True).
    { unfold typedArray. destruct (length <? 0);
        [apply triple_throw, range_error|now apply triple_ret]. }
    intros _ _.
    eapply triple_bind; [apply triple_times, readInt_range, range_error|].
    intros array [_ Ha]. apply triple_ret. split; [reflexivity|].
    simpl. apply forallb_forall. rewrite Forall_forall in Ha. exact Ha.
  - unfold readLongArray.
    eapply triple_bind; [apply readInt_range, range_error|]. intros length _.
    eapply triple_bind; [apply triple_times, readLong_range, range_error|].
    intros array [_ Ha]. apply triple_ret. split; [reflexivity|].
    simpl. apply andb_true_iff. split.
    + destruct array; [reflexivity|]. simpl. apply forallb_forall.
      intros y Hy. apply in_map_iff in Hy as (w & <- & _). reflexivity.
    + apply forallb_forall. intros y Hy. apply in_map_iff in Hy as (w & <- & Hz).
      rewrite Forall_forall in Ha. simpl. now apply Ha.
  - apply triple_throw. right. exists t. split; [reflexivity|].
    unfold TAG_END, TAG_BYTE, TAG_SHORT, TAG_INT, TAG_LONG, TAG_FLOAT, TAG_DOUBLE,
      TAG_BYTE_ARRAY, TAG_STRING, TAG_LIST, TAG_COMPOUND, TAG_INT_ARRAY,
      TAG_LONG_ARRAY in *. lia.
Qed.

End Recursive.

Lemma readTag_good (fuel : nat) (t : Z) :
  0 <= t <= 255 -> triple (readTag fuel t) (good t) reader_error.
Proof.
  revert t. induction fuel as [|fuel IH]; intros t Ht.
  - intros buf off. exact I.
  - rewrite readTag_S. apply readTag_with_good; [assumption|assumption|].
    now apply readCompound_loop_good.
Qed.

Lemma readCompound_good (fuel : nat) : triple (readCompound fuel) (good 10) reader_error.
Proof.
  unfold readCompound. apply readCompound_loop_good; [|reflexivity].
  intros t Ht. now apply readTag_good.
Qed.

Lemma parse_from_good (fuel : nat) :
  triple (parse_from fuel)
    (fun doc => exists o, value doc = VObj o /\ shaped (VObj o) = true) parse_error.
Proof.
  unfold parse_from.
  eapply triple_bind;
    [apply (readUByte_range (fun t => 0 <= t <= 255)); [auto|left; apply range_error]|].
  intros rootType Ht.
  destruct (Z.eqb_spec rootType TAG_COMPOUND) as [->|Hne]; simpl negb; cbv iota.
  - eapply triple_bind; [apply readString_any; left; apply range_error|].
    intros rootName _.
    eapply triple_bind;
      [eapply triple_weaken; [| |apply (readCompound_good fuel)];
       [intros a Ha; exact Ha|intros e He; now left]|].
    intros root [Hk Hs]. apply triple_ret. simpl.
    destruct root; try discriminate. eauto.
  - apply triple_throw. right. exists rootType. auto.
Qed.

End OutcomeFacts.

(* ===================================================================== *)
(** ** The arrays in closed form *)

Module ArrayFacts.
Import NBT Spec Props BytesFacts ReaderFacts.

Lemma times_ext {A} (n : nat) (m m' : reader A) :
  (forall buf off, m buf off = m' buf off) ->
  forall buf off, times n m buf off = times n m' buf off.
Proof.
  intros H. induction n as [|n IH]; intros buf off; simpl; [reflexivity|].
  unfold bind. rewrite H. destruct (m' buf off) as [[a off']| |]; try reflexivity.
  now rewrite IH.
Qed.

Lemma chunks_app {A} (k : nat) (conv : list byte -> A) (n : nat) (a b : list byte) :
  List.length a = k ->
  chunks k conv (S n) (a ++ b) = conv a :: chunks k conv n b.
Proof.
  intros H. simpl. rewrite firstn_app, skipn_app, H, Nat.sub_diag.
  rewrite firstn_O, skipn_O, app_nil_r.
  rewrite <- H, firstn_all, skipn_all. reflexivity.
Qed.

Lemma times_fixed {A} (k : nat) (conv : list byte -> A) (n : nat) buf off :
  (off <= List.length buf)%nat ->
  times n (fixed k conv) buf off = items k conv n buf off.
Proof.
  revert off. induction n as [|n IH]; intros off Hoff; unfold items.
  - simpl. unfold ret, slice. rewrite Nat.add_0_r.
    destruct (Nat.leb_spec off (List.length buf)) as [H|H]; [reflexivity|lia].
  - cbn [times]. unfold bind at 1. unfold fixed at 1.
    replace (S n * k)%nat with (k + n * k)%nat by lia.
    rewrite slice_split.
    destruct (slice buf off k) as [a|] eqn:Ha; [|reflexivity].
    pose proof (slice_some _ _ _ _ Ha) as (Hle & _ & Hla).
    unfold bind. rewrite IH by lia. unfold items.
    destruct (slice buf (off + k) (n * k)) as [b|]; [|reflexivity].
    unfold ret. rewrite chunks_app by assumption. f_equal. f_equal. lia.
Qed.

Lemma chunks_bytes {A} (conv : list byte -> A) (bs : list byte) :
  chunks 1 conv (List.length bs) bs = map (fun b => conv [b]) bs.
Proof. induction bs as [|b bs IH]; simpl; [reflexivity|]. now rewrite IH. Qed.

Lemma unsigned_be_app (a b : list byte) :
  unsigned_be (a ++ b) = unsigned_be a * 2 ^ (8 * Z.of_nat (List.length b)) + unsigned_be b.
Proof.
  induction b as [|x b IH] using rev_ind.
  - rewrite app_nil_r. simpl. change (unsigned_be []) with 0. lia.
  - rewrite app_assoc, !unsigned_be_snoc, IH, length_app. simpl List.length.
    replace (8 * Z.of_nat (List.length b + 1)) with (8 * Z.of_nat (List.length b) + 8) by lia.
    rewrite Z.pow_add_r by lia. change (2 ^ 8) with 256. lia.
Qed.

(** The two halves [readLong] combines are the signed reading of the
    eight bytes. *)
Lemma long_signed (bs : list byte) :
  List.length bs = 8%nat ->
  Z.lor (Z.shiftl (signed_be (firstn 4 bs)) 32) (unsigned_be (skipn 4 bs)) = signed_be bs.
Proof.
  intros Hl.
  assert (L1 : List.length (firstn 4 bs) = 4%nat) by (rewrite length_firstn; lia).
  assert (L2 : List.length (skipn 4 bs) = 4%nat) by (rewrite length_skipn; lia).
  pose proof (unsigned_be_range (firstn 4 bs)) as Hh.
  pose proof (unsigned_be_range (skipn 4 bs)) as Hlo.
  rewrite L1 in Hh. rewrite L2 in Hlo.
  change (2 ^ (8 * Z.of_nat 4)) with 4294967296 in *.
  rewrite lor_shiftl_add by (change (2 ^ 32) with 4294967296; lia).
  assert (Hu : unsigned_be bs
               = unsigned_be (firstn 4 bs) * 4294967296 + unsigned_be (skipn 4 bs)).
  { rewrite <- (firstn_skipn 4 bs) at 1. now rewrite unsigned_be_app, L2. }
  unfold signed_be. rewrite Hu, Hl, L1.
  change (2 ^ (8 * Z.of_nat 4 - 1)) with 2147483648.
  change (2 ^ (8 * Z.of_nat 4)) with 4294967296.
  change (2 ^ (8 * Z.of_nat 8 - 1)) with 9223372036854775808.
  change (2 ^ (8 * Z.of_nat 8)) with 18446744073709551616.
  change (2 ^ 32) with 4294967296.
  destruct (Z.ltb_spec (unsigned_be (firstn 4 bs)) 2147483648);
    destruct (Z.ltb_spec (unsigned_be (firstn 4 bs) * 4294967296
                          + unsigned_be (skipn 4 bs)) 9223372036854775808); lia.
Qed.

Lemma readInt_declared buf off :
  readInt buf off =
  match declared buf off with
  | Some n => Ok (n, (off + 4)%nat)
  | None => Throw RangeError
  end.
Proof.
  rewrite readInt_fixed. unfold fixed, declared.
  now destruct (slice buf off 4).
Qed.

Lemma declared_some buf off n : declared buf off = Some n -> (off + 4 <= List.length buf)%nat.
Proof.
  unfold declared. destruct (slice buf off 4) eqn:E; [|discriminate].
  intros _. now apply slice_some in E.
Qed.

Lemma chunks_ext {A} (k : nat) (f g : list byte -> A) (n : nat) (bs : list byte) :
  (forall x, List.length x = k -> f x = g x) -> (n * k <= List.length bs)%nat ->
  chunks k f n bs = chunks k g n bs.
Proof.
  intros H. revert bs. induction n as [|n IH]; intros bs Hl; simpl; [reflexivity|].
  rewrite H by (rewrite length_firstn; lia).
  rewrite IH by (rewrite length_skipn; lia). reflexivity.
Qed.

(** X4. [readByteArray] in one step. It throws a RangeError when fewer
    than four bytes are left for the length, when the length is
    negative, and when fewer bytes than the length follow; otherwise it
    returns the bytes that follow, each read as a signed byte, and
    leaves the cursor right after them. *)
Theorem readByteArray_closed (buf : list byte) (off : nat) :
  readByteArray buf off =
  match declared buf off with
  | None => Throw RangeError
  | Some length =>
      if length <? 0 then Throw RangeError else
      match slice buf (off + 4) (Z.to_nat length) with
      | Some bs => Ok (VI8 (map (fun b => signed_be [b]) bs),
                       (off + 4 + Z.to_nat length)%nat)
      | None => Throw RangeError
      end
  end.
Proof.
  unfold readByteArray, bind at 1. rewrite readInt_declared.
  destruct (declared buf off) as [n|] eqn:Ed; [|reflexivity].
  apply declared_some in Ed.
  unfold bind at 1, typedArray.
  destruct (n <? 0); [reflexivity|]. unfold ret at 1, bind.
  rewrite (times_ext _ _ _ readByte_fixed), times_fixed by lia.
  unfold items. rewrite Nat.mul_1_r.
  destruct (slice buf (off + 4) (Z.to_nat n)) as [bs|] eqn:Es; [|reflexivity].
  apply slice_some in Es as (_ & _ & Hl).
  unfold ret. rewrite <- Hl at 1. rewrite chunks_bytes. reflexivity.
Qed.

(** X5. [readIntArray] in one step. It throws a RangeError when fewer
    than four bytes are left for the length, when the length is
    negative, and when fewer than four bytes per item follow; otherwise
    it returns the items, each the signed big-endian reading of four
    bytes, and leaves the cursor right after them. *)
Theorem readIntArray_closed (buf : list byte) (off : nat) :
  readIntArray buf off =
  match declared buf off with
  | None => Throw RangeError
  | Some length =>
      if length <? 0 then Throw RangeError else
      match slice buf (off + 4) (Z.to_nat length * 4) with
      | Some bs => Ok (VI32 (chunks 4 signed_be (Z.to_nat length) bs),
                       (off + 4 + Z.to_nat length * 4)%nat)
      | None => Throw RangeError
      end
  end.
Proof.
  unfold readIntArray, bind at 1. rewrite readInt_declared.
  destruct (declared buf off) as [n|] eqn:Ed; [|reflexivity].
  apply declared_some in Ed.
  unfold bind at 1, typedArray.
  destruct (n <? 0); [reflexivity|]. unfold ret at 1, bind.
  rewrite (times_ext _ _ _ readInt_fixed), times_fixed by lia.
  unfold items.
  destruct (slice buf (off + 4) (Z.to_nat n * 4)) as [bs|] eqn:Es; reflexivity.
Qed.

(** X6. [readLongArray] in one step. A negative length counts as none:
    the array is empty and only the four bytes of the length are taken.
    Otherwise it throws a RangeError when fewer than eight bytes per
    item follow, and else returns the items as BigInts, each the signed
    big-endian reading of eight bytes, the cursor right after them. *)
Theorem readLongArray_closed (buf : list byte) (off : nat) :
  readLongArray buf off =
  match declared buf off with
  | None => Throw RangeError
  | Some length =>
      match slice buf (off + 4) (Z.to_nat length * 8) with
      | Some bs => Ok (VArr (map VBig (chunks 8 signed_be (Z.to_nat length) bs)),
                       (off + 4 + Z.to_nat length * 8)%nat)
      | None => Throw RangeError
      end
  end.
Proof.
  unfold readLongArray, bind at 1. rewrite readInt_declared.
  destruct (declared buf off) as [n|] eqn:Ed; [|reflexivity].
  apply declared_some in Ed. unfold bind.
  rewrite (times_ext _ _ _ readLong_fixed), times_fixed by lia.
  unfold items.
  destruct (slice buf (off + 4) (Z.to_nat n * 8)) as [bs|] eqn:Es; [|reflexivity].
  apply slice_some in Es as (_ & _ & Hl).
  unfold ret. f_equal. f_equal. f_equal. f_equal.
  apply chunks_ext; [|lia]. intros x Hx. now apply long_signed.
Qed.

End ArrayFacts.

(* ===================================================================== *)
(** ** Lists without items, documents without a compound root *)

Module ListFacts.
Import NBT Spec Props BytesFacts ReaderFacts OutcomeFacts ArrayFacts.

Lemma readUByte_declared buf off n :
  declared buf (off + 1) = Some n ->
  exists t, readUByte buf off = Ok (t, (off + 1)%nat).
Proof.
  intros H. apply declared_some in H.
  rewrite readUByte_fixed. unfold fixed, slice.
  destruct (Nat.leb_spec (off + 1) (List.length buf)); [eauto|lia].
Qed.

(** X7. A list declared with no item, or with a negative count, is the
    empty array, whatever its item type (a type that is no tag type
    too): the loop never calls [readTag]. The cursor passes the five
    bytes of the header. *)
Theorem readList_empty (fuel : nat) (buf : list byte) (off : nat) (length : Z) :
  declared buf (off + 1) = Some length -> length <= 0 ->
  readList fuel buf off = Ok (VArr [], (off + 5)%nat).
Proof.
  intros Hd Hn. unfold readList, readList_with.
  destruct (readUByte_declared _ _ _ Hd) as (t & Et).
  unfold bind at 1. rewrite Et.
  unfold bind at 1. rewrite readInt_declared, Hd.
  replace (Z.to_nat length) with 0%nat by lia.
  unfold bind, times, ret. f_equal. f_equal. lia.
Qed.

(** The theorem at a list of item type 200 that declares -1 items. *)
Lemma readList_empty_witness :
  let buf := bytes [9; 200; 255; 255; 255; 255; 7] in
  declared buf (1 + 1)%nat = Some (-1) /\ -1 <= 0 /\
  readList 0 buf 1%nat = Ok (VArr [], (1 + 5)%nat).
Proof.
  intros buf.
  assert (Hd : declared buf (1 + 1)%nat = Some (-1)) by reflexivity.
  assert (Hn : -1 <= 0) by lia.
  split; [exact Hd|]. split; [exact Hn|].
  exact (readList_empty 0 buf 1%nat (-1) Hd Hn).
Defined.

Lemma times_null (fuel n : nat) buf off :
  times n (readTag (S fuel) TAG_END) buf off = Ok (repeat VNull n, off).
Proof.
  induction n as [|n IH]; [reflexivity|].
  cbn [times repeat]. unfold bind at 1.
  change (readTag (S fuel) TAG_END buf off) with (@Ok (JS.value * nat) (VNull, off)).
  cbv iota beta. unfold bind. rewrite IH. reflexivity.
Qed.

(** X8. A list whose items are declared end tags takes no byte per item:
    five bytes of header give an array of as many [null]s as the header
    declares (none for a negative count), up to 2^31 - 1, memory
    allowing. *)
Theorem readList_end_tags (fuel : nat) (buf : list byte) (off : nat) (length : Z) :
  slice buf off 1 = Some [Byte.x00] -> declared buf (off + 1) = Some length ->
  readList (S fuel) buf off
  = Ok (VArr (repeat VNull (Z.to_nat length)), (off + 5)%nat).
Proof.
  intros Ht Hd. unfold readList, readList_with.
  unfold bind at 1. rewrite readUByte_fixed. unfold fixed. rewrite Ht.
  change (unsigned_be [Byte.x00]) with TAG_END.
  unfold bind at 1. rewrite readInt_declared, Hd.
  unfold bind. rewrite times_null. unfold ret. f_equal. f_equal. lia.
Qed.

(** The theorem at a list of three end tags. *)
Lemma readList_end_tags_witness :
  let buf := bytes [0; 0; 0; 0; 3] in
  slice buf 0 1 = Some [Byte.x00] /\ declared buf (0 + 1)%nat = Some 3 /\
  readList 1 buf 0%nat = Ok (VArr [VNull; VNull; VNull], 5%nat).
Proof.
  intros buf.
  assert (Ht : slice buf 0 1 = Some [Byte.x00]) by reflexivity.
  assert (Hd : declared buf (0 + 1)%nat = Some 3) by reflexivity.
  split; [exact Ht|]. split; [exact Hd|].
  exact (readList_end_tags 0 buf 0%nat 3 Ht Hd).
Defined.

End ListFacts.

(* ===================================================================== *)
(** ** Where the name [__proto__] can be read *)

Module NameFacts.
Import NBT Spec Props Utf8.

Lemma lead_cases (x : Z) :
  0 <= x < 256 ->
  (x <= 0x7F /\ lead x = (Some x, (0, O, 0x80, 0xBF))) \/
  lead x = (Some 0xFFFD, (0, O, 0x80, 0xBF)) \/
  exists cp need lo hi, lead x = (None, (cp, S need, lo, hi)) /\ pending cp (S need) lo.
Proof.
  intros Hx. unfold lead.
  destruct (Z.leb_spec x 0x7F); [left; auto|right].
  destruct (Z.leb_spec 0xC2 x), (Z.leb_spec x 0xDF); cbn [andb];
    try (right; do 4 eexists; split; [reflexivity|simpl; lia]).
  all: destruct (Z.leb_spec 0xE0 x), (Z.leb_spec x 0xEF); cbn [andb].
  all: try (right; do 4 eexists; split; [reflexivity|];
            destruct (Z.eqb_spec x 0xE0); simpl; lia).
  all: destruct (Z.leb_spec 0xF0 x), (Z.leb_spec x 0xF4); cbn [andb].
  all: try (right; do 4 eexists; split; [reflexivity|];
            destruct (Z.eqb_spec x 0xF0); simpl; lia).
  all: now left.
Qed.

Lemma run_pending (bs : list byte) (cp : Z) (need : nat) (lo hi : Z) :
  pending cp (S need) lo ->
  exists c out, run bs cp (S need) lo hi = c :: out /\ 0x80 <= c.
Proof.
  revert cp need lo hi. induction bs as [|b rest IH]; intros cp need lo hi Hp.
  - simpl. do 2 eexists. split; [reflexivity|lia].
  - cbn [run]. cbv zeta.
    destruct ((lo <=? byte.unsigned b) && (byte.unsigned b <=? hi)) eqn:E.
    + apply andb_true_iff in E as [E1 E2]. apply Z.leb_le in E1, E2.
      destruct need as [|need].
      * do 2 eexists. split; [reflexivity|]. simpl in Hp. lia.
      * apply IH. destruct need as [|[|need]]; simpl in Hp |- *; lia.
    + destruct (lead (byte.unsigned b)) as [out [[[cp' need'] lo'] hi']].
      do 2 eexists. split; [reflexivity|lia].
Qed.

Lemma run_basic (bs : list byte) (cp lo hi : Z) :
  Forall basic (run bs cp O lo hi) -> map byte.unsigned bs = run bs cp O lo hi.
Proof.
  revert cp lo hi. induction bs as [|b rest IH]; intros cp lo hi H; [reflexivity|].
  cbn [run] in *. cbv zeta in *.
  destruct (lead_cases (byte.unsigned b) (byte.unsigned_range b))
    as [[Hx E]|[E|(cp' & need & lo' & hi' & E & Hp)]]; rewrite E in *; cbn [emit] in *.
  - simpl. f_equal. apply IH. now inversion H.
  - inversion H as [|? ? Hc]. unfold basic in Hc. lia.
  - destruct (run_pending rest cp' need lo' hi' Hp) as (c & out & Er & Hc).
    rewrite Er in H. inversion H as [|? ? Hb]. unfold basic in Hb. lia.
Qed.

(** ASCII code units at the end of what the decoder gives are the last
    bytes of its input. *)
Lemma run_suffix (bs : list byte) (cp : Z) (need : nat) (lo hi : Z) (pre asc : list Z) :
  pending cp need lo ->
  run bs cp need lo hi = pre ++ asc -> Forall basic asc ->
  exists front back, bs = front ++ back /\ map byte.unsigned back = asc.
Proof.
  revert cp need lo hi pre.
  induction bs as [|b rest IH]; intros cp need lo hi pre Hp E Ha.
  - exists [], []. split; [reflexivity|].
    destruct asc as [|a asc]; [reflexivity|exfalso].
    destruct need; simpl in E.
    + now destruct pre.
    + destruct pre as [|p [|? ?]]; simpl in E; try discriminate.
      injection E as <- _. inversion Ha as [|? ? Hb]. unfold basic in Hb. lia.
  - destruct asc as [|a asc].
    { exists (b :: rest), []. now rewrite app_nil_r. }
    destruct pre as [|p pre].
    + (* the whole output is ASCII *)
      simpl app in E. destruct need as [|need].
      * exists [], (b :: rest). split; [reflexivity|].
        rewrite <- E. apply run_basic. now rewrite E.
      * destruct (run_pending (b :: rest) cp need lo hi Hp) as (c & out & Er & Hc).
        rewrite Er in E. injection E as -> _. inversion Ha as [|? ? Hb].
        unfold basic in Hb. lia.
    + assert (Hnext : forall cp' need' lo' hi' pre',
                pending cp' need' lo' ->
                run rest cp' need' lo' hi' = pre' ++ a :: asc ->
                exists front back, b :: rest = front ++ back /\
                                   map byte.unsigned back = a :: asc).
      { intros cp' need' lo' hi' pre' Hp' E'.
        destruct (IH cp' need' lo' hi' pre' Hp' E' Ha) as (front & back & -> & Hb).
        exists (b :: front), back. auto. }
      cbn [run] in E. cbv zeta in E.
      destruct need as [|need].
      * destruct (lead_cases (byte.unsigned b) (byte.unsigned_range b))
          as [[Hx El]|[El|(cp' & need' & lo' & hi' & El & Hp')]];
          rewrite El in E; cbn [emit] in E.
        -- injection E as _ E. eapply Hnext; [|exact E]. exact I.
        -- injection E as _ E. eapply Hnext; [|exact E]. exact I.
        -- eapply (Hnext _ _ _ _ (p :: pre)); [exact Hp'|exact E].
      * destruct ((lo <=? byte.unsigned b) && (byte.unsigned b <=? hi)) eqn:Er.
        -- apply andb_true_iff in Er as [E1 E2]. apply Z.leb_le in E1, E2.
           destruct need as [|need].
           ++ injection E as _ E. eapply Hnext; [|exact E]. exact I.
           ++ eapply (Hnext _ _ _ _ (p :: pre)); [|exact E].
              destruct need as [|[|need]]; simpl in Hp |- *; lia.
        -- destruct (lead_cases (byte.unsigned b) (byte.unsigned_range b))
             as [[Hx El]|[El|(cp' & need' & lo' & hi' & El & Hp')]];
             rewrite El in E; cbn [emit] in E; injection E as _ E.
           ++ destruct pre as [|p' pre].
              ** simpl in E. injection E as <- E.
                 exists [], (b :: rest). split; [reflexivity|].
                 simpl. f_equal. rewrite <- E. apply run_basic. rewrite E.
                 now inversion Ha.
              ** injection E as _ E. eapply Hnext; [|exact E]. exact I.
           ++ destruct pre as [|p' pre].
              ** simpl in E. injection E as <- _. inversion Ha as [|? ? Hb].
                 unfold basic in Hb. lia.
              ** injection E as _ E. eapply Hnext; [|exact E]. exact I.
           ++ eapply Hnext; [exact Hp'|exact E].
Qed.

Lemma units_basic (l : list Z) : Forall basic (flat_map units l) -> flat_map units l = l.
Proof.
  induction l as [|c l IH]; [reflexivity|]. simpl. unfold units at 1 3.
  destruct (Z.ltb_spec c 0x10000) as [Hc|Hc].
  - simpl. intros H0. inversion H0. f_equal. auto.
  - cbn [flat_map app]. intros H0. apply Forall_inv in H0. unfold basic in H0.
    assert (0 <= (c - 0x10000) / 0x400) by (apply Z.div_pos; lia). lia.
Qed.

(** A decoded string of ASCII code units was written with those bytes. *)
Lemma decode_basic (bs : list byte) :
  Forall basic (decode bs) ->
  exists front back, bs = front ++ back /\ map byte.unsigned back = decode bs.
Proof.
  unfold decode. cbv zeta.
  destruct (run bs 0 O 0x80 0xBF) as [|c cps] eqn:E.
  - intros _. exists bs, []. now rewrite app_nil_r.
  - destruct (c =? 0xFEFF); intros H; pose proof (units_basic _ H) as Eu;
      rewrite Eu in H |- *.
    + apply (run_suffix bs 0 O 0x80 0xBF [c] cps I E H).
    + apply (run_suffix bs 0 O 0x80 0xBF [] (c :: cps) I E H).
Qed.

Lemma prefix_of_app (p back rest : list byte) :
  map byte.unsigned back = map byte.unsigned p -> prefix_of p (back ++ rest) = true.
Proof.
  revert back. induction p as [|x p IH]; intros back H; [reflexivity|].
  destruct back as [|y back]; [discriminate|]. simpl in H. injection H as Hx H.
  simpl. rewrite Hx, Z.eqb_refl. now apply IH.
Qed.

Lemma occurs_app (p front l : list byte) : prefix_of p l = true -> occurs p (front ++ l) = true.
Proof.
  intros H. induction front as [|b front IH]; simpl.
  - destruct l; simpl; rewrite H; reflexivity.
  - rewrite IH. apply orb_true_r.
Qed.

Lemma occurs_inside (p front back rest : list byte) :
  map byte.unsigned back = map byte.unsigned p ->
  occurs p (front ++ back ++ rest) = true.
Proof. intros H. now apply occurs_app, prefix_of_app. Qed.

(** The name [__proto__] is read only where its nine bytes stand. *)
Lemma readString_proto (buf : list byte) (off off' : nat) :
  readString buf off = Ok (js "__proto__", off') -> occurs proto_name buf = true.
Proof.
  unfold readString, bind at 1.
  destruct (readShort buf off) as [[length off1]| |]; try discriminate.
  destruct (length <=? 0); [discriminate|].
  unfold bind, uint8Array, getter, advance, ret.
  destruct (slice buf (off1 + 0) (Z.to_nat length)) as [bs|] eqn:Es; try discriminate.
  intros [= Hd _].
  assert (Hb : Forall basic (decode bs)).
  { rewrite Hd. repeat constructor. }
  destruct (decode_basic bs Hb) as (front & back & -> & Hback).
  unfold slice in Es.
  destruct (off1 + 0 + Z.to_nat length <=? List.length buf)%nat; [|discriminate].
  injection Es as Es.
  rewrite <- (firstn_skipn (off1 + 0) buf).
  rewrite <- (firstn_skipn (Z.to_nat length) (skipn (off1 + 0) buf)), Es.
  rewrite <- (app_assoc front), app_assoc.
  apply (occurs_inside proto_name (firstn (off1 + 0) buf ++ front) back).
  now rewrite Hback, Hd.
Qed.

Lemma readString_not_proto (buf : list byte) (off off' : nat) (s : jstring) :
  occurs proto_name buf = false -> readString buf off = Ok (s, off') ->
  s <> js "__proto__".
Proof.
  intros H E ->. apply readString_proto in E. congruence.
Qed.

End NameFacts.

(* ===================================================================== *)
(** ** What [parse] ends with *)

Module RootFacts.
Import NBT Spec Props BytesFacts ReaderFacts OutcomeFacts NameFacts.

(** X1. For every buffer that nowhere holds the nine bytes of the name
    [__proto__]: no string the reader reads in it, at whatever offset,
    is [__proto__], so [compound[name] = value] never reaches the setter
    inherited from Object.prototype and every compound keeps the
    prototype [{}] gives it; and [parse] returns a document, or it
    throws one of three errors, a RangeError (a read or a typed array
    past its bounds), the error of a tag type between 13 and 255, or the
    error of a root type other than 10. It throws no TypeError. (A
    RangeError is also what the engine throws when the nesting outruns
    its call stack, which the model, whose fuel is always enough, does
    not limit; memory is taken to be enough.) *)
Theorem parse_outcome (buffer : list byte) :
  occurs proto_name buffer = false ->
  (forall off s off', readString buffer off = Ok (s, off') -> s <> js "__proto__") /\
  ((exists doc, parse buffer = Ok doc) \/
   (exists e, parse buffer = Throw e /\ parse_error e)).
Proof.
  intros Hp. split.
  - intros off s off'. now apply readString_not_proto.
  - pose proof (parse_total buffer) as Htot.
    pose proof (parse_from_good (List.length buffer) buffer 0%nat) as T.
    unfold parse, parse_run in *.
    destruct (parse_from (List.length buffer) buffer 0%nat) as [[doc off]|e|];
      [left; eauto|right; eauto|contradiction].
Qed.

(** The theorem at a document whose one region has the number 1 for
    [BlockEntities]. *)
Lemma parse_outcome_witness :
  occurs proto_name mistyped_block_entities = false /\
  (forall off s off',
     readString mistyped_block_entities off = Ok (s, off') -> s <> js "__proto__") /\
  ((exists doc, parse mistyped_block_entities = Ok doc) \/
   (exists e, parse mistyped_block_entities = Throw e /\ parse_error e)).
Proof.
  assert (H : occurs proto_name mistyped_block_entities = false) by reflexivity.
  split; [exact H|exact (parse_outcome mistyped_block_entities H)].
Defined.

(** X2. The root of a document [parse] returns is an object, and the
    tree under it is shaped as the reader builds it: no [undefined]
    anywhere, no member of a compound is [null] (the end tag closes a
    compound, so [null] only stands as an item of a list), the items of
    a list are all of one JavaScript kind, every BigInt is a signed
    64-bit integer, and the items of an Int8Array and of an Int32Array
    are in the range of their width. *)
Theorem parse_shaped (buffer : list byte) (doc : document) :
  parse buffer = Ok doc ->
  exists o, value doc = VObj o /\ shaped (VObj o) = true.
Proof.
  pose proof (parse_from_good (List.length buffer) buffer 0%nat) as T.
  unfold parse, parse_run.
  destruct (parse_from (List.length buffer) buffer 0%nat) as [[doc' off]|e|];
    try discriminate.
  now intros [= <-].
Qed.

(** The theorem at a root with a list of one long array. *)
Lemma parse_shaped_witness :
  let buffer := bytes [10; 0; 0;
                       9; 0; 1; 97; 12; 0; 0; 0; 1; 0; 0; 0; 1;
                       255; 255; 255; 255; 255; 255; 255; 255;
                       0] in
  let doc := {| name := []; value := VObj [(Name [97], VArr [VArr [VBig (-1)]])] |} in
  parse buffer = Ok doc /\
  exists o, value doc = VObj o /\ shaped (VObj o) = true.
Proof.
  intros buffer doc.
  assert (H : parse buffer = Ok doc) by (vm_compute; reflexivity).
  split; [exact H|exact (parse_shaped buffer doc H)].
Defined.

(** X3. [parse] throws the error of a bad root type exactly when the
    buffer has a first byte and that byte is not 10; the error carries
    the byte. No tag further down raises it, and an empty buffer does
    not (it gives a RangeError). *)
Theorem parse_root_type (buffer : list byte) (t : Z) :
  parse buffer = Throw (BadRootType t) <->
  exists b rest, buffer = b :: rest /\ byte.unsigned b = t /\ t <> 10.
Proof.
  unfold parse, parse_run, parse_from.
  unfold bind at 1. rewrite readUByte_fixed. unfold fixed, slice.
  destruct buffer as [|b rest].
  - simpl. split; [discriminate|]. intros (b & rest & H & _). discriminate.
  - assert (Hs : (0 + 1 <=? List.length (b :: rest))%nat = true) by reflexivity.
    rewrite Hs. cbn [skipn firstn]. 
    assert (Hu : unsigned_be [b] = byte.unsigned b) by (unfold unsigned_be; simpl; lia).
    rewrite Hu.
    destruct (Z.eqb_spec (byte.unsigned b) TAG_COMPOUND) as [E|Hne]; cbn [negb].
    + split.
      * set (k := fun rootName => _).
        pose proof (triple_bind readString k (fun _ => True)
                      (fun doc => True) reader_error
                      (readString_any _ range_error)) as T.
        assert (Tk : forall a, True ->
                     triple (k a) (fun _ : document => True) reader_error).
        { intros a _. subst k. eapply triple_bind; [apply readCompound_good|].
          intros root _. now apply triple_ret. }
        specialize (T Tk (b :: rest) (0 + 1)%nat).
        destruct (bind readString k (b :: rest) (0 + 1)%nat) as [[doc off]|e|];
          try discriminate.
        intros [= ->]. destruct T as [T|(t' & T & _)]; discriminate.
      * intros (b' & rest' & [= <- <-] & Ht & Hne). unfold TAG_COMPOUND in E. congruence.
    + unfold throw. split.
      * intros [= <-]. exists b, rest. auto.
      * intros (b' & rest' & [= <- <-] & <- & _). reflexivity.
Qed.

End RootFacts.

(* ===================================================================== *)
(** ** A list has no more items than bytes *)

Module ProgressFacts.
Import NBT Spec Props BytesFacts ReaderFacts.

Lemma advances_sound {A} (m : reader A) : sound m -> advances 0 m.
Proof. intros H buf off a off' E. destruct (H _ _ _ _ E). lia. Qed.

Lemma advances_le {A} (k k' : nat) (m : reader A) :
  (k' <= k)%nat -> advances k m -> advances k' m.
Proof. intros Hle H buf off a off' E. specialize (H _ _ _ _ E). lia. Qed.

Lemma advances_ext {A} (k : nat) (m m' : reader A) :
  (forall buf off, m buf off = m' buf off) -> advances k m' -> advances k m.
Proof. intros E H buf off a off'. rewrite E. apply H. Qed.

Lemma advances_fixed {A} (n : nat) (conv : list byte -> A) : advances n (fixed n conv).
Proof.
  intros buf off a off'. unfold fixed.
  destruct (slice buf off n); [|discriminate]. intros [= <- <-]. lia.
Qed.

Lemma advances_bind {A B} (k1 k2 : nat) (m : reader A) (f : A -> reader B) :
  advances k1 m -> (forall a, advances k2 (f a)) -> advances (k1 + k2) (bind m f).
Proof.
  intros Hm Hf buf off b off2. unfold bind.
  destruct (m buf off) as [[a off1]| |] eqn:E1; try discriminate.
  intros E2. specialize (Hm _ _ _ _ E1). specialize (Hf a _ _ _ _ E2). lia.
Qed.

Lemma advances_ret {A} (a : A) : advances 0 (ret a).
Proof. intros buf off a' off'. unfold ret. intros [= <- <-]. lia. Qed.

Lemma advances_times {A} (k n : nat) (m : reader A) :
  advances k m ->
  forall buf off l off', times n m buf off = Ok (l, off') ->
                         List.length l = n /\ (off + n * k <= off')%nat.
Proof.
  intros Hm. induction n as [|n IH]; simpl; intros buf off l off'.
  - unfold ret. intros [= <- <-]. split; [reflexivity|lia].
  - unfold bind.
    destruct (m buf off) as [[x off1]| |] eqn:E1; try discriminate.
    destruct (times n m buf off1) as [[xs off2]| |] eqn:E2; try discriminate.
    unfold ret. intros [= <- <-]. specialize (Hm _ _ _ _ E1).
    destruct (IH _ _ _ _ E2) as [Hl Ho]. simpl. split; [congruence|lia].
Qed.

Lemma advances_readCompound_loop (rt : Z -> reader JS.value) (k : nat) (compound : props) :
  (forall t, sound (rt t)) -> advances 1 (readCompound_loop rt k compound).
Proof.
  intros Hrt. destruct k as [|k]; [intros ? ? ? ?; discriminate|].
  cbn [readCompound_loop]. apply (advances_le (1 + 0)); [lia|].
  apply advances_bind;
    [eapply advances_ext; [apply readUByte_fixed|apply advances_fixed]|].
  intros tagType. apply advances_sound.
  destruct (tagType =? TAG_END); [auto with reader|]. repeat sound_step.
  now apply sound_readCompound_loop.
Qed.

(** A value of any tag type but the end tag takes a byte or more. *)
Lemma advances_readTag (fuel : nat) (t : Z) : t <> TAG_END -> advances 1 (readTag fuel t).
Proof.
  intros Ht. destruct fuel as [|fuel]; [intros buf off a off'; discriminate|].
  rewrite readTag_S. unfold readTag_with.
  destruct (Z.eqb_spec t TAG_END) as [E|_]; [contradiction|].
  assert (Hfix : forall A B (n : nat) (conv : list byte -> A) (m : reader A) (f : A -> B),
             (1 <= n)%nat -> (forall buf off, m buf off = fixed n conv buf off) ->
             advances 1 (v <- m ;; ret (f v))).
  { intros A B n conv m f Hn E.
    apply (advances_le (n + 0)); [lia|].
    apply advances_bind; [eapply advances_ext; [exact E|apply advances_fixed]|].
    intros a. apply advances_ret. }
  assert (Hint : forall B (f : Z -> reader B), (forall a, sound (f a)) ->
                                               advances 1 (length <- readInt ;; f length)).
  { intros B f Hf. apply (advances_le (4 + 0)); [lia|].
    apply advances_bind; [eapply advances_ext; [apply readInt_fixed|apply advances_fixed]|].
    intros a. apply advances_sound, Hf. }
  repeat match goal with
         | |- advances 1 (if ?c then _ else _) => destruct c
         end.
  - apply (Hfix _ _ 1%nat signed_be); [lia|apply readByte_fixed].
  - apply (Hfix _ _ 2%nat signed_be); [lia|apply readShort_fixed].
  - apply (Hfix _ _ 4%nat signed_be); [lia|apply readInt_fixed].
  - eapply (Hfix _ _ 8%nat); [lia|apply readLong_fixed].
  - eapply (Hfix _ _ 4%nat); [lia|apply readFloat_fixed].
  - eapply (Hfix _ _ 8%nat); [lia|apply readDouble_fixed].
  - unfold readByteArray. apply Hint. intros a. repeat sound_step.
  - apply (advances_le (2 + 0)); [lia|].
    apply advances_bind; [|intros a; apply advances_ret].
    eapply advances_ext; [apply readString_eq|].
    apply (advances_le (2 + 0)); [lia|].
    apply advances_bind; [apply advances_fixed|]. intros len.
    apply advances_sound. destruct (len <=? 0); auto with reader.
  - unfold readList_with. apply (advances_le (1 + 0)); [lia|].
    apply advances_bind;
      [eapply advances_ext; [apply readUByte_fixed|apply advances_fixed]|].
    intros itemType. apply advances_sound. repeat sound_step.
  - apply advances_readCompound_loop. auto with reader.
  - unfold readIntArray. apply Hint. intros a. repeat sound_step.
  - unfold readLongArray. apply Hint. intros a. repeat sound_step.
  - intros ? ? ? ?; discriminate.
Qed.

(** X9. End tags apart, a list cannot declare more items than the buffer
    has bytes: when [readList] returns for an item type other than 0,
    every item took a byte or more, so the cursor moved past the header
    by the number of items at least, and it stays inside the buffer. *)
Theorem list_items_bounded (fuel : nat) (buf : list byte) (off : nat) (b : byte)
  (list : JS.value) (off' : nat) :
  slice buf off 1 = Some [b] -> byte.unsigned b <> 0 ->
  readList fuel buf off = Ok (list, off') ->
  exists items,
    list = VArr items /\
    (off + 5 + List.length items <= off')%nat /\ (off' <= List.length buf)%nat.
Proof.
  intros Hb Hne H.
  assert (Hin : (off' <= List.length buf)%nat).
  { assert (Hs : sound (readList fuel)) by (unfold readList, readList_with; repeat sound_step).
    destruct (Hs _ _ _ _ H) as (Hle & Hin & _).
    apply slice_some in Hb as (Hb & _). destruct (Nat.eq_dec off off'); [lia|apply Hin; lia]. }
  unfold readList, readList_with in H. unfold bind at 1 in H.
  rewrite readUByte_fixed in H. unfold fixed in H. rewrite Hb in H.
  assert (Hu : unsigned_be [b] = byte.unsigned b) by (unfold unsigned_be; simpl; lia).
  rewrite Hu in H. unfold bind at 1 in H. rewrite readInt_fixed in H. unfold fixed in H.
  destruct (slice buf (off + 1) 4) as [bs|]; [|discriminate].
  unfold bind in H.
  destruct (times _ _ buf (off + 1 + 4)%nat) as [[items off2]| |] eqn:Et; try discriminate.
  unfold ret in H. injection H as <- <-.
  destruct (advances_times 1 _ _ (advances_readTag fuel (byte.unsigned b) Hne) _ _ _ _ Et)
    as [Hl Ho].
  exists items. split; [reflexivity|]. split; [lia|assumption].
Qed.

(** The theorem at a list of two bytes. *)
Lemma list_items_bounded_witness :
  let buf := bytes [1; 0; 0; 0; 2; 7; 9] in
  slice buf 0 1 = Some [Byte.x01] /\ byte.unsigned Byte.x01 <> 0 /\
  readList 1 buf 0%nat = Ok (VArr [VInt 7; VInt 9], 7%nat) /\
  exists items,
    VArr [VInt 7; VInt 9] = VArr items /\
    (0 + 5 + List.length items <= 7)%nat /\ (7 <= List.length buf)%nat.
Proof.
  intros buf.
  assert (Hb : slice buf 0 1 = Some [Byte.x01]) by reflexivity.
  assert (Hne : byte.unsigned Byte.x01 <> 0) by discriminate.
  assert (H : readList 1 buf 0%nat = Ok (VArr [VInt 7; VInt 9], 7%nat)) by reflexivity.
  split; [exact Hb|]. split; [exact Hne|]. split; [exact H|].
  exact (list_items_bounded 1 buf 0%nat Byte.x01 _ _ Hb Hne H).
Defined.

End ProgressFacts.

(* ===================================================================== *)
(** ** Decoding does not depend on the place *)

Module PlaceFacts.
Import NBT Spec Props BytesFacts ReaderFacts.

Lemma slice_shift (pre buf : list byte) (off n : nat) :
  slice (pre ++ buf) (List.length pre + off) n = slice buf off n.
Proof.
  unfold slice. rewrite length_app.
  destruct (Nat.leb_spec (off + n) (List.length buf));
    destruct (Nat.leb_spec (List.length pre + off + n) (List.length pre + List.length buf));
    try lia; [|reflexivity].
  rewrite skipn_app, skipn_all2 by lia.
  now replace (List.length pre + off - List.length pre)%nat with off by lia.
Qed.

Lemma relocatable_getter {A} (n d : nat) (conv : list byte -> A) :
  relocatable (getter n d conv).
Proof.
  intros pre buf off. unfold getter.
  rewrite <- Nat.add_assoc, slice_shift.
  now destruct (slice buf (off + d) n).
Qed.

Lemma relocatable_advance (n : nat) : relocatable (advance n).
Proof. intros pre buf off. unfold advance. simpl. f_equal. f_equal. lia. Qed.

Lemma relocatable_ret {A} (a : A) : relocatable (ret a).
Proof. intros pre buf off. reflexivity. Qed.

Lemma relocatable_throw {A} (e : error) : relocatable (@throw A e).
Proof. intros pre buf off. reflexivity. Qed.

Lemma relocatable_bind {A B} (m : reader A) (f : A -> reader B) :
  relocatable m -> (forall a, relocatable (f a)) -> relocatable (bind m f).
Proof.
  intros Hm Hf pre buf off. unfold bind. rewrite Hm.
  destruct (m buf off) as [[a off']| |]; simpl; [apply Hf|reflexivity|reflexivity].
Qed.

Lemma relocatable_times {A} (n : nat) (m : reader A) :
  relocatable m -> relocatable (times n m).
Proof.
  intros Hm. induction n as [|n IH]; simpl.
  - apply relocatable_ret.
  - apply relocatable_bind; [assumption|]. intros x.
    apply relocatable_bind; [assumption|]. intros xs. apply relocatable_ret.
Qed.

Create HintDb place discriminated.
#[local] Hint Resolve relocatable_getter relocatable_advance relocatable_ret
  relocatable_throw relocatable_times : place.

Ltac place_step :=
  first [ solve [auto with place]
        | apply relocatable_bind; [|intro]
        | match goal with
          | |- relocatable (if ?c then _ else _) => destruct c
          end ].

Lemma relocatable_readByte : relocatable readByte.
Proof. unfold readByte, getInt8. repeat place_step. Qed.

Lemma relocatable_readUByte : relocatable readUByte.
Proof. unfold readUByte, getUint8. repeat place_step. Qed.

Lemma relocatable_readShort : relocatable readShort.
Proof. unfold readShort, getInt16. repeat place_step. Qed.

Lemma relocatable_readInt : relocatable readInt.
Proof. unfold readInt, getInt32. repeat place_step. Qed.

Lemma relocatable_readLong : relocatable readLong.
Proof. unfold readLong, getInt32, getUint32. repeat place_step. Qed.

Lemma relocatable_readFloat : relocatable readFloat.
Proof. unfold readFloat, getFloat32. repeat place_step. Qed.

Lemma relocatable_readDouble : relocatable readDouble.
Proof. unfold readDouble, getFloat64. repeat place_step. Qed.

Lemma relocatable_readString : relocatable readString.
Proof.
  unfold readString, uint8Array.
  apply relocatable_bind; [apply relocatable_readShort|]. intros length.
  repeat place_step.
Qed.

#[local] Hint Resolve relocatable_readByte relocatable_readUByte relocatable_readShort
  relocatable_readInt relocatable_readLong relocatable_readFloat relocatable_readDouble
  relocatable_readString : place.

Lemma relocatable_readByteArray : relocatable readByteArray.
Proof. unfold readByteArray, typedArray. repeat place_step. Qed.

Lemma relocatable_readIntArray : relocatable readIntArray.
Proof. unfold readIntArray, typedArray. repeat place_step. Qed.

Lemma relocatable_readLongArray : relocatable readLongArray.
Proof. unfold readLongArray. repeat place_step. Qed.

#[local] Hint Resolve relocatable_readByteArray relocatable_readIntArray
  relocatable_readLongArray : place.

Section Recursive.

Variable rt : Z -> reader JS.value.
Hypothesis rt_place : forall t, relocatable (rt t).

Lemma relocatable_readList_with : relocatable (readList_with rt).
Proof. unfold readList_with. repeat place_step. Qed.

Lemma relocatable_readCompound_loop (k : nat) (compound : props) :
  relocatable (readCompound_loop rt k compound).
Proof.
  revert compound. induction k as [|k IH]; intros compound; simpl.
  - intros pre buf off. reflexivity.
  - repeat place_step.
Qed.

Lemma relocatable_readTag_with (rc : reader JS.value) (t : Z) :
  relocatable rc -> relocatable (readTag_with rt rc t).
Proof.
  intros Hrc. unfold readTag_with.
  repeat place_step; auto using relocatable_readList_with.
Qed.

End Recursive.

Lemma relocatable_readTag (fuel : nat) (t : Z) : relocatable (readTag fuel t).
Proof.
  revert t. induction fuel as [|fuel IH]; intros t.
  - intros pre buf off. reflexivity.
  - rewrite readTag_S. apply relocatable_readTag_with; [assumption|].
    now apply relocatable_readCompound_loop.
Qed.

(** X10. Decoding does not depend on where the bytes stand. With any
    bytes put in front of the buffer and the cursor moved as far,
    [readTag] (for every tag type) and the body of [parse] end the same
    way, with the same value or the same error, the cursor that many
    bytes further: the reader keeps no absolute position. *)
Theorem decode_anywhere (fuel : nat) (pre buf : list byte) (off : nat) :
  (forall t, readTag fuel t (pre ++ buf) (List.length pre + off)%nat
             = shifted (List.length pre) (readTag fuel t buf off)) /\
  parse_from fuel (pre ++ buf) (List.length pre + off)%nat
  = shifted (List.length pre) (parse_from fuel buf off).
Proof.
  split.
  - intros t. apply relocatable_readTag.
  - assert (H : relocatable (parse_from fuel)).
    { unfold parse_from, readCompound.
      apply relocatable_bind; [apply relocatable_readUByte|]. intros rootType.
      destruct (negb _); [apply relocatable_throw|].
      apply relocatable_bind; [apply relocatable_readString|]. intros rootName.
      apply relocatable_bind;
        [apply relocatable_readCompound_loop; intros; apply relocatable_readTag|].
      intros root. apply relocatable_ret. }
    apply H.
Qed.

End PlaceFacts.

(* ===================================================================== *)
(** ** The walk: how it ends, and what it keeps *)

Module WalkFacts.
Import Extract Spec Props EntityFacts DedupFacts.

Lemma settles_bind {A B} (m : result A) (f : A -> result B) :
  settles m -> (forall a, settles (f a)) -> settles (bind m f).
Proof. destruct m; simpl; auto. Qed.

Lemma settles_get (v : JS.value) (k : key) : settles (get v k).
Proof. destruct v; simpl; auto; destruct k; simpl; auto. Qed.

Lemma settles_orelse (a b : result JS.value) : settles a -> settles b -> settles (a ||| b).
Proof.
  intros Ha Hb. unfold orelse. apply settles_bind; [assumption|].
  intros x. now destruct (truthy x).
Qed.

Lemma settles_mapM {A B} (f : A -> result B) (l : list A) :
  (forall a, settles (f a)) -> settles (mapM f l).
Proof.
  intros H. induction l as [|a l IH]; simpl; [exact I|].
  apply settles_bind; [apply H|]. intros b. apply settles_bind; [exact IH|].
  intros bs. exact I.
Qed.

Lemma settles_foldM {A S} (f : S -> A -> result S) (l : list A) (s : S) :
  (forall s a, settles (f s a)) -> settles (foldM f l s).
Proof.
  intros H. revert s. induction l as [|a l IH]; intros s; simpl; [exact I|].
  apply settles_bind; [apply H|]. exact IH.
Qed.

Lemma settles_find (pred : JS.value -> result bool) (l : list JS.value) :
  (forall p, settles (pred p)) -> settles (find pred l).
Proof.
  intros H. induction l as [|p l IH]; simpl; [exact I|].
  apply settles_bind; [apply H|]. intros b. now destruct b.
Qed.

Lemma settles_for_of (v : JS.value) : settles (for_of v).
Proof. destruct v; simpl; auto. Qed.

Ltac settle :=
  repeat first
    [ exact I
    | reflexivity
    | apply settles_get
    | apply settles_for_of
    | apply settles_orelse
    | apply settles_bind; [|intro]
    | match goal with
      | |- settles (if ?c then _ else _) => destruct c
      | |- settles (match ?x with _ => _ end) => destruct x
      end ].

Section WithRuntime.
Variable rt : runtime.

Lemma settles_ToNumber (v : JS.value) : settles (ToNumber rt v).
Proof. destruct v; simpl; auto; destruct (existsb _ _); simpl; auto. Qed.

Lemma settles_uuid_part (n : JS.value) : settles (uuid_part rt n).
Proof.
  unfold uuid_part. apply settles_bind; [apply settles_ToNumber|]. intros x. exact I.
Qed.

Lemma settles_intArrayToUUID (v : JS.value) : settles (intArrayToUUID rt v).
Proof.
  unfold intArrayToUUID. destruct v; try exact I.
  destruct (negb _); [exact I|].
  apply settles_bind; [apply settles_mapM, settles_uuid_part|]. intros parts. exact I.
Qed.

Lemma settles_uuid_of (id : JS.value) : settles (uuid_of rt id).
Proof.
  unfold uuid_of.
  destruct (negb (truthy id)); [exact I|].
  destruct (is_array id); [apply settles_intArrayToUUID|].
  destruct (is_object id).
  - repeat (apply settles_bind; [settle|intro]).
    destruct (forallb _ _); [apply settles_intArrayToUUID|exact I].
  - destruct id; exact I.
Qed.

Lemma settles_textures_of (properties : JS.value) : settles (textures_of properties).
Proof.
  unfold textures_of.
  destruct (negb (truthy properties)); [exact I|].
  assert (Hf : forall l, settles
            (find (fun p => n <- get p (prop "name") ;;
                            if is_str n (js "textures") then Ok true else
                            n' <- get p (prop "Name") ;;
                            Ok (is_str n' (js "textures"))) l)).
  { intros l. apply settles_find. intros p. settle. }
  assert (Hd : forall v, settles
            (textures <- get v (prop "textures") ||| get v (prop "Textures")
                         ||| Ok (VArr []) ;;
             match textures with
             | VArr (texture :: _) =>
                 v <- get texture (prop "Value") ||| get texture (prop "value") ;;
                 s <- get texture (prop "Signature") ||| get texture (prop "signature") ;;
                 Ok (v, s)
             | _ => Ok (VNull, VNull)
             end)).
  { intros v. apply settles_bind; [settle|]. intros textures.
    destruct textures as [ | | | | |[|texture l]| | | ]; try exact I. settle. }
  destruct properties; try apply Hd.
  apply settles_bind; [apply Hf|]. intros tp.
  destruct (truthy tp); [|exact I]. settle.
Qed.

Lemma settles_parseProfile (profile customName : JS.value) :
  settles (parseProfile rt profile customName).
Proof.
  unfold parseProfile. destruct (is_string profile); [exact I|].
  apply settles_bind; [settle|]. intros name.
  apply settles_bind; [settle|]. intros id.
  apply settles_bind; [apply settles_uuid_of|]. intros uuid.
  apply settles_bind; [settle|]. intros properties.
  apply settles_bind; [apply settles_textures_of|]. intros [tv ts].
  destruct (_ && _); exact I.
Qed.

Lemma settles_extractSkinFromEntity (entity : JS.value) :
  settles (extractSkinFromEntity rt entity).
Proof.
  unfold extractSkinFromEntity.
  apply settles_bind; [settle|]. intros id.
  apply settles_bind; [settle|]. intros profile.
  destruct (negb (truthy profile)); [exact I|].
  apply settles_bind; [settle|]. intros customName.
  apply settles_parseProfile.
Qed.

Lemma settles_visit_entity (st : state) (entity : JS.value) :
  settles (visit_entity rt st entity).
Proof.
  unfold visit_entity. apply settles_bind; [apply settles_extractSkinFromEntity|].
  intros [s|]; [|exact I]. destruct (_ && _); exact I.
Qed.

Lemma settles_visit_region (regions : JS.value) (st : state) (k : key) :
  settles (visit_region rt regions st k).
Proof.
  unfold visit_region.
  apply settles_bind; [settle|]. intros region.
  apply settles_bind; [settle|]. intros blockEntities.
  apply settles_bind; [settle|]. intros entities.
  apply settles_foldM, settles_visit_entity.
Qed.

Lemma settles_extractSkinsFromNBT (nbtData : NBT.document) :
  settles (extractSkinsFromNBT rt nbtData).
Proof.
  unfold extractSkinsFromNBT.
  apply settles_bind; [settle|]. intros regions.
  apply settles_bind; [apply settles_foldM, settles_visit_region|]. intros st. exact I.
Qed.


(** *** Every profile has a key *)

Lemma parseProfile_key (profile customName : JS.value) (s : skin) :
  truthy profile = true -> parseProfile rt profile customName = Ok (Some s) ->
  truthy (dedup_key s) = true.
Proof.
  intros Ht. unfold parseProfile.
  destruct (is_string profile).
  - intros [= <-]. unfold dedup_key, or_value. simpl. exact Ht.
  - unfold bind.
    destruct (get profile (prop "Name") ||| get profile (prop "name") ||| Ok VNull)
      as [name| |]; try discriminate.
    destruct (get profile (prop "Id") ||| get profile (prop "id")
              ||| get profile (prop "UUID") ||| get profile (prop "uuid"))
      as [id| |]; try discriminate.
    destruct (uuid_of rt id) as [uuid| |]; try discriminate.
    destruct (get profile (prop "Properties") ||| get profile (prop "properties"))
      as [properties| |]; try discriminate.
    destruct (textures_of properties) as [[tv ts]| |]; try discriminate.
    destruct (truthy name) eqn:En, (truthy uuid) eqn:Eu, (truthy tv) eqn:Et;
      simpl; try discriminate; intros [= <-]; unfold dedup_key, or_value; simpl;
      rewrite ?Et, ?Eu, ?En; reflexivity.
Qed.

Lemma extractSkinFromEntity_key (entity : JS.value) (s : skin) :
  extractSkinFromEntity rt entity = Ok (Some s) -> truthy (dedup_key s) = true.
Proof.
  unfold extractSkinFromEntity, bind.
  destruct (get entity (prop "id") ||| get entity (prop "Id") ||| Ok (VStr []))
    as [id| |]; try discriminate.
  destruct (get entity (prop "profile") ||| get entity (prop "SkullOwner")
            ||| get entity (prop "Owner")) as [profile| |]; try discriminate.
  destruct (truthy profile) eqn:Et; simpl; [|discriminate].
  destruct (get entity (prop "custom_name") ||| get entity (prop "CustomName")
            ||| Ok VNull) as [customName| |]; try discriminate.
  now apply parseProfile_key.
Qed.

(** X13. A profile [extractSkinFromEntity] returns has a texture value,
    a UUID or a name that is truthy, so it has a deduplication key: the
    test [key &&] of the walk never drops a profile. *)
Theorem profile_has_key (entity : JS.value) (s : skin) :
  extractSkinFromEntity rt entity = Ok (Some s) ->
  truthy (textureValue s) = true \/ truthy (uuid s) = true \/ truthy (name s) = true.
Proof.
  intros H. apply extractSkinFromEntity_key in H.
  unfold dedup_key, or_value in H.
  destruct (truthy (textureValue s)); [now left|].
  destruct (truthy (uuid s)); [now right; left|]. now right; right.
Qed.

(** *** Nothing is lost *)

Lemma mapM_in {A B} (f : A -> result B) (l : list A) (r : list B) :
  mapM f l = Ok r -> forall b, In b r -> exists a, In a l /\ f a = Ok b.
Proof.
  revert r. induction l as [|a l IH]; intros r; simpl.
  - intros [= <-] b [].
  - unfold bind. destruct (f a) as [b0| |] eqn:E; try discriminate.
    destruct (mapM f l) as [bs| |]; try discriminate.
    intros [= <-] b [<-|Hin].
    + exists a. auto.
    + destruct (IH bs eq_refl b Hin) as (a' & Ha & Ea). exists a'. auto.
Qed.

Lemma in_somes {A} (l : list (option A)) (x : A) : In x (somes l) -> In (Some x) l.
Proof.
  unfold somes. intros H. apply in_flat_map in H as ([y|] & Hy & Hx); [|contradiction].
  destruct Hx as [<-|[]]. exact Hy.
Qed.

Lemma subseq_length {A} (l l' : list A) : subseq l l' -> (List.length l <= List.length l')%nat.
Proof. induction 1; simpl; lia. Qed.

Lemma dedup_from_subseq (kept l : list skin) :
  exists added, dedup_from kept l = kept ++ added /\ subseq added l.
Proof.
  revert kept. induction l as [|c l IH]; intros kept; simpl.
  - exists []. split; [now rewrite app_nil_r|constructor].
  - destruct (truthy (dedup_key c) && negb (key_kept kept c)).
    + destruct (IH (kept ++ [c])) as (added & -> & Hs). exists (c :: added).
      split; [now rewrite <- app_assoc|now constructor].
    + destruct (IH kept) as (added & -> & Hs). exists added.
      split; [reflexivity|now constructor].
Qed.

Lemma key_kept_app (kept more : list skin) (c : skin) :
  key_kept kept c = true -> key_kept (kept ++ more) c = true.
Proof. unfold key_kept. intros H. rewrite existsb_app, H. reflexivity. Qed.

Lemma represented_app (kept more : list skin) (c : skin) :
  represented kept c -> represented (kept ++ more) c.
Proof.
  intros [H|H]; [left; apply in_or_app; now left|right; now apply key_kept_app].
Qed.

Lemma dedup_from_complete (kept l : list skin) :
  Forall (fun c => truthy (dedup_key c) = true) l ->
  Forall (represented (dedup_from kept l)) l.
Proof.
  intros H. revert kept. induction H as [|c l Hc Hl IH]; intros kept; simpl.
  - constructor.
  - rewrite Hc. simpl. destruct (key_kept kept c) eqn:Ek; simpl.
    + constructor; [|apply IH].
      destruct (dedup_from_prefix kept l) as (added & ->).
      apply represented_app. now right.
    + constructor; [|apply IH].
      destruct (dedup_from_prefix (kept ++ [c]) l) as (added & ->).
      apply represented_app. left. apply in_or_app. right. now left.
Qed.

(** X14. The walk loses no profile. Its result is the candidate profiles
    with some left out and the order kept (so no more skins than
    candidates), and every candidate is in the result or has the key of
    a profile that is. *)
Theorem extraction_complete (nbtData : NBT.document) (result : list skin) :
  extractSkinsFromNBT rt nbtData = Ok result ->
  exists cands,
    candidates rt nbtData = Ok cands /\
    subseq result cands /\
    (List.length result <= List.length cands)%nat /\
    Forall (fun c => In c result \/ key_kept result c = true) cands.
Proof.
  intros H.
  unfold extractSkinsFromNBT in H. unfold candidates, block_entities.
  unfold bind in *.
  destruct (get (NBT.value nbtData) (prop "Regions")
            ||| get (NBT.value nbtData) (prop "regions") ||| Ok (VObj []))
    as [regions| |]; try discriminate.
  destruct (foldM (visit_region rt regions) (for_in regions)
              {| skins := []; seenTextures := [] |}) as [st| |] eqn:E; try discriminate.
  injection H as <-.
  assert (H0 : consistent {| skins := []; seenTextures := [] |}) by reflexivity.
  destruct (foldM_region_dedup rt regions _ _ st H0 E) as (ls & ps & Els & Eps & Hs & _).
  rewrite Els, Eps. exists (somes ps). split; [reflexivity|].
  simpl in Hs. rewrite Hs.
  destruct (dedup_from_subseq [] (somes ps)) as (added & Ea & Hsub).
  simpl in Ea. split; [now rewrite Ea|]. split; [rewrite Ea; now apply subseq_length|].
  apply (dedup_from_complete [] (somes ps)).
  apply Forall_forall. intros c Hc. apply in_somes in Hc.
  destruct (mapM_in _ _ _ Eps _ Hc) as (e & _ & Ee).
  now apply (extractSkinFromEntity_key e).
Qed.

End WithRuntime.

(** The theorem at a head with a name and a texture. *)
Lemma profile_has_key_witness :
  exists s,
    extractSkinFromEntity example_runtime (head "a" "T") = Ok (Some s) /\
    (truthy (textureValue s) = true \/ truthy (uuid s) = true \/
     truthy (name s) = true).
Proof.
  eexists.
  assert (H : extractSkinFromEntity example_runtime (head "a" "T") = Ok (Some _))
    by (vm_compute; reflexivity).
  split; [exact H|exact (profile_has_key example_runtime _ _ H)].
Defined.

(** The theorem at a schematic with two heads of one texture and a third
    head of another, in two regions. *)
Lemma extraction_complete_witness :
  let doc := schematic [] [(Name (js "r"), [head "a" "T"; head "b" "T"]);
                           (Name (js "s"), [head "c" "U"])] in
  exists result,
    extractSkinsFromNBT example_runtime doc = Ok result /\
    exists cands,
      candidates example_runtime doc = Ok cands /\
      subseq result cands /\
      (List.length result <= List.length cands)%nat /\
      Forall (fun c => In c result \/ key_kept result c = true) cands.
Proof.
  intros doc. eexists.
  assert (H : extractSkinsFromNBT example_runtime doc = Ok _) by (vm_compute; reflexivity).
  split; [exact H|exact (extraction_complete example_runtime doc _ H)].
Defined.

End WalkFacts.

(* ===================================================================== *)
(** ** The shape of a UUID *)

Module ShapeFacts.
Import Extract Spec Props Str UuidFacts.

Lemma split_plain (sep : Z) (s : jstring) :
  Forall (fun c => c <> sep) s -> split sep s = [s].
Proof.
  induction 1 as [|c s Hc Hs IH]; simpl; [reflexivity|].
  destruct (Z.eqb_spec c sep); [contradiction|]. now rewrite IH.
Qed.

Lemma split_at (sep : Z) (g rest : jstring) :
  Forall (fun c => c <> sep) g -> split sep (g ++ sep :: rest) = g :: split sep rest.
Proof.
  induction 1 as [|c g Hc Hg IH]; simpl.
  - now rewrite Z.eqb_refl.
  - destruct (Z.eqb_spec c sep); [contradiction|]. now rewrite IH.
Qed.

Lemma hex_char_hex (d : Z) : 0 <= d < 16 -> is_hex (hex_char d) = true.
Proof.
  intros H.
  assert (E : In d [0; 1; 2; 3; 4; 5; 6; 7; 8; 9; 10; 11; 12; 13; 14; 15])
    by (simpl; lia).
  simpl in E. repeat (destruct E as [<-|E]; [reflexivity|]). contradiction.
Qed.

Lemma hex_fixed_hex (k : nat) (u : Z) : forallb is_hex (hex_fixed k u) = true.
Proof.
  revert u. induction k as [|k IH]; intros u; simpl; [reflexivity|].
  rewrite forallb_app, IH. simpl.
  rewrite hex_char_hex by (apply Z.mod_pos_bound; lia). reflexivity.
Qed.

Lemma hex_no_hyphen (g : jstring) : forallb is_hex g = true -> Forall (fun c => c <> 45) g.
Proof.
  intros H. apply Forall_forall. intros c Hc ->.
  rewrite forallb_forall in H. specialize (H _ Hc). discriminate.
Qed.

Lemma forallb_firstn {A} (p : A -> bool) (n : nat) (l : list A) :
  forallb p l = true -> forallb p (firstn n l) = true.
Proof.
  revert l. induction n as [|n IH]; intros [|x l]; simpl; auto.
  intros H. apply andb_true_iff in H as [Hx Hl]. now rewrite Hx, IH.
Qed.

Lemma forallb_skipn {A} (p : A -> bool) (n : nat) (l : list A) :
  forallb p l = true -> forallb p (skipn n l) = true.
Proof.
  revert l. induction n as [|n IH]; intros [|x l]; simpl; auto.
  intros H. apply andb_true_iff in H as [Hx Hl]. now apply IH.
Qed.

Lemma slice_hex (a b : nat) (hex : jstring) :
  forallb is_hex hex = true -> forallb is_hex (slice a b hex) = true.
Proof. intros H. unfold slice. now apply forallb_firstn, forallb_skipn. Qed.

Lemma slice_length (a b : nat) (hex : jstring) :
  (a <= b <= List.length hex)%nat -> List.length (slice a b hex) = (b - a)%nat.
Proof. intros H. unfold slice. rewrite length_firstn, length_skipn. lia. Qed.

Lemma shaped_groups (a b c d e : jstring) :
  forallb (forallb is_hex) [a; b; c; d; e] = true ->
  List.length a = 8%nat -> List.length b = 4%nat -> List.length c = 4%nat ->
  List.length d = 4%nat -> List.length e = 12%nat ->
  uuid_shaped (a ++ js "-" ++ b ++ js "-" ++ c ++ js "-" ++ d ++ js "-" ++ e) = true.
Proof.
  intros H La Lb Lc Ld Le. unfold uuid_shaped.
  pose proof H as H'. simpl in H'.
  repeat (apply andb_true_iff in H' as [? H']).
  change (js "-") with [45]. cbn [app].
  rewrite !split_at, split_plain by now apply hex_no_hyphen.
  rewrite H, La, Lb, Lc, Ld, Le. reflexivity.
Qed.

Lemma ToUint32_range (n : number) : 0 <= ToUint32 n < 2 ^ 32.
Proof. destruct n; simpl; try lia; apply Z.mod_pos_bound; lia. Qed.

Section WithRuntime.
Variable rt : runtime.

Lemma uuid_part_hex (n : JS.value) (s : jstring) :
  uuid_part rt n = Ok s -> forallb is_hex s = true /\ List.length s = 8%nat.
Proof.
  unfold uuid_part, bind. destruct (ToNumber rt _) as [x| |]; try discriminate.
  intros [= <-]. pose proof (ToUint32_range x) as Hr.
  rewrite padStart_to_hex by (try lia; change (16 ^ Z.of_nat 8) with (2 ^ 32); lia).
  split; [apply hex_fixed_hex|apply hex_fixed_length].
Qed.

(** X16. Whatever its four elements (NaN, infinities, fractions,
    BigInts, strings, objects), the UUID of a four-element array is a
    string of the shape 8-4-4-4-12 in lowercase hexadecimal digits when
    [intArrayToUUID] returns; for an array of another length it is
    [null]. *)
Theorem uuid_shape (l : list JS.value) (v : JS.value) :
  intArrayToUUID rt (VArr l) = Ok v ->
  if (List.length l =? 4)%nat then exists s, v = VStr s /\ uuid_shaped s = true
  else v = VNull.
Proof.
  unfold intArrayToUUID.
  destruct (List.length l =? 4)%nat eqn:El; simpl negb; cbv iota; [|now intros [= <-]].
  apply Nat.eqb_eq in El.
  destruct l as [|a [|b [|c [|d [|? ?]]]]]; try discriminate.
  unfold mapM, bind.
  destruct (uuid_part rt a) as [pa| |] eqn:Ea; try discriminate.
  destruct (uuid_part rt b) as [pb| |] eqn:Eb; try discriminate.
  destruct (uuid_part rt c) as [pc| |] eqn:Ec; try discriminate.
  destruct (uuid_part rt d) as [pd| |] eqn:Ed; try discriminate.
  apply uuid_part_hex in Ea as [Ha La], Eb as [Hb Lb], Ec as [Hc Lc], Ed as [Hd Ld].
  intros [= <-]. eexists. split; [reflexivity|].
  set (hex := pa ++ pb ++ pc ++ pd ++ []).
  assert (Hh : forallb is_hex hex = true).
  { subst hex. simpl. rewrite !forallb_app, Ha, Hb, Hc, Hd. reflexivity. }
  assert (Lh : List.length hex = 32%nat).
  { subst hex. simpl. rewrite !length_app, La, Lb, Lc, Ld. reflexivity. }
  clearbody hex.
  apply shaped_groups; try (rewrite slice_length; lia).
  cbn [forallb]. rewrite !slice_hex by assumption. reflexivity.
Qed.

End WithRuntime.

(** The theorem at NaN, a BigInt, an infinity and an integer. *)
Lemma uuid_shape_witness :
  let l := [VNum NNaN; VBig (-1); VNum (NInf false); VInt 4096] in
  intArrayToUUID example_runtime (VArr l)
  = Ok (VStr (js "00000000-ffff-ffff-0000-000000001000")) /\
  exists s, VStr (js "00000000-ffff-ffff-0000-000000001000") = VStr s /\
            uuid_shaped s = true.
Proof.
  intros l.
  assert (H : intArrayToUUID example_runtime (VArr l)
              = Ok (VStr (js "00000000-ffff-ffff-0000-000000001000")))
    by (vm_compute; reflexivity).
  split; [exact H|exact (uuid_shape example_runtime l _ H)].
Defined.

End ShapeFacts.

(* ===================================================================== *)
(** ** UUIDs of BigInts *)

Module LongIdFacts.
Import Extract Spec Props UuidFacts.

Lemma number_of_small_bigint (z : Z) : Z.abs z < 2 ^ 53 -> number_of_bigint z = NInt z.
Proof.
  intros H. unfold number_of_bigint, nearest_double.
  assert (Hk : (Z.log2 (Z.abs z) - 52 <=? 0) = true).
  { apply Z.leb_le. destruct (Z.eq_dec (Z.abs z) 0) as [->|Hne]; [simpl; lia|].
    assert (Z.log2 (Z.abs z) < 53) by (apply Z.log2_lt_pow2; lia). lia. }
  rewrite Hk.
  assert (Hb : (2 ^ 1024 <=? Z.abs z) = false).
  { apply Z.leb_gt. apply Z.lt_trans with (2 ^ 53); [assumption|].
    apply Z.pow_lt_mono_r; lia. }
  rewrite Hb. f_equal. destruct (Z.ltb_spec z 0); lia.
Qed.

Section WithRuntime.
Variable rt : runtime.

Lemma uuid_part_long (z : Z) :
  Z.abs z < 2 ^ 53 -> uuid_part rt (VBig z) = Ok (hex_fixed 8 (unsigned32 z)).
Proof.
  intros H. unfold uuid_part. rewrite number_of_small_bigint by assumption.
  apply (uuid_part_int rt z).
Qed.

(** X22. The elements of the array may be BigInts, as the items of a
    long array are: for four integers below 2^53 in absolute value
    (every 32-bit integer among them) the UUID is the canonical string
    of their unsigned 32-bit reductions, the same as for the four
    Numbers. Past 2^53 the conversion to a Number rounds. *)
Theorem uuid_of_longs (a b c d : Z) :
  Z.abs a < 2 ^ 53 -> Z.abs b < 2 ^ 53 -> Z.abs c < 2 ^ 53 -> Z.abs d < 2 ^ 53 ->
  intArrayToUUID rt (VArr [VBig a; VBig b; VBig c; VBig d])
  = Ok (VStr (canonical_uuid a b c d)) /\
  intArrayToUUID rt (VArr [VBig a; VBig b; VBig c; VBig d])
  = intArrayToUUID rt (VArr [VInt a; VInt b; VInt c; VInt d]).
Proof.
  intros Ha Hb Hc Hd.
  assert (E : intArrayToUUID rt (VArr [VBig a; VBig b; VBig c; VBig d])
              = Ok (VStr (canonical_uuid a b c d))).
  { unfold intArrayToUUID. simpl negb. cbv iota.
    unfold mapM, bind. rewrite !uuid_part_long by assumption.
    unfold canonical_uuid, hyphenate, slice.
    set (h1 := hex_fixed 8 (unsigned32 a)). set (h2 := hex_fixed 8 (unsigned32 b)).
    set (h3 := hex_fixed 8 (unsigned32 c)). set (h4 := hex_fixed 8 (unsigned32 d)).
    change (List.concat [h1; h2; h3; h4]) with (h1 ++ h2 ++ h3 ++ h4 ++ []).
    rewrite app_nil_r. reflexivity. }
  split; [exact E|]. rewrite E. symmetry. apply intArrayToUUID_ints.
Qed.

End WithRuntime.

(** The theorem at four BigInts, two of them outside the 32-bit range. *)
Lemma uuid_of_longs_witness :
  Z.abs (-737154161) < 2 ^ 53 /\ Z.abs (2 ^ 32 + 1) < 2 ^ 53 /\
  Z.abs (- 2 ^ 40) < 2 ^ 53 /\ Z.abs 255 < 2 ^ 53 /\
  intArrayToUUID example_runtime
    (VArr [VBig (-737154161); VBig (2 ^ 32 + 1); VBig (- 2 ^ 40); VBig 255])
  = Ok (VStr (js "d40feb8f-0000-0001-0000-0000000000ff")).
Proof.
  assert (H1 : Z.abs (-737154161) < 2 ^ 53) by reflexivity.
  assert (H2 : Z.abs (2 ^ 32 + 1) < 2 ^ 53) by reflexivity.
  assert (H3 : Z.abs (- 2 ^ 40) < 2 ^ 53) by reflexivity.
  assert (H4 : Z.abs 255 < 2 ^ 53) by reflexivity.
  split; [exact H1|]. split; [exact H2|]. split; [exact H3|]. split; [exact H4|].
  exact (proj1 (uuid_of_longs example_runtime _ _ _ _ H1 H2 H3 H4)).
Defined.

End LongIdFacts.

(* ===================================================================== *)
(** ** Block entities added *)

Module GrowthFacts.
Import Extract Spec Props EntityFacts DedupFacts WalkFacts.

Lemma mapM_app_eq {A B} (f : A -> result B) (l1 l2 : list A) :
  mapM f (l1 ++ l2) = (r1 <- mapM f l1 ;; r2 <- mapM f l2 ;; Ok (r1 ++ r2)).
Proof.
  induction l1 as [|a l1 IH]; simpl.
  - destruct (mapM f l2); reflexivity.
  - rewrite IH. destruct (f a); simpl; try reflexivity.
    destruct (mapM f l1); simpl; try reflexivity.
    destruct (mapM f l2); reflexivity.
Qed.

Lemma mapM_app_inv {A B} (f : A -> result B) (l1 l2 : list A) (r : list B) :
  mapM f (l1 ++ l2) = Ok r ->
  exists r1 r2, mapM f l1 = Ok r1 /\ mapM f l2 = Ok r2 /\ r = r1 ++ r2.
Proof.
  rewrite mapM_app_eq. unfold bind.
  destruct (mapM f l1) as [r1| |]; try discriminate.
  destruct (mapM f l2) as [r2| |]; try discriminate.
  intros [= <-]. eauto.
Qed.

Section WithRuntime.
Variable rt : runtime.

(** The loop over block entities returns when every one of them gives a
    profile or none. *)
Lemma foldM_visit_returns (es : list JS.value) (ps : list (option skin)) (st : state) :
  mapM (extractSkinFromEntity rt) es = Ok ps ->
  exists st', foldM (visit_entity rt) es st = Ok st'.
Proof.
  revert ps st. induction es as [|e es IH]; intros ps st; simpl.
  - eauto.
  - unfold bind at 1 2. unfold visit_entity at 1.
    destruct (extractSkinFromEntity rt e) as [p| |]; try discriminate.
    destruct (mapM (extractSkinFromEntity rt) es) as [ps'| |] eqn:E; try discriminate.
    intros _. cbn [bind].
    destruct p as [c|]; [|now apply (IH ps')].
    destruct (truthy (dedup_key c) && negb (has (seenTextures st) (dedup_key c)));
      cbn [bind]; now apply (IH ps').
Qed.

Lemma foldM_region_returns (regions : JS.value) (keys : list key)
  (ls : list (list JS.value)) (ps : list (option skin)) (st : state) :
  mapM (region_entities regions) keys = Ok ls ->
  mapM (extractSkinFromEntity rt) (List.concat ls) = Ok ps ->
  exists st', foldM (visit_region rt regions) keys st = Ok st'.
Proof.
  revert ls ps st. induction keys as [|k keys IH]; intros ls ps st; simpl.
  - eauto.
  - unfold bind at 1 2.
    destruct (region_entities regions k) as [es| |] eqn:Ek; try discriminate.
    destruct (mapM (region_entities regions) keys) as [ls'| |] eqn:El; try discriminate.
    intros [= <-]. simpl List.concat. intros Hp.
    apply mapM_app_inv in Hp as (r1 & r2 & H1 & H2 & _).
    destruct (foldM_visit_returns es r1 st H1) as (st1 & E1).
    assert (Ev : visit_region rt regions st k = Ok st1).
    { unfold visit_region. unfold region_entities in Ek. unfold bind in *.
      destruct (get regions k) as [region| |]; try discriminate.
      destruct (get region (prop "BlockEntities") ||| get region (prop "TileEntities")
                ||| Ok (VArr [])) as [be| |]; try discriminate.
      destruct (for_of be) as [es'| |]; try discriminate.
      injection Ek as ->. exact E1. }
    rewrite Ev. cbn [bind]. now apply (IH ls' r2).
Qed.

Lemma settles_region_entities (regions : JS.value) (k : key) :
  settles (region_entities regions k).
Proof. unfold region_entities. settle. Qed.

Lemma settles_candidates (nbtData : NBT.document) : settles (candidates rt nbtData).
Proof.
  unfold candidates, block_entities.
  apply settles_bind.
  - apply settles_bind; [settle|]. intros regions.
    apply settles_bind; [apply settles_mapM, settles_region_entities|]. intros ls. exact I.
  - intros es. apply settles_bind; [apply settles_mapM, settles_extractSkinFromEntity|].
    intros ps. exact I.
Qed.

(** The walk is its two passes one after the other: the profiles of the
    block entities are collected, region after region, then
    deduplicated; it throws when one of the two passes does (all that
    is thrown is a TypeError). *)
Lemma walk_two_passes (nbtData : NBT.document) :
  extractSkinsFromNBT rt nbtData = (cands <- candidates rt nbtData ;; Ok (dedup cands)).
Proof.
  pose proof (settles_extractSkinsFromNBT rt nbtData) as S1.
  pose proof (settles_candidates nbtData) as S2.
  destruct (extractSkinsFromNBT rt nbtData) as [result|e|] eqn:E; simpl in S1;
    [| |contradiction].
  - unfold extractSkinsFromNBT in E. unfold candidates, block_entities in *.
    unfold bind in *.
    destruct (get (NBT.value nbtData) (prop "Regions")
              ||| get (NBT.value nbtData) (prop "regions") ||| Ok (VObj []))
      as [regions| |]; try discriminate.
    destruct (foldM (visit_region rt regions) (for_in regions)
                {| skins := []; seenTextures := [] |}) as [st| |] eqn:Ef; try discriminate.
    injection E as <-.
    assert (H0 : consistent {| skins := []; seenTextures := [] |}) by reflexivity.
    destruct (foldM_region_dedup rt regions _ _ st H0 Ef) as (ls & ps & Els & Eps & Hs & _).
    rewrite Els, Eps. now rewrite Hs.
  - subst e. destruct (candidates rt nbtData) as [cands|e|] eqn:Ec; simpl in S2;
      [exfalso|now subst|contradiction].
    unfold extractSkinsFromNBT in E. unfold candidates, block_entities in Ec.
    unfold bind in *.
    destruct (get (NBT.value nbtData) (prop "Regions")
              ||| get (NBT.value nbtData) (prop "regions") ||| Ok (VObj []))
      as [regions| |]; try discriminate.
    destruct (mapM (region_entities regions) (for_in regions)) as [ls| |] eqn:Els;
      try discriminate.
    destruct (mapM (extractSkinFromEntity rt) (List.concat ls)) as [ps| |] eqn:Eps;
      try discriminate.
    destruct (foldM_region_returns regions _ ls ps {| skins := []; seenTextures := [] |}
                Els Eps) as (st' & Ef).
    rewrite Ef in E. discriminate.
Qed.

(** X15. Block entities the walk comes to later only add skins at the
    end. The walk visits the regions in the order [for ... in]
    enumerates them (the regions named by array indices first and in
    ascending order, then the others as they were written), under
    either spelling of [Regions] and of [BlockEntities], and the block
    entities of a region in list order. When the block entities of a
    second document, in that order, are those of a first document
    followed by more, and the extraction returns on both, the skins of
    the first document are the first skins of the second, in the same
    order. *)
Theorem later_entities_append (nbtData nbtData' : NBT.document)
  (entities more : list JS.value) (found found' : list skin) :
  block_entities nbtData = Ok entities ->
  block_entities nbtData' = Ok (entities ++ more) ->
  extractSkinsFromNBT rt nbtData = Ok found ->
  extractSkinsFromNBT rt nbtData' = Ok found' ->
  exists added, found' = found ++ added.
Proof.
  rewrite !walk_two_passes. unfold candidates. intros -> ->. cbn [bind].
  rewrite mapM_app_eq. unfold bind.
  destruct (mapM (extractSkinFromEntity rt) entities) as [ps| |]; try discriminate.
  intros [= <-].
  destruct (mapM (extractSkinFromEntity rt) more) as [ps'| |]; try discriminate.
  intros [= <-]. unfold dedup. rewrite somes_app, dedup_from_app.
  apply dedup_from_prefix.
Qed.

End WithRuntime.

(** The theorem at a document with the regions [7] and [b], and the
    document with two more, [c], which spells [TileEntities], and [d];
    the region [7], named by an array index, is the first one visited. *)
Lemma later_entities_append_witness :
  let region := fun (spelling : string) (es : list JS.value) =>
    VObj [(prop "Size", VInt 3); (prop spelling, VArr es)] in
  let doc := {| NBT.name := [];
                NBT.value :=
                  VObj [(prop "Regions",
                         VObj [(Index 7, region "BlockEntities"%string [head "w" "V"]);
                               (Name (js "b"), region "BlockEntities"%string [head "x" "T"])])] |} in
  let doc' := {| NBT.name := [];
                 NBT.value :=
                   VObj [(prop "Regions",
                          VObj [(Index 7, region "BlockEntities"%string [head "w" "V"]);
                                (Name (js "b"), region "BlockEntities"%string [head "x" "T"]);
                                (Name (js "c"), region "TileEntities"%string
                                                  [head "y" "T"; head "z" "U"]);
                                (Name (js "d"), region "BlockEntities"%string [])])] |} in
  exists first second fourth,
    block_entities doc = Ok [head "w" "V"; head "x" "T"] /\
    block_entities doc' = Ok ([head "w" "V"; head "x" "T"] ++ [head "y" "T"; head "z" "U"]) /\
    extractSkinsFromNBT example_runtime doc = Ok [first; second] /\
    extractSkinsFromNBT example_runtime doc' = Ok [first; second; fourth] /\
    exists added, [first; second; fourth] = [first; second] ++ added.
Proof.
  intros region doc doc'. do 3 eexists.
  assert (B : block_entities doc = Ok [head "w" "V"; head "x" "T"]) by reflexivity.
  assert (B' : block_entities doc'
               = Ok ([head "w" "V"; head "x" "T"] ++ [head "y" "T"; head "z" "U"]))
    by reflexivity.
  assert (H : extractSkinsFromNBT example_runtime doc = Ok _) by reflexivity.
  assert (H' : extractSkinsFromNBT example_runtime doc' = Ok _) by reflexivity.
  split; [exact B|]. split; [exact B'|]. split; [exact H|]. split; [exact H'|].
  exact (later_entities_append example_runtime doc doc' _ _ _ _ B B' H H').
Defined.

End GrowthFacts.

(* ===================================================================== *)
(** ** Block entities that are no heads *)

Module SkipFacts.
Import Extract Spec Props EntityFacts DedupFacts GrowthFacts.

Section WithRuntime.
Variable rt : runtime.

(** A block entity with no truthy [profile], [SkullOwner] or [Owner]: a
    chest, a sign. *)
Lemma no_profile (o : props) :
  truthy (own o (prop "profile")) = false ->
  truthy (own o (prop "SkullOwner")) = false ->
  truthy (own o (prop "Owner")) = false ->
  extractSkinFromEntity rt (VObj o) = Ok None.
Proof.
  intros H1 H2 H3. rewrite extractSkinFromEntity_obj. cbv zeta.
  unfold or_value. now rewrite H1, H2, H3.
Qed.

Lemma candidates_skip (before after : list JS.value) (e : JS.value) :
  extractSkinFromEntity rt e = Ok None ->
  (ps <- mapM (extractSkinFromEntity rt) (before ++ e :: after) ;; Ok (somes ps))
  = (ps <- mapM (extractSkinFromEntity rt) (before ++ after) ;; Ok (somes ps)).
Proof.
  intros H. rewrite !mapM_app_eq. cbn [mapM]. rewrite H. unfold bind.
  destruct (mapM (extractSkinFromEntity rt) before) as [r1| |]; try reflexivity.
  destruct (mapM (extractSkinFromEntity rt) after) as [r2| |]; try reflexivity.
  now rewrite !somes_app.
Qed.

(** X26. A block entity that is no head changes nothing. Take the block
    entities of a document in the order the walk visits them: region
    after region, under either spelling of [Regions] and of
    [BlockEntities], whatever else the root and the regions hold. Two
    documents whose block entities are the same but for one compound
    with no truthy [profile], [SkullOwner] or [Owner] (a chest, a sign),
    wherever it stands, end the extraction the same way: with the same
    skins in the same order, or with a TypeError in both. *)
Theorem other_entities_skipped (nbtData nbtData' : NBT.document)
  (before after : list JS.value) (o : props) :
  truthy (own o (prop "profile")) = false ->
  truthy (own o (prop "SkullOwner")) = false ->
  truthy (own o (prop "Owner")) = false ->
  block_entities nbtData = Ok (before ++ VObj o :: after) ->
  block_entities nbtData' = Ok (before ++ after) ->
  extractSkinsFromNBT rt nbtData = extractSkinsFromNBT rt nbtData'.
Proof.
  intros H1 H2 H3 E E'. rewrite !walk_two_passes. unfold candidates.
  rewrite E, E'. cbn [bind].
  now rewrite (candidates_skip before after (VObj o) (no_profile o H1 H2 H3)).
Qed.

End WithRuntime.

(** The theorem at a chest between two heads of one region, with a head
    in a second region that spells [TileEntities]. *)
Lemma other_entities_skipped_witness :
  let chest := [(prop "id", VStr (js "minecraft:chest"));
                (prop "Items", VArr [VObj [(prop "Slot", VInt 0)]]);
                (prop "Owner", VStr [])] in
  let document := fun es =>
    {| NBT.name := js "s";
       NBT.value :=
         VObj [(prop "Version", VInt 6);
               (prop "regions",
                VObj [(Name (js "r"), VObj [(prop "Size", VInt 3);
                                            (prop "BlockEntities", VArr es)]);
                      (Name (js "s"), VObj [(prop "TileEntities",
                                             VArr [head "c" "V"])])])] |} in
  truthy (own chest (prop "profile")) = false /\
  truthy (own chest (prop "SkullOwner")) = false /\
  truthy (own chest (prop "Owner")) = false /\
  block_entities (document [head "a" "T"; VObj chest; head "b" "U"])
  = Ok ([head "a" "T"] ++ VObj chest :: [head "b" "U"; head "c" "V"]) /\
  block_entities (document [head "a" "T"; head "b" "U"])
  = Ok ([head "a" "T"] ++ [head "b" "U"; head "c" "V"]) /\
  extractSkinsFromNBT example_runtime (document [head "a" "T"; VObj chest; head "b" "U"])
  = extractSkinsFromNBT example_runtime (document [head "a" "T"; head "b" "U"]).
Proof.
  intros chest document.
  assert (H1 : truthy (own chest (prop "profile")) = false) by reflexivity.
  assert (H2 : truthy (own chest (prop "SkullOwner")) = false) by reflexivity.
  assert (H3 : truthy (own chest (prop "Owner")) = false) by reflexivity.
  assert (B : block_entities (document [head "a" "T"; VObj chest; head "b" "U"])
              = Ok ([head "a" "T"] ++ VObj chest :: [head "b" "U"; head "c" "V"]))
    by reflexivity.
  assert (B' : block_entities (document [head "a" "T"; head "b" "U"])
               = Ok ([head "a" "T"] ++ [head "b" "U"; head "c" "V"])) by reflexivity.
  split; [exact H1|]. split; [exact H2|]. split; [exact H3|].
  split; [exact B|]. split; [exact B'|].
  exact (other_entities_skipped example_runtime _ _ [head "a" "T"]
           [head "b" "U"; head "c" "V"] chest H1 H2 H3 B B').
Defined.

End SkipFacts.

(* ===================================================================== *)
(** ** The URLs of a skin *)

Module UrlFacts.
Import Str Urls UrlProps.

Lemma replace_not_http (s : jstring) :
  starts_with (js "http://") (replace_prefix (js "http://") (js "https://") s) = false.
Proof.
  unfold replace_prefix. destruct (starts_with (js "http://") s) eqn:E; [|exact E].
  reflexivity.
Qed.

Section WithBrowser.
Variable br : browser.

Lemma download_try_url (tv : JS.value) :
  download_try br tv =
  match skin_url br tv with
  | Some (Some url) => skinUrl <- replace_http url ;; Some (Some skinUrl)
  | Some None => Some None
  | None => None
  end.
Proof.
  unfold download_try, skin_url, bind.
  destruct (atob br tv) as [decoded|]; [|reflexivity].
  destruct (JSON_parse br decoded) as [data|]; [|reflexivity].
  destruct (andalso _ _) as [found|]; [|reflexivity].
  destruct (truthy found); [|reflexivity].
  destruct (property data "textures") as [t|]; [|reflexivity].
  destruct (property t "SKIN") as [S|]; [|reflexivity].
  destruct (property S "url") as [url|]; reflexivity.
Qed.

Lemma image_try_url (tv : JS.value) :
  image_try br tv =
  match skin_url br tv with
  | Some (Some url) =>
      pieces <- split_slash url ;;
      Some (Some (js "https://mc-heads.net/head/" ++
                  match pop pieces with Some piece => piece | None => js "undefined" end ++
                  js "/64"))
  | Some None => Some None
  | None => None
  end.
Proof.
  unfold image_try, skin_url, bind.
  destruct (atob br tv) as [decoded|]; [|reflexivity].
  destruct (JSON_parse br decoded) as [data|]; [|reflexivity].
  destruct (andalso _ _) as [found|]; [|reflexivity].
  destruct (truthy found); [|reflexivity].
  destruct (property data "textures") as [t|]; [|reflexivity].
  destruct (property t "SKIN") as [S|]; [|reflexivity].
  destruct (property S "url") as [url|]; reflexivity.
Qed.

(** X17. The URL [getSkinDownloadUrl] returns never starts with
    [http://], whatever the skin and whatever the browser decodes: it is
    [#], or the URL of the texture with a leading [http://] replaced by
    [https://]. *)
Theorem download_url_not_http (skin : Extract.skin) :
  starts_with (js "http://") (getSkinDownloadUrl br skin) = false.
Proof.
  unfold getSkinDownloadUrl.
  destruct (truthy (Extract.textureValue skin)); [|reflexivity].
  rewrite download_try_url.
  destruct (skin_url br (Extract.textureValue skin)) as [[url|]|]; try reflexivity.
  destruct url; try reflexivity. simpl. apply replace_not_http.
Qed.


Lemma pop_snoc {A} (l : list A) (x : A) : pop (l ++ [x]) = Some x.
Proof.
  induction l as [|y l IH]; [reflexivity|].
  simpl. destruct (l ++ [x]) eqn:E; [now destruct l|]. exact IH.
Qed.

(** The pieces of a split, joined again. *)
Lemma split_pieces (sep : Z) (s : jstring) :
  exists pieces id,
    split sep s = pieces ++ [id] /\ Forall (fun c => c <> sep) id /\
    s = flat_map (fun p => p ++ [sep]) pieces ++ id.
Proof.
  induction s as [|c rest (pieces & id & Es & Hid & Er)]; simpl.
  - exists [], []. repeat split. constructor.
  - destruct (Z.eqb_spec c sep) as [->|Hne].
    + exists ([] :: pieces), id. rewrite Es. repeat split; [assumption|].
      simpl. now rewrite <- Er.
    + rewrite Es. destruct pieces as [|p ps]; simpl in *.
      * exists [], (c :: id). repeat split; [now constructor|now rewrite Er].
      * exists ((c :: p) :: ps), id. repeat split; [assumption|].
        simpl. now rewrite Er.
Qed.

Lemma last_path (s : jstring) :
  exists folder id,
    s = folder ++ id /\ pop (split 47 s) = Some id /\
    Forall (fun c => c <> 47) id /\ (folder = [] \/ exists f, folder = f ++ [47]).
Proof.
  destruct (split_pieces 47 s) as (pieces & id & Es & Hid & E).
  exists (flat_map (fun p => p ++ [47]) pieces), id.
  split; [exact E|]. split; [rewrite Es; apply pop_snoc|]. split; [exact Hid|].
  destruct pieces as [|p ps] using rev_ind; [now left|right].
  rewrite flat_map_app. simpl. rewrite app_nil_r, app_assoc. eauto.
Qed.

(** X18. [getSkinImageUrl] and [getSkinDownloadUrl] fall back together
    or use one URL. Either the first returns the placeholder and the
    second [#]; or the texture holds a string URL, the second returns it
    with a leading [http://] made [https://], and the first returns
    [https://mc-heads.net/head/<id>/64] where [<id>] is what follows the
    last slash of that URL (the whole of it when it has none) and holds
    no slash. *)
Theorem image_and_download (skin : Extract.skin) :
  (getSkinImageUrl br skin = placeholder /\ getSkinDownloadUrl br skin = js "#") \/
  exists folder id,
    Forall (fun c => c <> 47) id /\ (folder = [] \/ exists f, folder = f ++ [47]) /\
    getSkinImageUrl br skin = js "https://mc-heads.net/head/" ++ id ++ js "/64" /\
    getSkinDownloadUrl br skin
    = replace_prefix (js "http://") (js "https://") (folder ++ id).
Proof.
  unfold getSkinImageUrl, getSkinDownloadUrl.
  destruct (truthy (Extract.textureValue skin)); [|now left].
  rewrite image_try_url, download_try_url.
  destruct (skin_url br (Extract.textureValue skin)) as [[url|]|]; try (now left).
  destruct url as [ | | | |s| | | | ]; try (now left).
  right. destruct (last_path s) as (folder & id & E & Ep & Hid & Hf).
  exists folder, id. split; [assumption|]. split; [assumption|].
  simpl. rewrite Ep, <- E. split; reflexivity.
Qed.

(** X19. When [decodeTextureValue] gives [null] for the texture value of
    a skin (the value is falsy, is no base64, is no JSON, or is the JSON
    [null]), [getSkinImageUrl] returns the placeholder and
    [getSkinDownloadUrl] returns [#]. *)
Theorem undecoded_falls_back (skin : Extract.skin) :
  decodeTextureValue br (Extract.textureValue skin) = VNull ->
  getSkinImageUrl br skin = placeholder /\ getSkinDownloadUrl br skin = js "#".
Proof.
  unfold decodeTextureValue, getSkinImageUrl, getSkinDownloadUrl.
  destruct (truthy (Extract.textureValue skin)); simpl negb; cbv iota; [|auto].
  unfold image_try, download_try, bind.
  destruct (atob br (Extract.textureValue skin)) as [decoded|]; [|auto].
  destruct (JSON_parse br decoded) as [data|]; [|auto].
  intros ->. auto.
Qed.

End WithBrowser.

(** The theorem at a texture value that is no base64. *)
Lemma undecoded_falls_back_witness :
  let skin := {| Extract.name := VStr (js "Steve"); Extract.customName := VNull;
                 Extract.uuid := VNull; Extract.textureValue := VStr (js "no base64!");
                 Extract.textureSignature := VNull |} in
  decodeTextureValue silent_browser (Extract.textureValue skin) = VNull /\
  getSkinImageUrl silent_browser skin = placeholder /\
  getSkinDownloadUrl silent_browser skin = js "#".
Proof.
  intros skin.
  assert (H : decodeTextureValue silent_browser (Extract.textureValue skin) = VNull)
    by reflexivity.
  split; [exact H|exact (undecoded_falls_back silent_browser skin H)].
Defined.

End UrlFacts.

(* ===================================================================== *)
(** ** The name a skin is shown under *)

Module DisplayFacts.
Import Str Extract Main.

Lemma trimStart_some (s : jstring) :
  existsb (fun c => negb (is_white c)) s = true -> trimStart s <> [].
Proof.
  induction s as [|c s IH]; simpl; [discriminate|].
  destruct (is_white c); simpl; [exact IH|discriminate].
Qed.

Lemma trimStart_head (s : jstring) :
  match trimStart s with
  | c :: _ => is_white c = false
  | [] => True
  end.
Proof.
  induction s as [|c s IH]; simpl; [exact I|].
  destruct (is_white c) eqn:E; [exact IH|exact E].
Qed.

(** A string with a character that is no white space does not trim to
    the empty string. *)
Lemma trim_some (s : jstring) :
  existsb (fun c => negb (is_white c)) s = true -> trim s <> [].
Proof.
  intros H. unfold trim.
  pose proof (trimStart_some s H) as H1.
  pose proof (trimStart_head s) as Hh.
  destruct (trimStart s) as [|c t] eqn:E; [contradiction|].
  intros Hr. apply (f_equal (@rev Z)) in Hr. rewrite rev_involutive in Hr. simpl in Hr.
  assert (Hex : existsb (fun c => negb (is_white c)) (rev (c :: t)) = true).
  { apply existsb_exists. exists c. split; [apply in_rev; rewrite rev_involutive; now left|].
    now rewrite Hh. }
  apply trimStart_some in Hex. contradiction.
Qed.

Lemma is_text_trim (v : JS.value) : is_text v = true -> trim (text_of v) <> [].
Proof.
  destruct v; simpl; try discriminate. unfold str_eqb.
  destruct (list_eq_dec Z.eq_dec (trim s) []); [discriminate|auto].
Qed.

(** X20. [getDisplayName] always returns, and never a blank name: what
    it returns has a character that [trim] keeps, whatever the custom
    name and the name of the skin are (an object without text, a blank
    string, a number, nothing). *)
Theorem display_name_shown (skin : Extract.skin) (index : N) :
  exists shown, getDisplayName skin index = Ok shown /\ trim shown <> [].
Proof.
  unfold getDisplayName.
  set (numbered := js "Skin " ++ to_decimal (Z.of_N index + 1)).
  assert (Hn : trim numbered <> []) by (apply trim_some; reflexivity).
  assert (Hname : exists shown,
             (if is_text (name skin) then Ok (text_of (name skin)) else Ok numbered)
             = Ok shown /\ trim shown <> []).
  { destruct (is_text (name skin)) eqn:E; eexists; split; try reflexivity;
      [now apply is_text_trim|assumption]. }
  destruct (truthy (customName skin)); [|exact Hname].
  assert (Hstring : exists shown,
             (if is_text (customName skin) then Ok (text_of (customName skin))
              else if is_text (name skin) then Ok (text_of (name skin)) else Ok numbered)
             = Ok shown /\ trim shown <> []).
  { destruct (is_text (customName skin)) eqn:E; [|exact Hname].
    eexists; split; [reflexivity|now apply is_text_trim]. }
  destruct (is_object (customName skin)) eqn:Eo; [|exact Hstring].
  destruct (customName skin) as [ | | | | |l|l|l|o] eqn:Ec; try discriminate;
    simpl get; unfold bind;
    match goal with
    | |- context [is_text ?t] =>
        destruct (is_text t) eqn:Et;
          [eexists; split; [reflexivity|now apply is_text_trim]|exact Hstring]
    | _ => idtac
    end.
Qed.

End DisplayFacts.

(* ===================================================================== *)
(** ** Names written twice *)

Module LastWriteFacts.
Import NBT Spec BytesFacts ReaderFacts EncodingFacts MemberFacts.

(** What [parse_from] reads with some fuel, [parse] returns. *)
Lemma parse_reads (fuel : nat) (buffer : list byte) (doc : document) :
  reads (parse_from fuel) buffer doc -> parse buffer = Ok doc.
Proof.
  intros R. pose proof (R [] []) as H.
  rewrite app_nil_r in H. simpl List.length in H. simpl app in H.
  assert (E : parse_from (List.length buffer) buffer 0%nat = parse_from fuel buffer 0%nat).
  { destruct (Nat.le_ge_cases (List.length buffer) fuel) as [Hle|Hle].
    - symmetry. apply (refines_parse_from _ _ Hle), parse_from_total.
    - apply (refines_parse_from _ _ Hle). rewrite H. discriminate. }
  unfold parse, parse_run. rewrite E, H. reflexivity.
Qed.

Lemma primitive_value (t : tag) : primitive t = true -> is_object (js_of_tag t) = false.
Proof. now destruct t. Qed.

(** X25. Last write wins under every name but [__proto__]. For members
    with readable names, however the names repeat and whether or not
    they are array indices, of which those named [__proto__], if any,
    hold numbers or strings, and whose values are well-formed trees
    nested no deeper than the call stack of the engine allows: no
    object is written under [__proto__] (an array or a compound would
    become the prototype of the object, which the model does not
    follow; a number or a string is ignored by the setter), and [parse]
    decodes the encoded compound to an object that lists no key twice
    and binds every key other than [__proto__] to the value of the last
    member written under it; a repeated name is no error. *)
Theorem compound_last_write (rootName : list Z) (l : list (list Z * tag)) :
  readable_string rootName = true -> readable_members l = true ->
  keeps_prototype l = true ->
  (forall m, In m l -> flat_map Utf8.units (fst m) = js "__proto__" ->
             is_object (js_of_tag (snd m)) = false) /\
  exists o,
    parse (encode rootName l)
    = Ok {| name := flat_map Utf8.units rootName; value := VObj o |} /\
    NoDup (map fst o) /\
    forall k, k <> Name (js "__proto__") -> lookup o k = last_write l k.
Proof.
  intros Hn H Hp. split.
  { intros m Hm E. unfold keeps_prototype in Hp. rewrite forallb_forall in Hp.
    specialize (Hp m Hm). rewrite E in Hp. apply primitive_value.
    now destruct (primitive (snd m)). }
  exists (assemble [] l).
  split; [|apply assemble_last_write_wins].
  apply (parse_reads (List.length l + list_sum (map (fun m => weight (snd m)) l))).
  unfold parse_from, encode.
  eapply reads_bind; [apply reads_readUByte; lia|].
  change (negb (10 =? TAG_COMPOUND)) with false. cbv iota.
  eapply reads_bind; [apply reads_readString, Hn|].
  apply (reads_bind_ret _ (fun root => {| name := flat_map Utf8.units rootName;
                                          value := root |})).
  now apply reads_members.
Qed.

(** The theorem at members with a name twice, an array index written
    after a name, and a byte under [__proto__]. *)
Lemma compound_last_write_witness :
  let l := [(js "a", TByte 1); (js "7", TString (js "x")); (js "a", TByte 2);
            (js "__proto__", TByte 3); (js "length", TList 3 [TInt 4])] in
  readable_string (js "root") = true /\ readable_members l = true /\
  keeps_prototype l = true /\
  (forall m, In m l -> flat_map Utf8.units (fst m) = js "__proto__" ->
             is_object (js_of_tag (snd m)) = false) /\
  exists o,
    parse (encode (js "root") l)
    = Ok {| name := flat_map Utf8.units (js "root"); value := VObj o |} /\
    NoDup (map fst o) /\
    forall k, k <> Name (js "__proto__") -> lookup o k = last_write l k.
Proof.
  intros l.
  assert (Hn : readable_string (js "root") = true) by reflexivity.
  assert (H : readable_members l = true) by (vm_compute; reflexivity).
  assert (Hp : keeps_prototype l = true) by (vm_compute; reflexivity).
  split; [exact Hn|]. split; [exact H|]. split; [exact Hp|].
  exact (compound_last_write (js "root") l Hn H Hp).
Defined.

End LastWriteFacts.

(* ===================================================================== *)
(** ** The label of a skin without a name *)

Module LabelFacts.
Import Str Extract Main.

Lemma digit_of (d : Z) : 0 <= d < 10 -> digit (48 + d) = Some d.
Proof.
  intros H. unfold digit.
  destruct (Z.leb_spec 48 (48 + d)); [|exfalso; lia].
  destruct (Z.leb_spec (48 + d) 57); [|exfalso; lia].
  cbn [andb]. f_equal. lia.
Qed.

(** The digits [dec_digits] writes in front of [acc] read back as [n]. *)
Lemma dec_digits_decimal (fuel : nat) (n : Z) (acc : jstring) :
  0 <= n < 2 ^ Z.of_nat fuel ->
  decimal (dec_digits fuel n acc) 0 = decimal acc n.
Proof.
  revert n acc. induction fuel as [|fuel IH]; intros n acc Hn.
  - simpl in Hn. assert (n = 0) by lia. subst n. reflexivity.
  - cbn [dec_digits].
    assert (Hd : digit (48 + n mod 10) = Some (n mod 10))
      by (apply digit_of, Z.mod_pos_bound; lia).
    destruct (Z.ltb_spec n 10) as [Hlt|Hge].
    + cbn [decimal]. rewrite Hd. rewrite Z.mod_small by lia. reflexivity.
    + rewrite IH.
      * cbn [decimal]. rewrite Hd. f_equal.
        pose proof (Z.div_mod n 10 ltac:(lia)). lia.
      * rewrite Nat2Z.inj_succ, Z.pow_succ_r in Hn by lia.
        split; [apply Z.div_pos; lia|].
        apply Z.div_lt_upper_bound; lia.
Qed.

Lemma to_decimal_reads_back (n : Z) : 0 <= n -> decimal (to_decimal n) 0 = Some n.
Proof.
  intros Hn. unfold to_decimal. rewrite dec_digits_decimal; [reflexivity|].
  split; [assumption|].
  rewrite Nat2Z.inj_succ, Z2Nat.id by apply Z.log2_nonneg.
  destruct (Z.eq_dec n 0) as [->|Hnz]; [reflexivity|].
  apply Z.log2_spec. lia.
Qed.

(** X24. A skin with no custom name and no name to show is labelled
    [Skin n], [n] the decimal numeral of its place counted from 1: the
    digits after [Skin ] read back as [index + 1], so two places never
    share a label. *)
Theorem unnamed_label (skin : Extract.skin) (index : N) :
  truthy (customName skin) = false -> is_text (name skin) = false ->
  exists digits,
    getDisplayName skin index = Ok (js "Skin " ++ digits) /\
    decimal digits 0 = Some (Z.of_N index + 1).
Proof.
  intros Hc Hn. exists (to_decimal (Z.of_N index + 1)).
  split; [|apply to_decimal_reads_back; lia].
  unfold getDisplayName. now rewrite Hc, Hn.
Qed.

(** The theorem at the twelfth skin, its name blank. *)
Lemma unnamed_label_witness :
  let skin := {| name := VStr (js "  "); customName := VNull; uuid := VNull;
                 textureValue := VStr (js "T"); textureSignature := VNull |} in
  truthy (customName skin) = false /\ is_text (name skin) = false /\
  exists digits,
    getDisplayName skin 11 = Ok (js "Skin " ++ digits) /\
    decimal digits 0 = Some (Z.of_N 11 + 1).
Proof.
  intros skin.
  assert (Hc : truthy (customName skin) = false) by reflexivity.
  assert (Hn : is_text (name skin) = false) by reflexivity.
  split; [exact Hc|]. split; [exact Hn|].
  exact (unnamed_label skin 11 Hc Hn).
Defined.

End LabelFacts.

(* ===================================================================== *)
(** ** From the bytes of a schematic to its skins *)

Module PipelineFacts.
Import Extract Spec Props Heads BytesFacts ReaderFacts EntityFacts DedupFacts
  EncodingFacts RoundTripFacts UuidFacts.

Lemma parse_encode (rootName : list Z) (members : list (list Z * tag)) :
  readable_string rootName = true -> well_formed (TCompound members) = true ->
  NBT.parse (encode rootName members)
  = Ok {| NBT.name := flat_map Utf8.units rootName;
          NBT.value := js_of_tag (TCompound members) |}.
Proof.
  intros Hn Hwf.
  pose proof (reads_parse_from rootName members Hn Hwf [] []) as H.
  rewrite app_nil_r in H. simpl List.length in H. simpl app in H.
  set (buffer := encode rootName members) in *.
  set (F := weight (TCompound members)) in *.
  assert (E : NBT.parse_from (List.length buffer) buffer 0%nat = NBT.parse_from F buffer 0%nat).
  { destruct (Nat.le_ge_cases (List.length buffer) F) as [Hle|Hle].
    - symmetry. apply (refines_parse_from _ _ Hle), parse_from_total.
    - apply (refines_parse_from _ _ Hle). rewrite H. discriminate. }
  unfold NBT.parse, NBT.parse_run. rewrite E, H. reflexivity.
Qed.

Lemma skull_well_formed (h : player_head) :
  writable h = true -> well_formed (skull h) = true /\ tag_type (skull h) = 10.
Proof.
  unfold writable, skull. destruct (id_parts h) as [[[a b] c] d].
  intros H.
  apply andb_true_iff in H as [H Hs]. apply andb_true_iff in H as [H Hi].
  apply andb_true_iff in H as [H Ht']. apply andb_true_iff in H as [H Ht].
  apply andb_true_iff in H as [Ho Ho'].
  cbn [forallb] in Hi.
  apply andb_true_iff in Hi as [H Hi]. apply andb_true_iff in Hi as [H0 Hi].
  apply andb_true_iff in Hi as [H1 Hi]. apply andb_true_iff in Hi as [H2 _].
  destruct (written h) as [|signature]; (split; [|reflexivity]);
    cbn [well_formed forallb fst snd map tag_type];
    rewrite Ho, Ht, H, H0, H1, H2, ?Hs; reflexivity.
Qed.

Lemma units_nonempty (s : list Z) :
  nonempty s = true -> truthy (VStr (flat_map Utf8.units s)) = true.
Proof.
  destruct s as [|c s]; [discriminate|]. intros _. simpl.
  unfold Utf8.units. destruct (c <? 65536); reflexivity.
Qed.

Lemma js_of_skull (h : player_head) :
  js_of_tag (skull h) =
  let '(a, b, c, d) := id_parts h in
  match written h with
  | Classic =>
      VObj [(prop "id", VStr (js "minecraft:skull"));
            (prop "SkullOwner",
             VObj [(prop "Id", VI32 [a; b; c; d]);
                   (prop "Name", VStr (flat_map Utf8.units (owner h)));
                   (prop "Properties",
                    VObj [(prop "textures",
                           VArr [VObj [(prop "Value",
                                        VStr (flat_map Utf8.units (texture h)))]])])])]
  | Modern signature =>
      VObj [(prop "id", VStr (js "minecraft:skull"));
            (prop "profile",
             VObj [(prop "id", VI32 [a; b; c; d]);
                   (prop "name", VStr (flat_map Utf8.units (owner h)));
                   (prop "properties",
                    VArr [VObj [(prop "name", VStr (js "textures"));
                                (prop "value", VStr (flat_map Utf8.units (texture h)));
                                (prop "signature",
                                 VStr (flat_map Utf8.units signature))]])])]
  end.
Proof.
  unfold skull. destruct (id_parts h) as [[[a b] c] d].
  destruct (written h); reflexivity.
Qed.

Section WithRuntime.
Variable rt : runtime.

Lemma orelse_first (x : JS.value) (b : result JS.value) :
  truthy x = true -> Ok x ||| b = Ok x.
Proof. intros H. unfold orelse. simpl. now rewrite H. Qed.

Lemma orelse_second (x : JS.value) (b : result JS.value) :
  truthy x = true -> Ok VUndef ||| Ok x ||| b = Ok x.
Proof. intros H. unfold orelse. simpl. now rewrite H. Qed.

(** The profile of a head written the old way. *)
Lemma parse_classic (name value customName : JS.value) (a b c d : Z) :
  truthy name = true -> truthy value = true ->
  parseProfile rt
    (VObj [(prop "Id", VI32 [a; b; c; d]); (prop "Name", name);
           (prop "Properties",
            VObj [(prop "textures", VArr [VObj [(prop "Value", value)]])])])
    customName
  = Ok (Some {| Extract.name := name; customName := customName;
                uuid := VStr (canonical_uuid a b c d);
                textureValue := value; textureSignature := VUndef |}).
Proof.
  intros Hn Hv.
  set (id := VI32 [a; b; c; d]).
  set (textures := VArr [VObj [(prop "Value", value)]]).
  set (properties := VObj [(prop "textures", textures)]).
  set (profile := VObj [(prop "Id", id); (prop "Name", name);
                        (prop "Properties", properties)]).
  unfold parseProfile. change (is_string profile) with false. cbv iota.
  assert (N1 : get profile (prop "Name") ||| get profile (prop "name") ||| Ok VNull
               = Ok name).
  { change (get profile (prop "Name")) with (Ok name). now rewrite !orelse_first. }
  assert (N2 : get profile (prop "Id") ||| get profile (prop "id")
               ||| get profile (prop "UUID") ||| get profile (prop "uuid") = Ok id)
    by reflexivity.
  assert (N3 : get profile (prop "Properties") ||| get profile (prop "properties")
               = Ok properties) by reflexivity.
  rewrite N1, N2. cbn [bind].
  rewrite (uuid_of_indexed rt id a b c d) by reflexivity. cbn [bind].
  rewrite N3. cbn [bind].
  assert (T : textures_of properties = Ok (value, VUndef)).
  { unfold textures_of. change (truthy properties) with true. cbn [negb]. cbv iota.
    subst properties. cbv iota.
    assert (T1 : get (VObj [(prop "textures", textures)]) (prop "textures")
                 ||| get (VObj [(prop "textures", textures)]) (prop "Textures")
                 ||| Ok (VArr []) = Ok textures) by reflexivity.
    rewrite T1. cbn [bind]. subst textures. cbv iota.
    change (get (VObj [(prop "Value", value)]) (prop "Value")) with (Ok value).
    rewrite orelse_first by assumption. cbn [bind]. reflexivity. }
  rewrite T. cbn [bind]. rewrite Hn. reflexivity.
Qed.

(** The profile of a head written the new way. *)
Lemma parse_modern (name value signature customName : JS.value) (a b c d : Z) :
  truthy name = true -> truthy value = true ->
  parseProfile rt
    (VObj [(prop "id", VI32 [a; b; c; d]); (prop "name", name);
           (prop "properties",
            VArr [VObj [(prop "name", VStr (js "textures")); (prop "value", value);
                        (prop "signature", signature)]])])
    customName
  = Ok (Some {| Extract.name := name; customName := customName;
                uuid := VStr (canonical_uuid a b c d);
                textureValue := value; textureSignature := signature |}).
Proof.
  intros Hn Hv.
  set (id := VI32 [a; b; c; d]).
  set (property := VObj [(prop "name", VStr (js "textures")); (prop "value", value);
                         (prop "signature", signature)]).
  set (properties := VArr [property]).
  set (profile := VObj [(prop "id", id); (prop "name", name);
                        (prop "properties", properties)]).
  unfold parseProfile. change (is_string profile) with false. cbv iota.
  assert (N1 : get profile (prop "Name") ||| get profile (prop "name") ||| Ok VNull
               = Ok name).
  { change (get profile (prop "Name")) with (@Ok JS.value VUndef).
    change (get profile (prop "name")) with (Ok name). now apply orelse_second. }
  assert (N2 : get profile (prop "Id") ||| get profile (prop "id")
               ||| get profile (prop "UUID") ||| get profile (prop "uuid") = Ok id)
    by reflexivity.
  assert (N3 : get profile (prop "Properties") ||| get profile (prop "properties")
               = Ok properties) by reflexivity.
  rewrite N1, N2. cbn [bind].
  rewrite (uuid_of_indexed rt id a b c d) by reflexivity. cbn [bind].
  rewrite N3. cbn [bind].
  assert (T : textures_of properties = Ok (value, signature)).
  { unfold textures_of. change (truthy properties) with true. cbn [negb]. cbv iota.
    subst properties. cbv iota. cbn [find].
    change (get property (prop "name")) with (Ok (VStr (js "textures"))).
    cbn [bind]. change (is_str (VStr (js "textures")) (js "textures")) with true.
    cbv iota. change (truthy property) with true. cbv iota.
    change (get property (prop "Value")) with (@Ok JS.value VUndef).
    change (get property (prop "value")) with (Ok value).
    change (get property (prop "Signature")) with (@Ok JS.value VUndef).
    change (get property (prop "signature")) with (Ok signature).
    reflexivity. }
  rewrite T. cbn [bind]. rewrite Hn. reflexivity.
Qed.

Lemma extract_skull (h : player_head) :
  writable h = true ->
  extractSkinFromEntity rt (js_of_tag (skull h)) = Ok (Some (skin_of h)).
Proof.
  intros H. rewrite js_of_skull. unfold writable, skin_of in *.
  destruct (id_parts h) as [[[a b] c] d].
  apply andb_true_iff in H as [H _]. apply andb_true_iff in H as [H _].
  apply andb_true_iff in H as [H Ht']. apply andb_true_iff in H as [H _].
  apply andb_true_iff in H as [_ Ho'].
  apply units_nonempty in Ho', Ht'.
  set (name := VStr (flat_map Utf8.units (owner h))) in *.
  set (value := VStr (flat_map Utf8.units (texture h))) in *.
  destruct (written h) as [|signature].
  - set (profile := VObj [(prop "Id", VI32 [a; b; c; d]); (prop "Name", name);
                          (prop "Properties",
                           VObj [(prop "textures", VArr [VObj [(prop "Value", value)]])])]).
    set (entity := VObj [(prop "id", VStr (js "minecraft:skull"));
                         (prop "SkullOwner", profile)]).
    unfold extractSkinFromEntity.
    assert (E1 : get entity (prop "id") ||| get entity (prop "Id") ||| Ok (VStr [])
                 = Ok (VStr (js "minecraft:skull"))) by reflexivity.
    assert (E2 : get entity (prop "profile") ||| get entity (prop "SkullOwner")
                 ||| get entity (prop "Owner") = Ok profile) by reflexivity.
    assert (E3 : get entity (prop "custom_name") ||| get entity (prop "CustomName")
                 ||| Ok VNull = Ok VNull) by reflexivity.
    rewrite E1, E2. cbn [bind]. change (truthy profile) with true. cbn [negb].
    rewrite E3. cbn [bind]. now apply parse_classic.
  - set (profile := VObj [(prop "id", VI32 [a; b; c; d]); (prop "name", name);
                          (prop "properties",
                           VArr [VObj [(prop "name", VStr (js "textures"));
                                       (prop "value", value);
                                       (prop "signature",
                                        VStr (flat_map Utf8.units signature))]])]).
    set (entity := VObj [(prop "id", VStr (js "minecraft:skull"));
                         (prop "profile", profile)]).
    unfold extractSkinFromEntity.
    assert (E1 : get entity (prop "id") ||| get entity (prop "Id") ||| Ok (VStr [])
                 = Ok (VStr (js "minecraft:skull"))) by reflexivity.
    assert (E2 : get entity (prop "profile") ||| get entity (prop "SkullOwner")
                 ||| get entity (prop "Owner") = Ok profile) by reflexivity.
    assert (E3 : get entity (prop "custom_name") ||| get entity (prop "CustomName")
                 ||| Ok VNull = Ok VNull) by reflexivity.
    rewrite E1, E2. cbn [bind]. change (truthy profile) with true. cbn [negb].
    rewrite E3. cbn [bind]. now apply parse_modern.
Qed.

Lemma foldM_skulls (heads : list player_head) (st : state) :
  consistent st -> forallb writable heads = true ->
  exists st',
    foldM (visit_entity rt) (map js_of_tag (map skull heads)) st = Ok st' /\
    skins st' = dedup_from (skins st) (map skin_of heads) /\ consistent st'.
Proof.
  revert st. induction heads as [|h heads IH]; intros st Hc Hw; simpl.
  - exists st. auto.
  - simpl in Hw. apply andb_true_iff in Hw as [Hh Hw].
    rewrite (visit_entity_some rt st _ _ (extract_skull h Hh)).
    rewrite (has_key_kept st (skin_of h) Hc). cbn [bind].
    destruct (truthy (dedup_key (skin_of h)) && negb (key_kept (skins st) (skin_of h))).
    + apply IH; [|assumption]. unfold consistent in *. simpl. now rewrite map_app, Hc.
    + now apply IH.
Qed.

Lemma litematic_well_formed (region : list Z) (heads : list player_head) :
  member_name region = true -> forallb writable heads = true ->
  Z.of_nat (List.length heads) < 2 ^ 31 ->
  well_formed (TCompound (litematic region heads)) = true.
Proof.
  intros Hr Hw Hl. unfold litematic.
  cbn [well_formed forallb fst snd map tag_type enumerated].
  rewrite Hr, length_map.
  assert (E : (Z.of_nat (List.length heads) <? 2 ^ 31) = true) by now apply Z.ltb_lt.
  rewrite E.
  assert (F : forallb (fun x => (tag_type x =? 10) && well_formed x) (map skull heads) = true).
  { apply forallb_forall. intros x Hx. apply in_map_iff in Hx as (h & <- & Hh).
    rewrite forallb_forall in Hw.
    destruct (skull_well_formed h (Hw h Hh)) as [W T]. now rewrite W, T. }
  rewrite F. reflexivity.
Qed.

(** X21. From the bytes of a schematic to its skins, for schematics of
    one layout. The root, under any readable name, has the members
    [Version] (the int 6) and [Regions]; [Regions] holds one region,
    under a readable name other than [__proto__], whose only member is
    [BlockEntities], a list of fewer than 2^31 player heads. A head is a
    compound with [id] (the string [minecraft:skull]) and, as Minecraft
    writes it before 1.20.2, [SkullOwner] with [Id] (an int array of
    four), [Name] and [Properties], whose [textures] is a list of one
    compound with [Value]; or, since, [profile] with [id], [name] and
    [properties], a list of one compound with [name] (the string
    [textures]), [value] and [signature]. Readable is: Unicode scalar
    values, at most 32767 bytes of UTF-8, no U+FEFF in front; the owner
    name, the texture value and the signature are readable, the first
    two not empty, and the four integers are signed 32-bit. Then
    [parse] decodes the encoded file and
    [extractSkinsFromNBT] returns, in the order of the file, one profile
    per head (its name, the UUID in its hyphenated form, its texture
    value, its signature if written), less those whose texture value an
    earlier head has. *)
Theorem heads_from_bytes (rootName region : list Z) (heads : list player_head) :
  readable_string rootName = true -> member_name region = true ->
  forallb writable heads = true -> Z.of_nat (List.length heads) < 2 ^ 31 ->
  exists doc,
    NBT.parse (encode rootName (litematic region heads)) = Ok doc /\
    extractSkinsFromNBT rt doc = Ok (dedup (map skin_of heads)).
Proof.
  intros Hn Hr Hw Hl.
  eexists. split; [apply parse_encode; [assumption|now apply litematic_well_formed]|].
  unfold extractSkinsFromNBT. cbn [NBT.value].
  set (k := key_of (flat_map Utf8.units region)).
  set (es := map js_of_tag (map skull heads)).
  set (R := [(k, VObj [(prop "BlockEntities", VArr es)])]).
  assert (E : js_of_tag (TCompound (litematic region heads))
              = VObj [(prop "Version", VInt 6); (prop "Regions", VObj R)]) by reflexivity.
  rewrite E.
  assert (G : get (VObj [(prop "Version", VInt 6); (prop "Regions", VObj R)]) (prop "Regions")
              ||| get (VObj [(prop "Version", VInt 6); (prop "Regions", VObj R)])
                    (prop "regions")
              ||| Ok (VObj []) = Ok (VObj R)) by reflexivity.
  rewrite G. cbn [bind]. subst R. cbn [for_in map fst foldM].
  rewrite visit_region_single. subst es.
  destruct (foldM_skulls heads {| skins := []; seenTextures := [] |} eq_refl Hw)
    as (st' & -> & Hs & _).
  cbn [bind]. now rewrite Hs.
Qed.

End WithRuntime.

(** The theorem at three heads, the third the first again. *)
Lemma heads_from_bytes_witness :
  let alex := {| written := Classic; owner := js "Alex";
                 id_parts := (-737154161, 1675314149, -1429125736, -1059509461);
                 texture := js "ZXhhbXBsZQ==" |} in
  let steve := {| written := Modern (js "c2lnbmVk"); owner := js "Steve";
                  id_parts := (1, 2, 3, 4); texture := js "c3RldmU=" |} in
  readable_string (js "") = true /\ member_name (js "Unnamed") = true /\
  forallb writable [alex; steve; alex] = true /\
  Z.of_nat (List.length [alex; steve; alex]) < 2 ^ 31 /\
  exists doc,
    NBT.parse (encode (js "") (litematic (js "Unnamed") [alex; steve; alex])) = Ok doc /\
    extractSkinsFromNBT example_runtime doc = Ok (dedup (map skin_of [alex; steve; alex])).
Proof.
  intros alex steve.
  assert (H1 : readable_string (js "") = true) by reflexivity.
  assert (H2 : member_name (js "Unnamed") = true) by reflexivity.
  assert (H3 : forallb writable [alex; steve; alex] = true) by reflexivity.
  assert (H4 : Z.of_nat (List.length [alex; steve; alex]) < 2 ^ 31) by reflexivity.
  split; [exact H1|]. split; [exact H2|]. split; [exact H3|]. split; [exact H4|].
  exact (heads_from_bytes example_runtime (js "") (js "Unnamed") [alex; steve; alex]
           H1 H2 H3 H4).
Defined.

End PipelineFacts.

(* ===================================================================== *)
(** ** From a file to its skins *)

Module FileFacts.
Import Litematic Props.

(** X23. Whatever the engine and the decompressor (taken to return the
    decompressed bytes or to throw), for every file whose decompressed
    bytes nowhere hold the nine bytes of the name [__proto__]: no
    string the reader reads in them is [__proto__], so that no compound
    of the document has its prototype replaced, and
    [extractSkinsFromLitematic] ends in one of four ways: the
    decompressor threw (the error [Failed to decompress litematic
    file]); the skins; a TypeError of the extractor; or an error of the
    reader, a RangeError (also what the engine throws when the nesting
    outruns its call stack, which the model does not limit), a tag type
    between 13 and 255, or a root type other than 10. *)
Theorem file_outcome (inflate : inflater) (rt : Extract.runtime) (arrayBuffer : list byte) :
  (forall decompressed,
     inflate arrayBuffer = Some decompressed -> occurs proto_name decompressed = false) ->
  (forall decompressed off s off',
     inflate arrayBuffer = Some decompressed ->
     NBT.readString decompressed off = Ok (s, off') -> s <> JS.js "__proto__") /\
  (extractSkinsFromLitematic inflate rt arrayBuffer = None \/
   (exists skins, extractSkinsFromLitematic inflate rt arrayBuffer = Some (Ok skins)) \/
   extractSkinsFromLitematic inflate rt arrayBuffer = Some (Throw TypeError) \/
   (exists e, extractSkinsFromLitematic inflate rt arrayBuffer = Some (Throw e) /\
              parse_error e)).
Proof.
  intros Hp. split.
  { intros decompressed off s off' E. now apply NameFacts.readString_not_proto, Hp. }
  unfold extractSkinsFromLitematic, parseLitematic.
  destruct (inflate arrayBuffer) as [decompressed|]; [right|now left].
  pose proof (ReaderFacts.parse_total decompressed) as Htot.
  pose proof (OutcomeFacts.parse_from_good (List.length decompressed) decompressed 0%nat) as T.
  unfold NBT.parse, NBT.parse_run in *.
  destruct (NBT.parse_from (List.length decompressed) decompressed 0%nat)
    as [[doc off]|e|]; [|right; right; exists e; split; [reflexivity|exact T]|contradiction].
  cbn [Extract.bind].
  pose proof (WalkFacts.settles_extractSkinsFromNBT rt doc) as S.
  destruct (Extract.extractSkinsFromNBT rt doc) as [skins|e|]; simpl in S;
    [left; eauto|right; left; now subst|contradiction].
Qed.

(** The theorem at a decompressor that gives the file back, and a
    document whose one region has the number 1 for [BlockEntities]. *)
Lemma file_outcome_witness :
  let stored : inflater := fun compressed => Some compressed in
  let file := Spec.mistyped_block_entities in
  (forall decompressed,
     stored file = Some decompressed -> occurs proto_name decompressed = false) /\
  (forall decompressed off s off',
     stored file = Some decompressed ->
     NBT.readString decompressed off = Ok (s, off') -> s <> JS.js "__proto__") /\
  (extractSkinsFromLitematic stored Spec.example_runtime file = None \/
   (exists skins,
      extractSkinsFromLitematic stored Spec.example_runtime file = Some (Ok skins)) \/
   extractSkinsFromLitematic stored Spec.example_runtime file = Some (Throw TypeError) \/
   (exists e, extractSkinsFromLitematic stored Spec.example_runtime file = Some (Throw e) /\
              parse_error e)).
Proof.
  intros stored file.
  assert (H : forall decompressed,
            stored file = Some decompressed -> occurs proto_name decompressed = false).
  { intros decompressed [= <-]. reflexivity. }
  split; [exact H|exact (file_outcome stored Spec.example_runtime file H)].
Defined.

End FileFacts.
